(** * Dental notes comparison tool: ranking, batch orchestration and
      cross-transcript summary

    A shallow embedding of the evaluation pipeline:
    - [src/lib/openai.ts]: [evaluateDentalNotes], [rankEvaluations];
    - [src/app/api/evaluate/route.ts]: [POST] and the three batch paths
      [evaluateBatchInMemory], [evaluateBatchInChunks],
      [evaluatePartialBatch];
    - [components/BatchSummary.tsx]: the per-note-type statistics and
      [generateCommentary], in exact arithmetic ([Summary]) and in double
      precision ([Summary64]);
    - [components/ResultsDisplay.tsx]: the order of the results page;
    - [app/api/evaluate/route.ts]: [GET] on the stored sessions and batches.

    Conventions.  JavaScript objects that are mutated in place live in a
    store and are handled through their address; arrays of such objects are
    lists of addresses.  Scores have the declared type [number] and are
    taken to be integers, as the rubric asks.  The averages of the summary
    are rationals in [Summary]; [Summary64] computes them as the browser
    does, operation by operation in double precision, and carries the
    statements that depend on the rounding of an operation.  The console
    is not modelled. *)

From Stdlib Require Import QArith Qround Qabs Qpower.
From stdpp Require Import base list strings pretty sorting.

Set Warnings "-register-all".

Open Scope Z_scope.

(** ** JavaScript primitives *)

Module JS.

(** Comparisons of numbers: [x > y], [x < y], [x >= y], [x === y]. *)
Definition gt (x y : Q) : bool := negb (Qle_bool x y).
Definition lt (x y : Q) : bool := gt y x.
Definition ge (x y : Q) : bool := Qle_bool y x.
Definition eq (x y : Q) : bool := Qeq_bool x y.

Definition positive (x : Q) : bool := gt x 0.

(** [Array.prototype.sort(comparefn)]: the sort is stable, and an element
    moves behind another one only when [comparefn] is positive.  With a
    consistent comparator the result of a stable sort is unique; it is
    computed here by stable insertion. *)
Fixpoint insert {A} (comparefn : A → A → Q) (x : A) (l : list A) : list A :=
  match l with
  | [] => [x]
  | y :: l' =>
      if positive (comparefn x y) then y :: insert comparefn x l'
      else x :: l
  end.

Definition sort {A} (comparefn : A → A → Q) (l : list A) : list A :=
  foldr (insert comparefn) [] l.

(** [Array.prototype.forEach((element, index) => ...)] with the effect of
    the callback on a state. *)
Fixpoint forEachFrom {A St} (i : nat) (f : A → nat → St → St)
    (l : list A) (s : St) : St :=
  match l with
  | [] => s
  | x :: l' => forEachFrom (S i) f l' (f x i s)
  end.

Definition forEach {A St} (f : A → nat → St → St) (l : list A) (s : St) : St :=
  forEachFrom 0 f l s.

(** [Math.round]: the nearest integer, halves towards plus infinity. *)
Definition round (x : Q) : Z := Qfloor (x + (1 # 2)).

(** Pushing [v] on the array kept under [key], which is created when the
    key is new.  A [Map], and an object whose keys are not written like
    array indices, enumerate their keys in insertion order. *)
Fixpoint groupPush {V} (key : string) (v : V) (m : list (string * list V))
    : list (string * list V) :=
  match m with
  | [] => [(key, [v])]
  | (k, members) :: m' =>
      if decide (k = key) then (k, members ++ [v]) :: m'
      else (k, members) :: groupPush key v m'
  end.

(** [Array.prototype.slice(start, end)] for [0 <= start <= end]. *)
Definition slice {A} (start stop : nat) (l : list A) : list A :=
  take (stop - start) (drop start l).

End JS.

(** ** Data model ([types/index.ts]) *)

Record Score := {
  score : Z;
  explanation : string;
  examples : list string
}.

Inductive Severity := low | medium | high.

Record Falsehood := {
  falsehood_id : string;
  description : string;
  severity : Severity;
  location : string;
  correction : string
}.

Record EvaluationResults := {
  detailScore : Score;
  truthfulnessScore : Score;
  falsehoods : list Falsehood;
  summary : string;
  overallRanking : Z
}.

(** [evaluation.overallRanking = r], every other field kept. *)
Definition set_overallRanking (r : Z) (e : EvaluationResults) : EvaluationResults :=
  {| detailScore := detailScore e;
     truthfulnessScore := truthfulnessScore e;
     falsehoods := falsehoods e;
     summary := summary e;
     overallRanking := r |}.

#[global] Instance Score_inhabited : Inhabited Score :=
  populate {| score := 0; explanation := EmptyString; examples := [] |}.

#[global] Instance EvaluationResults_inhabited : Inhabited EvaluationResults :=
  populate {| detailScore := inhabitant; truthfulnessScore := inhabitant;
              falsehoods := []; summary := EmptyString; overallRanking := 0 |}.

(** The store of [EvaluationResults] objects: an object is its address, a
    new object takes the next free address. *)
Abbreviation loc := nat (only parsing).
Abbreviation Heap := (list EvaluationResults) (only parsing).

Definition alloc (e : EvaluationResults) (h : Heap) : loc * Heap :=
  (length h, h ++ [e]).

(** A record with the two scores given and nothing else in it. *)
Definition mkResults (d t : Z) : EvaluationResults :=
  {| detailScore := {| score := d; explanation := EmptyString; examples := [] |};
     truthfulnessScore := {| score := t; explanation := EmptyString; examples := [] |};
     falsehoods := []; summary := EmptyString; overallRanking := 0 |}.

(** ** The ranker ([rankEvaluations], openai.ts) *)

Module Ranker.

(** [(detailScore.score + truthfulnessScore.score) / 2] *)
Definition composite (e : EvaluationResults) : Q :=
  inject_Z (score (detailScore e) + score (truthfulnessScore e)) / 2.

(** An element of [evaluationsWithComposite]: a spread copy of the
    evaluation with two more fields. *)
Record WithComposite := {
  copy : EvaluationResults;
  compositeScore : Q;
  originalIndex : nat
}.

Definition withComposite (h : Heap) (index : nat) (evaluation : loc) : WithComposite :=
  {| copy := h !!! evaluation;
     compositeScore := composite (h !!! evaluation);
     originalIndex := index |}.

(** [(a, b) => b.compositeScore - a.compositeScore] *)
Definition byComposite (a b : WithComposite) : Q :=
  compositeScore b - compositeScore a.

(** [evaluations[evaluation.originalIndex].overallRanking = index + 1] *)
Definition assignRanking (evaluations : list loc)
    (evaluation : WithComposite) (index : nat) (h : Heap) : Heap :=
  match evaluations !! originalIndex evaluation with
  | Some l => alter (set_overallRanking (Z.of_nat index + 1)) l h
  | None => h
  end.

(** The function returns the array it was given; the rankings are written
    into the objects of that array. *)
Definition rankEvaluations (h : Heap) (evaluations : list loc) : Heap * list loc :=
  if decide (length evaluations = 0%nat) then (h, evaluations)
  else
    let evaluationsWithComposite := imap (withComposite h) evaluations in
    let sorted := JS.sort byComposite evaluationsWithComposite in
    (JS.forEach (assignRanking evaluations) sorted h, evaluations).

(** What a caller reads off an object of the store. *)
Definition rankAt (h : Heap) (l : loc) : Z := overallRanking (h !!! l).
Definition compositeAt (h : Heap) (l : loc) : Q := composite (h !!! l).

End Ranker.

(** ** The judge client ([evaluateDentalNotes], openai.ts) *)

Module Judge.

(** A JavaScript value as [JSON.parse] builds it, and [undefined], which
    reading an absent property gives. *)
Inductive jsval :=
| VUndefined
| VNull
| VBool (b : bool)
| VNumber (n : Q)
| VString (s : string)
| VArray (elements : list jsval)
| VObject (properties : list (string * jsval)).

(** The outcome of [openai.chat.completions.create] as the function uses
    it: the call is rejected with a message, or
    [completion.choices[0]?.message?.content] is a string or absent. *)
Inductive Completion :=
| Rejected (message : string)
| Completed (content : option string).

(** The internal record, with the fields as they come out of the parsed
    response: nothing is checked on the way. *)
Record RawScore := {
  score : jsval;
  explanation : jsval;
  examples : jsval
}.

Record RawFalsehood := {
  id : string;
  description : jsval;
  severity : jsval;
  location : jsval;
  correction : jsval
}.

Record RawResults := {
  detailScore : RawScore;
  truthfulnessScore : RawScore;
  falsehoods : list RawFalsehood;
  summary : jsval;
  overallRanking : Z
}.

Fixpoint assoc (key : string) (properties : list (string * jsval)) : jsval :=
  match properties with
  | [] => VUndefined
  | (k, v) :: rest => if decide (k = key) then v else assoc key rest
  end.

(** [v.key]: a [TypeError] on [null] and [undefined]; an own property of
    an object; [undefined] for the names read here on every other value. *)
Definition prop (v : jsval) (key : string) : string + jsval :=
  match v with
  | VUndefined => inl ("Cannot read properties of undefined (reading '" +:+ key +:+ "')")
  | VNull => inl ("Cannot read properties of null (reading '" +:+ key +:+ "')")
  | VObject properties => inr (assoc key properties)
  | _ => inr VUndefined
  end.

Definition bind {E A B} (x : E + A) (f : A → E + B) : E + B :=
  match x with inl e => inl e | inr a => f a end.

Notation "'let*' x := y 'in' z" := (bind y (fun x => z))
  (at level 10, x name, y at level 100, z at level 200, only parsing).

(** The callback of [parsed.falsehoods.map]. *)
Definition convertFalsehood (now : nat → Z) (index : nat) (f : jsval)
    : string + RawFalsehood :=
  let* d := prop f "description" in
  let* s := prop f "severity" in
  let* l := prop f "location" in
  let* c := prop f "correction" in
  inr {| id := "falsehood_" +:+ pretty (now index) +:+ "_" +:+ pretty index;
         description := d; severity := s; location := l; correction := c |}.

Fixpoint mapFrom {A B} (index : nat) (f : nat → A → string + B) (l : list A)
    : string + list B :=
  match l with
  | [] => inr []
  | x :: rest =>
      let* y := f index x in
      let* ys := mapFrom (S index) f rest in
      inr (y :: ys)
  end.

(** [parsed.falsehoods.map(...)]: only an array has a [map] to call. *)
Definition mapFalsehoods (now : nat → Z) (v : jsval) : string + list RawFalsehood :=
  match v with
  | VArray elements => mapFrom 0 (convertFalsehood now) elements
  | VUndefined => inl "Cannot read properties of undefined (reading 'map')"
  | VNull => inl "Cannot read properties of null (reading 'map')"
  | _ => inl "parsed.falsehoods.map is not a function"
  end.

Section Client.

(** [JSON.parse]: the parsed value, or the message of its [SyntaxError]. *)
Variable JSON_parse : string → string + jsval.
(** [Date.now()] at the i-th falsehood. *)
Variable now : nat → Z.

(** The body of the [try] block after the call has returned. *)
Definition convert (response : option string) : string + RawResults :=
  match response with
  | None => inl "No response from OpenAI"
  | Some text =>
      if decide (text = EmptyString) then inl "No response from OpenAI"
      else
        let* parsed := JSON_parse text in
        let* ds := prop parsed "detailScore" in
        let* de := prop parsed "detailExplanation" in
        let* dx := prop parsed "detailExamples" in
        let* ts := prop parsed "truthfulnessScore" in
        let* te := prop parsed "truthfulnessExplanation" in
        let* tx := prop parsed "truthfulnessExamples" in
        let* fs := prop parsed "falsehoods" in
        let* falsehoods := mapFalsehoods now fs in
        let* sm := prop parsed "summary" in
        inr {| detailScore := {| score := ds; explanation := de; examples := dx |};
               truthfulnessScore := {| score := ts; explanation := te; examples := tx |};
               falsehoods := falsehoods;
               summary := sm;
               overallRanking := 0 |}
  end.

(** Every failure, of the call or of the conversion, is caught and thrown
    again as [new Error(`OpenAI-eval-error: ${message}`)]; the left side is
    the message of that error. *)
Definition evaluateDentalNotes (completion : Completion) : string + RawResults :=
  let thrown message := inl ("OpenAI-eval-error: " +:+ message) in
  match completion with
  | Rejected message => thrown message
  | Completed response =>
      match convert response with
      | inl message => thrown message
      | inr results => inr results
      end
  end.

End Client.

(** The response shape of the spec: every field present with the stated
    type.  Used to say which responses are off-schema. *)
Definition isInt (v : jsval) : bool :=
  match v with VNumber n => bool_decide (Qden n = 1%positive) | _ => false end.
Definition isString (v : jsval) : bool :=
  match v with VString _ => true | _ => false end.
Definition isStringArray (v : jsval) : bool :=
  match v with VArray l => forallb isString l | _ => false end.
Definition isFalsehood (v : jsval) : bool :=
  match v with
  | VObject _ =>
      match prop v "description", prop v "severity", prop v "location",
            prop v "correction" with
      | inr d, inr s, inr l, inr c =>
          isString d && isString s && isString l && isString c
      | _, _, _, _ => false
      end
  | _ => false
  end.
Definition isFalsehoodArray (v : jsval) : bool :=
  match v with VArray l => forallb isFalsehood l | _ => false end.

Definition matchesSchema (v : jsval) : bool :=
  match v with
  | VObject properties =>
      isInt (assoc "detailScore" properties)
      && isString (assoc "detailExplanation" properties)
      && isStringArray (assoc "detailExamples" properties)
      && isInt (assoc "truthfulnessScore" properties)
      && isString (assoc "truthfulnessExplanation" properties)
      && isStringArray (assoc "truthfulnessExamples" properties)
      && isFalsehoodArray (assoc "falsehoods" properties)
      && isString (assoc "summary" properties)
  | _ => false
  end.

End Judge.

(** ** The batch orchestrator ([app/api/evaluate/route.ts]) *)

Module Orchestrator.

(** [BatchData.structure]: the entries in the order [Object.entries] and
    [Object.values] enumerate them; the keys of an object are distinct.
    The other fields of [BatchData] are not read by the evaluation. *)
Record NoteFile := { name : string; content : string }.

Record Group := {
  transcript : option string;   (* [transcript.content], or [null] *)
  notes : list NoteFile
}.

Record BatchData := {
  batchId : string;
  structure : list (string * Group)
}.

Record OpenAIEvaluationPrompt := {
  prompt_transcript : string;
  prompt_notes : string;
  prompt_noteFileName : string
}.

(** An [Evaluation] object; [results] refers to an object of the store. *)
Record Evaluation := {
  id : string;
  transcriptName : string;
  noteFileName : string;
  results : loc;
  timestamp : Z;
  noteContent : option string;
  transcriptContent : option string
}.

Definition set_results (r : loc) (e : Evaluation) : Evaluation :=
  {| id := id e; transcriptName := transcriptName e;
     noteFileName := noteFileName e; results := r;
     timestamp := timestamp e; noteContent := noteContent e;
     transcriptContent := transcriptContent e |}.

(** What [evaluateDentalNotes] does when awaited: it throws, or returns a
    record of the declared type.  The client checks no field ([Judge]): on a
    response that leaves a score out it returns a record that is not of the
    declared type, which this type does not hold.  What is stated on the
    orchestrator about the store therefore reads no score: it holds
    whatever the records hold. *)
Inductive JudgeOutcome :=
| Threw (message : string)
| Returned (r : EvaluationResults).

(** The world outside: the judge's outcome, the clock and the random
    suffix of the identifier at the n-th call of the judge. *)
Record Env := {
  judge : nat → OpenAIEvaluationPrompt → JudgeOutcome;
  clock : nat → Z;
  random : nat → string
}.

(** What can be observed of a run besides its result. *)
Inductive Event :=
| Judged (p : OpenAIEvaluationPrompt)
| Delayed (ms : Z).

Record World := {
  heap : Heap;
  calls : nat;
  trace : list Event
}.

Definition emit (e : Event) (w : World) : World :=
  {| heap := heap w; calls := calls w; trace := trace w ++ [e] |}.

(** [await evaluateDentalNotes(prompt)]: the record a successful call
    returns is a new object, with [overallRanking: 0]. *)
Definition evaluateDentalNotes (env : Env) (p : OpenAIEvaluationPrompt)
    (w : World) : (string + loc) * World :=
  let n := calls w in
  let w1 := {| heap := heap w; calls := S n; trace := trace w ++ [Judged p] |} in
  match judge env n p with
  | Threw message => (inl message, w1)
  | Returned r =>
      let '(l, h) := alloc (set_overallRanking 0 r) (heap w1) in
      (inr l, {| heap := h; calls := calls w1; trace := trace w1 |})
  end.

(** The state of a batch run: [allEvaluations] and the world. *)
Abbreviation Run := (list Evaluation * World)%type (only parsing).

(** The [try { ... } catch { continue }] around one note file, the same in
    the three paths but for the delay: the judge is called; when it
    returns, the evaluation is pushed and the run sleeps [delay] ms; when it
    throws, nothing is pushed and nothing is slept.  The flag tells
    whether the evaluation was pushed. *)
Definition attempt (env : Env) (delay : Z)
    (transcriptName transcriptContent : string) (noteFile : NoteFile)
    (st : Run) : bool * Run :=
  let '(allEvaluations, w) := st in
  let n := calls w in
  match evaluateDentalNotes env
          {| prompt_transcript := transcriptContent;
             prompt_notes := content noteFile;
             prompt_noteFileName := name noteFile |} w with
  | (inr l, w1) =>
      let evaluation :=
        {| id := "eval_" +:+ pretty (clock env n) +:+ "_" +:+ random env n;
           transcriptName := transcriptName;
           noteFileName := name noteFile;
           results := l;
           timestamp := clock env n;
           noteContent := Some (content noteFile);
           transcriptContent := Some transcriptContent |} in
      (true, (allEvaluations ++ [evaluation], emit (Delayed delay) w1))
  | (inl _, w1) => (false, (allEvaluations, w1))
  end.

(** *** Ranking within each transcript group (the same in the three paths) *)

(** [evaluationsByTranscript]: a [Map] keeps its keys in insertion order;
    its arrays hold the [Evaluation] objects of [allEvaluations], each
    named by its index there. *)
Definition evaluationsByTranscript (allEvaluations : list Evaluation)
    : list (string * list nat) :=
  JS.forEach (fun evaluation i m => JS.groupPush (transcriptName evaluation) i m)
    allEvaluations [].

(** [evaluation.results = rankedResults[index]]; the index is always in
    range, [rankedResults] being the array [results] itself. *)
Definition assignResults (rankedResults : list loc)
    (i : nat) (index : nat) (allEvaluations : list Evaluation) : list Evaluation :=
  match rankedResults !! index with
  | Some r => alter (set_results r) i allEvaluations
  | None => allEvaluations
  end.

Definition rankGroup (evaluations : list nat)
    (st : list Evaluation * Heap) : list Evaluation * Heap :=
  let '(allEvaluations, h) := st in
  let results := omap (fun i => results <$> allEvaluations !! i) evaluations in
  let '(h', rankedResults) := Ranker.rankEvaluations h results in
  (JS.forEach (assignResults rankedResults) evaluations allEvaluations, h').

Definition rankWithinGroups (st : Run) : Run :=
  let '(allEvaluations, w) := st in
  let '(ranked, h) :=
    foldl (fun st group => rankGroup (snd group) st) (allEvaluations, heap w)
      (evaluationsByTranscript allEvaluations) in
  (ranked, {| heap := h; calls := calls w; trace := trace w |}).

(** *** [evaluateBatchInMemory] *)

Definition inMemoryGroup (env : Env) (st : Run) (entry : string * Group) : Run :=
  let '(transcriptName, group) := entry in
  match transcript group with
  | None => st
  | Some transcriptContent =>
      foldl (fun st noteFile =>
               snd (attempt env 1000 transcriptName transcriptContent noteFile st))
        st (notes group)
  end.

Definition evaluateBatchInMemory (env : Env) (batchData : BatchData) (w : World) : Run :=
  rankWithinGroups (foldl (inMemoryGroup env) ([], w) (structure batchData)).

(** *** [evaluateBatchInChunks] *)

Record Task := {
  task_transcriptName : string;
  task_transcriptContent : string;
  task_noteFile : NoteFile
}.

Definition collectGroup (allTasks : list Task) (entry : string * Group) : list Task :=
  let '(transcriptName, group) := entry in
  match transcript group with
  | None => allTasks
  | Some transcriptContent =>
      foldl (fun allTasks noteFile =>
               allTasks ++ [{| task_transcriptName := transcriptName;
                               task_transcriptContent := transcriptContent;
                               task_noteFile := noteFile |}])
        allTasks (notes group)
  end.

Definition collectTasks (batchData : BatchData) : list Task :=
  foldl collectGroup [] (structure batchData).

Definition runTask (env : Env) (delay : Z) (st : Run) (task : Task) : Run :=
  snd (attempt env delay (task_transcriptName task) (task_transcriptContent task)
         (task_noteFile task) st).

(** [for (let i = 0; i < allTasks.length; i += chunkSize)]; the loop does
    not end when [chunkSize] is 0 and there is a task, which is [None]. *)
Fixpoint chunkLoop (fuel : nat) (env : Env) (chunkSize i : nat)
    (allTasks : list Task) (st : Run) : option Run :=
  match fuel with
  | O => None
  | S fuel' =>
      if decide (i < length allTasks)%nat then
        let chunk := JS.slice i (i + chunkSize) allTasks in
        chunkLoop fuel' env chunkSize (i + chunkSize) allTasks
          (foldl (runTask env 100) st chunk)
      else Some st
  end.

Definition evaluateBatchInChunks (env : Env) (batchData : BatchData)
    (chunkSize : nat) (w : World) : option Run :=
  let allTasks := collectTasks batchData in
  rankWithinGroups <$> chunkLoop (S (length allTasks)) env chunkSize 0 allTasks ([], w).

(** *** [evaluatePartialBatch] *)

Record PartialRun := {
  run : Run;
  filesProcessed : nat
}.

Fixpoint partialNotes (env : Env) (maxFiles : nat)
    (transcriptName transcriptContent : string) (noteFiles : list NoteFile)
    (st : PartialRun) : PartialRun :=
  match noteFiles with
  | [] => st
  | noteFile :: rest =>
      if decide (maxFiles ≤ filesProcessed st)%nat then st
      else
        let '(pushed, r) :=
          attempt env 100 transcriptName transcriptContent noteFile (run st) in
        partialNotes env maxFiles transcriptName transcriptContent rest
          {| run := r;
             filesProcessed := if pushed then S (filesProcessed st)
                               else filesProcessed st |}
  end.

Fixpoint partialGroups (env : Env) (maxFiles : nat)
    (entries : list (string * Group)) (st : PartialRun) : PartialRun :=
  match entries with
  | [] => st
  | (transcriptName, group) :: rest =>
      if decide (maxFiles ≤ filesProcessed st)%nat then st
      else
        match transcript group with
        | None => partialGroups env maxFiles rest st
        | Some transcriptContent =>
            partialGroups env maxFiles rest
              (partialNotes env maxFiles transcriptName transcriptContent
                 (notes group) st)
        end
  end.

Definition evaluatePartialBatch (env : Env) (batchData : BatchData)
    (maxFiles : nat) (w : World) : Run :=
  rankWithinGroups
    (run (partialGroups env maxFiles (structure batchData)
            {| run := ([], w); filesProcessed := 0 |})).

(** *** [POST], for a request with [batchId] and [batchData] *)

Inductive Response :=
| PartialResponse (success : bool) (evaluations : list Evaluation)
    (isPartial : bool) (totalFiles processedFiles : nat) (message : string)
| BatchResponse (success : bool) (evaluations : list Evaluation).

Definition totalFilesOf (batchData : BatchData) : nat :=
  foldl (fun sum entry => (sum + length (notes (snd entry)))%nat) 0%nat
    (structure batchData).

(** [None]: the handler does not return. *)
Definition POST (env : Env) (batchData : BatchData) (w : World)
    : option (Response * World) :=
  let totalFiles := totalFilesOf batchData in
  if decide (100 < totalFiles)%nat then
    let '(partialResults, w') := evaluatePartialBatch env batchData 50 w in
    Some (PartialResponse true partialResults true totalFiles (length partialResults)
            ("Processed first " +:+ pretty (length partialResults) +:+ " of "
             +:+ pretty totalFiles
             +:+ " files due to size limits. Use individual upload for complete analysis."),
          w')
  else if decide (5 < totalFiles)%nat then
    '(batchResults, w') ← evaluateBatchInChunks env batchData 5 w;
    Some (BatchResponse true batchResults, w')
  else
    let '(batchResults, w') := evaluateBatchInMemory env batchData w in
    Some (BatchResponse true batchResults, w').

(** The prompts sent to the judge, in order, and the delays slept. *)
Definition judged (t : list Event) : list OpenAIEvaluationPrompt :=
  omap (fun e => match e with Judged p => Some p | _ => None end) t.
Definition delays (t : list Event) : list Z :=
  omap (fun e => match e with Delayed ms => Some ms | _ => None end) t.

Definition promptOf (task : Task) : OpenAIEvaluationPrompt :=
  {| prompt_transcript := task_transcriptContent task;
     prompt_notes := content (task_noteFile task);
     prompt_noteFileName := name (task_noteFile task) |}.

Definition emptyWorld : World := {| heap := []; calls := 0; trace := [] |}.

End Orchestrator.

(** ** The cross-transcript summary ([components/BatchSummary.tsx])

    The statistics in exact rational arithmetic.  The component computes
    them in double precision; [Summary64] below does so too, and the two
    may differ in the last place of a rounded mean, in the difference of
    two means and in a variance.  The statements made on this module are
    those that do not turn on such a difference. *)

Module Summary.

(** An evaluation as the component receives it, the results inlined; the
    fields it reads. *)
Record Evaluation := {
  transcriptName : string;
  noteFileName : string;
  results : EvaluationResults
}.

Record NoteTypeStats := {
  filename : string;
  evaluations : list Evaluation;
  avgDetailScore : Q;
  avgTruthfulnessScore : Q;
  avgCompositeScore : Q;
  totalFalsehoods : nat;
  transcriptCount : nat
}.

Definition ofnat (n : nat) : Q := inject_Z (Z.of_nat n).

(** [xs.reduce((sum, x) => sum + f(x), 0)] *)
Definition sumOf {A} (f : A → Q) (xs : list A) : Q :=
  foldl (fun sum x => sum + f x)%Q 0%Q xs.

Definition detailOf (e : Evaluation) : Q := inject_Z (score (detailScore (results e))).
Definition truthfulnessOf (e : Evaluation) : Q :=
  inject_Z (score (truthfulnessScore (results e))).

(** The averages before rounding. *)
Definition meanDetail (evals : list Evaluation) : Q :=
  (sumOf detailOf evals / ofnat (length evals))%Q.
Definition meanTruthfulness (evals : list Evaluation) : Q :=
  (sumOf truthfulnessOf evals / ofnat (length evals))%Q.
Definition meanComposite (evals : list Evaluation) : Q :=
  ((meanDetail evals + meanTruthfulness evals) / 2)%Q.

(** [Math.round(x * 10) / 10] *)
Definition round1 (x : Q) : Q := (inject_Z (JS.round (x * 10)) / 10)%Q.

Definition stats (entry : string * list Evaluation) : NoteTypeStats :=
  let '(filename, evals) := entry in
  {| filename := filename;
     evaluations := evals;
     avgDetailScore := round1 (meanDetail evals);
     avgTruthfulnessScore := round1 (meanTruthfulness evals);
     avgCompositeScore := round1 (meanComposite evals);
     totalFalsehoods :=
       foldl (fun sum e => (sum + length (falsehoods (results e)))%nat) 0%nat evals;
     transcriptCount := length evals |}.

Definition noteTypeGroups (evaluations : list Evaluation)
    : list (string * list Evaluation) :=
  foldl (fun acc evaluation => JS.groupPush (noteFileName evaluation) evaluation acc)
    [] evaluations.

Definition noteTypeStats (evaluations : list Evaluation) : list NoteTypeStats :=
  stats <$> noteTypeGroups evaluations.

Definition byAvgComposite (a b : NoteTypeStats) : Q :=
  (avgCompositeScore b - avgCompositeScore a)%Q.
Definition byAvgDetail (a b : NoteTypeStats) : Q :=
  (avgDetailScore b - avgDetailScore a)%Q.
Definition byAvgTruthfulness (a b : NoteTypeStats) : Q :=
  (avgTruthfulnessScore b - avgTruthfulnessScore a)%Q.
Definition byTotalFalsehoods (a b : NoteTypeStats) : Q :=
  (ofnat (totalFalsehoods a) - ofnat (totalFalsehoods b))%Q.

(** [[...noteTypeStats].sort(...)], the value [rankedNoteTypes] is
    declared with. *)
Definition rankedNoteTypes (evaluations : list Evaluation) : list NoteTypeStats :=
  JS.sort byAvgComposite (noteTypeStats evaluations).

(** The consistency analysis of [generateCommentary]. *)
Record Consistency := {
  c_filename : string;
  variance : Q;
  scores : list Q
}.

Definition compositeOf (e : Evaluation) : Q := Ranker.composite (results e).

Definition average (scores : list Q) : Q :=
  (sumOf (fun score => score) scores / ofnat (length scores))%Q.

Definition varianceOf (scores : list Q) : Q :=
  let avg := average scores in
  (sumOf (fun score => (score - avg) ^ 2) scores / ofnat (length scores))%Q.

Definition consistency (noteType : NoteTypeStats) : Consistency :=
  let scores := compositeOf <$> evaluations noteType in
  {| c_filename := filename noteType;
     variance := varianceOf scores;
     scores := scores |}.

Record FalsehoodRate := {
  f_filename : string;
  avgFalsehoods : Q
}.

Definition falsehoodRate (nt : NoteTypeStats) : FalsehoodRate :=
  {| f_filename := filename nt;
     avgFalsehoods := (ofnat (totalFalsehoods nt) / ofnat (transcriptCount nt))%Q |}.

(** One constructor for each sentence of the commentary, with the values
    its template interpolates (numbers before [toFixed]). *)
Inductive Comment :=
| SignificantGap (best worst : string) (scoreDiff : Q)
| ModeratelyBetter (best : string) (scoreDiff : Q)
| QuiteConsistent (scoreDiff : Q)
| ClearWinner (best : string)
| DifferentStrengths (mostDetailed mostTruthful : string)
| ExceptionalConsistency (mostConsistent : string)
| SignificantVariation (leastConsistent : string)
| PerfectAccuracy (safest : string)
| RequiresAttention (riskiest : string) (avgFalsehoods : Q)
| AllHighQuality
| BelowThreshold (lowQuality : list string).

(** What [generateCommentary] leaves: the commentary, the two note types
    its consistency analysis picks, and [rankedNoteTypes] as it stands when
    the function returns. *)
Record Commentary := {
  comments : list Comment;
  mostConsistent : option Consistency;
  leastConsistent : option Consistency;
  arrayAfter : list NoteTypeStats
}.

(** [Array.prototype.sort] sorts the array in place and returns it, so each
    sort of [generateCommentary] leaves the closed-over [rankedNoteTypes]
    (or the local array) reordered for the steps after it.  [None] is the
    [TypeError] of reading a field of [undefined]. *)
Definition generateCommentary (rankedNoteTypes : list NoteTypeStats)
    : option Commentary :=
  if decide (length rankedNoteTypes = 0%nat) then
    Some {| comments := []; mostConsistent := None; leastConsistent := None;
            arrayAfter := rankedNoteTypes |}
  else
    best ← rankedNoteTypes !! 0%nat;
    worst ← rankedNoteTypes !! (length rankedNoteTypes - 1)%nat;
    let scoreDiff := (avgCompositeScore best - avgCompositeScore worst)%Q in
    let performance :=
      if JS.gt scoreDiff 2
      then [SignificantGap (filename best) (filename worst) scoreDiff]
      else if JS.gt scoreDiff 1 then [ModeratelyBetter (filename best) scoreDiff]
      else [QuiteConsistent scoreDiff] in
    let rankedNoteTypes := JS.sort byAvgDetail rankedNoteTypes in
    mostDetailed ← rankedNoteTypes !! 0%nat;
    let rankedNoteTypes := JS.sort byAvgTruthfulness rankedNoteTypes in
    mostTruthful ← rankedNoteTypes !! 0%nat;
    let strengths :=
      if bool_decide (filename mostDetailed = filename mostTruthful)
         && bool_decide (filename mostDetailed = filename best)
      then [ClearWinner (filename best)]
      else if negb (bool_decide (filename mostDetailed = filename mostTruthful))
      then [DifferentStrengths (filename mostDetailed) (filename mostTruthful)]
      else [] in
    let consistencyScores := consistency <$> rankedNoteTypes in
    let consistencyScores :=
      JS.sort (fun a b => variance a - variance b)%Q consistencyScores in
    mostConsistent ← consistencyScores !! 0%nat;
    let consistencyScores :=
      JS.sort (fun a b => variance b - variance a)%Q consistencyScores in
    leastConsistent ← consistencyScores !! 0%nat;
    let consistent :=
      if JS.lt (variance mostConsistent) (1 # 2)
      then [ExceptionalConsistency (c_filename mostConsistent)]
      else if JS.gt (variance leastConsistent) 2
      then [SignificantVariation (c_filename leastConsistent)]
      else [] in
    let totalFalsehoodsByType := falsehoodRate <$> rankedNoteTypes in
    let totalFalsehoodsByType :=
      JS.sort (fun a b => avgFalsehoods a - avgFalsehoods b)%Q totalFalsehoodsByType in
    safest ← totalFalsehoodsByType !! 0%nat;
    let totalFalsehoodsByType :=
      JS.sort (fun a b => avgFalsehoods b - avgFalsehoods a)%Q totalFalsehoodsByType in
    riskiest ← totalFalsehoodsByType !! 0%nat;
    let issues :=
      if JS.eq (avgFalsehoods safest) 0 then [PerfectAccuracy (f_filename safest)]
      else if JS.ge (avgFalsehoods riskiest) 2
      then [RequiresAttention (f_filename riskiest) (avgFalsehoods riskiest)]
      else [] in
    let highQuality :=
      filter (fun nt => JS.ge (avgCompositeScore nt) 8 = true) rankedNoteTypes in
    let lowQuality :=
      filter (fun nt => JS.lt (avgCompositeScore nt) 6 = true) rankedNoteTypes in
    let quality :=
      if decide (length highQuality = length rankedNoteTypes) then [AllHighQuality]
      else if decide (0 < length lowQuality)%nat
      then [BelowThreshold (filename <$> lowQuality)]
      else [] in
    Some {| comments := performance ++ strengths ++ consistent ++ issues ++ quality;
            mostConsistent := Some mostConsistent;
            leastConsistent := Some leastConsistent;
            arrayAfter := rankedNoteTypes |}.

(** What the component shows: the "Note Type Performance Rankings" in
    the order of the list, the commentary, and the quick stats. *)
Record View := {
  rankings : list NoteTypeStats;
  commentary : list Comment;
  bestOverall : option string;
  viewMostDetailed : option string;
  viewMostTruthful : option string;
  fewestIssues : option string
}.

Inductive Rendered :=
| Nothing                (* [return null] *)
| Shows (v : View)
| Throws.

(** The component: [generateCommentary()] runs before the JSX is built,
    and the JSX reads [rankedNoteTypes] as the commentary left it. *)
Definition BatchSummary (evaluations : list Evaluation) : Rendered :=
  if decide (length evaluations = 0%nat) then Nothing
  else
    match generateCommentary (rankedNoteTypes evaluations) with
    | None => Throws
    | Some c =>
        let ranked := arrayAfter c in
        let byDetail := JS.sort byAvgDetail ranked in
        let byTruthfulness := JS.sort byAvgTruthfulness byDetail in
        let byFalsehoods := JS.sort byTotalFalsehoods byTruthfulness in
        Shows {| rankings := ranked;
                 commentary := comments c;
                 bestOverall := filename <$> ranked !! 0%nat;
                 viewMostDetailed := filename <$> byDetail !! 0%nat;
                 viewMostTruthful := filename <$> byTruthfulness !! 0%nat;
                 fewestIssues := filename <$> byFalsehoods !! 0%nat |}
    end.

Definition mkEvaluation (t n : string) (d a : Z) : Evaluation :=
  {| transcriptName := t; noteFileName := n; results := mkResults d a |}.

End Summary.

(** ** Notions for the statements on the summary *)

(** The names of a list in the order of their first occurrence. *)
Definition firstSeen (names : list string) : list string :=
  foldl (fun seen x => if decide (x ∈ seen) then seen else seen ++ [x]) [] names.

(** The scenario of two transcripts and two note types, each transcript
    holding the note types in the order the flags say. *)
Definition scenario (gptFirst1 gptFirst2 : bool) (d1 t1 d2 t2 d3 t3 d4 t4 : Z)
    : list Summary.Evaluation :=
  let order (gptFirst : bool) (x y : Summary.Evaluation) :=
    if gptFirst then [x; y] else [y; x] in
  order gptFirst1 (Summary.mkEvaluation "transcript1" "notes-gpt4o" d1 t1)
                  (Summary.mkEvaluation "transcript1" "notes-claude" d3 t3)
  ++ order gptFirst2 (Summary.mkEvaluation "transcript2" "notes-gpt4o" d2 t2)
                     (Summary.mkEvaluation "transcript2" "notes-claude" d4 t4).

(** ** A run in closed form *)

Module Runs.
Import Orchestrator.

(** The tasks of one entry of the structure: none without a transcript. *)
Definition tasksOf (entry : string * Group) : list Task :=
  match transcript entry.2 with
  | None => []
  | Some transcriptContent =>
      (fun noteFile => {| task_transcriptName := entry.1;
                          task_transcriptContent := transcriptContent;
                          task_noteFile := noteFile |}) <$> notes entry.2
  end.

(** The evaluation pushed when call [n] of the judge, made for [task],
    returns the record stored at [l]. *)
Definition evaluationOf (env : Env) (n : nat) (task : Task) (l : nat) : Evaluation :=
  {| id := "eval_" +:+ pretty (clock env n) +:+ "_" +:+ random env n;
     transcriptName := task_transcriptName task;
     noteFileName := name (task_noteFile task);
     results := l;
     timestamp := clock env n;
     noteContent := Some (content (task_noteFile task));
     transcriptContent := Some (task_transcriptContent task) |}.

(** What running [tasks] adds to [allEvaluations], to the store and to the
    trace, when the first call is call [n] and the store has [hl] records. *)
Fixpoint newEvaluations (env : Env) (n hl : nat) (tasks : list Task) : list Evaluation :=
  match tasks with
  | [] => []
  | task :: rest =>
      match judge env n (promptOf task) with
      | Threw _ => newEvaluations env (S n) hl rest
      | Returned _ => evaluationOf env n task hl :: newEvaluations env (S n) (S hl) rest
      end
  end.

Fixpoint newRecords (env : Env) (n : nat) (tasks : list Task) : list EvaluationResults :=
  match tasks with
  | [] => []
  | task :: rest =>
      match judge env n (promptOf task) with
      | Threw _ => newRecords env (S n) rest
      | Returned r => set_overallRanking 0 r :: newRecords env (S n) rest
      end
  end.

Fixpoint newTrace (env : Env) (delay : Z) (n : nat) (tasks : list Task) : list Event :=
  match tasks with
  | [] => []
  | task :: rest =>
      match judge env n (promptOf task) with
      | Threw _ => Judged (promptOf task) :: newTrace env delay (S n) rest
      | Returned _ =>
          Judged (promptOf task) :: Delayed delay :: newTrace env delay (S n) rest
      end
  end.

(** The tasks that succeed, in order. *)
Fixpoint succeeded (env : Env) (n : nat) (tasks : list Task) : list Task :=
  match tasks with
  | [] => []
  | task :: rest =>
      match judge env n (promptOf task) with
      | Threw _ => succeeded env (S n) rest
      | Returned _ => task :: succeeded env (S n) rest
      end
  end.

(** The task an evaluation was made for. *)
Definition taskOf (e : Evaluation) : option Task :=
  transcriptContent ← transcriptContent e;
  noteContent ← noteContent e;
  Some {| task_transcriptName := transcriptName e;
          task_transcriptContent := transcriptContent;
          task_noteFile := {| name := noteFileName e; content := noteContent |} |}.

(** A run over a list of tasks that stops once [maxFiles] evaluations have
    been pushed. *)
Definition cappedStep (env : Env) (task : Task) (st : PartialRun) : PartialRun :=
  let '(pushed, r) :=
    attempt env 100 (task_transcriptName task) (task_transcriptContent task)
      (task_noteFile task) (run st) in
  {| run := r;
     filesProcessed := if pushed then S (filesProcessed st) else filesProcessed st |}.

Fixpoint cappedRun (env : Env) (maxFiles : nat) (tasks : list Task)
    (st : PartialRun) : PartialRun :=
  match tasks with
  | [] => st
  | task :: rest =>
      if decide (maxFiles ≤ filesProcessed st)%nat then st
      else cappedRun env maxFiles rest (cappedStep env task st)
  end.

(** How many of [tasks] such a run attempts, [fp] evaluations having been
    pushed before and the next call being call [n]. *)
Fixpoint attempted (env : Env) (maxFiles n fp : nat) (tasks : list Task) : nat :=
  match tasks with
  | [] => 0
  | task :: rest =>
      if decide (maxFiles ≤ fp)%nat then 0%nat
      else
        match judge env n (promptOf task) with
        | Threw _ => S (attempted env maxFiles (S n) fp rest)
        | Returned _ => S (attempted env maxFiles (S n) (S fp) rest)
        end
  end.

End Runs.

(** ** Notions for the statements on the orchestrator *)

(** The array kept under a key, empty when the key is absent. *)
Fixpoint lookupGroup {V} (g : string) (m : list (string * list V)) : list V :=
  match m with
  | [] => []
  | (k, members) :: m' => if decide (k = g) then members else lookupGroup g m'
  end.

(** The positions, counted from [i], of the evaluations of transcript [g]. *)
Fixpoint indicesFrom (i : nat) (g : string) (l : list Orchestrator.Evaluation) : list nat :=
  match l with
  | [] => []
  | e :: l' =>
      if decide (Orchestrator.transcriptName e = g) then i :: indicesFrom (S i) g l'
      else indicesFrom (S i) g l'
  end.

(** The result records of the evaluations of transcript [g], in order. *)
Definition locsOf (g : string) (l : list Orchestrator.Evaluation) : list nat :=
  Orchestrator.results <$> filter (fun e => Orchestrator.transcriptName e = g) l.

(** The store after ranking the transcripts [gs] one after the other. *)
Definition rankAll (all : list Orchestrator.Evaluation)
    (h : list EvaluationResults) (gs : list string) : list EvaluationResults :=
  foldl (fun h g => (Ranker.rankEvaluations h (locsOf g all)).1) h gs.

(** ** Stores that differ by rankings

    Two records that differ at most in [overallRanking]. *)
Definition sameButRanking (e e' : EvaluationResults) : Prop :=
  detailScore e' = detailScore e
  ∧ truthfulnessScore e' = truthfulnessScore e
  ∧ falsehoods e' = falsehoods e
  ∧ summary e' = summary e.

(** A store [h'] that writes of rankings into the records of [evaluations]
    can make of [h]. *)
Definition rewritten (evaluations : list nat) (h h' : list EvaluationResults) : Prop :=
  length h' = length h
  ∧ (∀ l, l ∉ evaluations → h' !! l = h !! l)
  ∧ (∀ l e, h !! l = Some e → ∃ e', h' !! l = Some e' ∧ sameButRanking e e').

(** ** Order of a sorted array

    [a] stands before [b] when its key is larger, or the keys are equal and
    [a] stood before [b] in the array that was sorted. *)
Definition lexlt {A} (rk : A → Q) (tag : A → nat) (a b : A) : Prop :=
  (rk b < rk a)%Q ∨ (rk a == rk b ∧ (tag a < tag b)%nat).

(** ** Sample inputs *)

Definition sampleEnv : Orchestrator.Env :=
  {| Orchestrator.judge := fun n p =>
       if decide (n = 1%nat) then Orchestrator.Threw "quota"
       else Orchestrator.Returned (mkResults (Z.of_nat n) 5);
     Orchestrator.clock := fun n => Z.of_nat n;
     Orchestrator.random := fun _ => "r" |}.

Definition sampleEnvFirstFails : Orchestrator.Env :=
  {| Orchestrator.judge := fun n p =>
       if decide (n = 0%nat) then Orchestrator.Threw "quota"
       else Orchestrator.Returned (mkResults 5 5);
     Orchestrator.clock := fun n => Z.of_nat n;
     Orchestrator.random := fun _ => "r" |}.

Definition sampleEnvAllSucceed : Orchestrator.Env :=
  {| Orchestrator.judge := fun n p => Orchestrator.Returned (mkResults 5 5);
     Orchestrator.clock := fun n => Z.of_nat n;
     Orchestrator.random := fun _ => "r" |}.

Definition sampleNotes (k : nat) : list Orchestrator.NoteFile :=
  (fun i => {| Orchestrator.name := pretty i; Orchestrator.content := "c" |}) <$> seq 0 k.

Definition sampleBatch : Orchestrator.BatchData :=
  {| Orchestrator.batchId := "b";
     Orchestrator.structure :=
       [("t1", {| Orchestrator.transcript := Some "T1";
                  Orchestrator.notes := sampleNotes 3 |});
        ("t0", {| Orchestrator.transcript := None;
                  Orchestrator.notes := sampleNotes 3 |});
        ("t2", {| Orchestrator.transcript := Some "T2";
                  Orchestrator.notes := sampleNotes 4 |})] |}.

Definition sampleBatchWithoutTranscript : Orchestrator.BatchData :=
  {| Orchestrator.batchId := "b";
     Orchestrator.structure :=
       [("t1", {| Orchestrator.transcript := Some "T1";
                  Orchestrator.notes := sampleNotes 3 |});
        ("t0", {| Orchestrator.transcript := None;
                  Orchestrator.notes := sampleNotes 3 |})] |}.

Definition sampleBigBatch : Orchestrator.BatchData :=
  {| Orchestrator.batchId := "big";
     Orchestrator.structure :=
       [("t1", {| Orchestrator.transcript := Some "T1";
                  Orchestrator.notes := sampleNotes 101 |})] |}.

(** A response that names none of the score fields: the text
    [{"falsehoods":[]}] and the value it parses to. *)
Definition quote : string := String (Ascii.ascii_of_nat 34) EmptyString.

Definition sampleOffSchemaText : string :=
  "{" +:+ quote +:+ "falsehoods" +:+ quote +:+ ":[]}".

Definition sampleOffSchemaValue : Judge.jsval :=
  Judge.VObject [("falsehoods", Judge.VArray [])].

Definition sampleParse (text : string) : string + Judge.jsval :=
  if decide (text = sampleOffSchemaText) then inr sampleOffSchemaValue
  else inl "Unexpected token".

(** ** Notions for the statements on the responses *)

(** The [evaluations] field of the body of a response. *)
Definition evaluationsOf (r : Orchestrator.Response) : list Orchestrator.Evaluation :=
  match r with
  | Orchestrator.PartialResponse _ evaluations _ _ _ _ => evaluations
  | Orchestrator.BatchResponse _ evaluations => evaluations
  end.

(** A judge that fails at every call. *)
Definition sampleEnvAllFail : Orchestrator.Env :=
  {| Orchestrator.judge := fun n p => Orchestrator.Threw "quota";
     Orchestrator.clock := fun n => Z.of_nat n;
     Orchestrator.random := fun _ => "r" |}.

(** ** [batchEvaluateNotes] (openai.ts) *)

Module Batch.
Import Orchestrator.

(** An element of [noteFiles]. *)
Record NoteFile := { filename : string; content : string }.

(** The body of the loop: the [try { ... } catch { }] around one note
    file.  [evaluations] holds the records themselves, that is their
    addresses. *)
Definition evaluateNote (env : Env) (transcript : string)
    (st : list loc * World) (noteFile : NoteFile) : list loc * World :=
  let '(evaluations, w) := st in
  match evaluateDentalNotes env
          {| prompt_transcript := transcript;
             prompt_notes := content noteFile;
             prompt_noteFileName := filename noteFile |} w with
  | (inr evaluation, w1) => (evaluations ++ [evaluation], emit (Delayed 1000) w1)
  | (inl _, w1) => (evaluations, w1)
  end.

(** [transcriptName] is not read by the function. *)
Definition batchEvaluateNotes (env : Env) (transcript transcriptName : string)
    (noteFiles : list NoteFile) (w : World) : list loc * World :=
  let '(evaluations, w1) := foldl (evaluateNote env transcript) ([], w) noteFiles in
  let '(h, ranked) := Ranker.rankEvaluations (heap w1) evaluations in
  (ranked, {| heap := h; calls := calls w1; trace := trace w1 |}).

(** The same note files as an entry of a batch structure. *)
Definition entryOf (transcript transcriptName : string) (noteFiles : list NoteFile)
    : string * Group :=
  (transcriptName,
   {| Orchestrator.transcript := Some transcript;
      notes := (fun noteFile => {| name := filename noteFile;
                                   Orchestrator.content := content noteFile |})
               <$> noteFiles |}).

End Batch.

(** Evaluations of two note types over three transcripts. *)
Definition sampleEvaluations : list Summary.Evaluation :=
  [Summary.mkEvaluation "transcript1" "notes-gpt4o" 8 8;
   Summary.mkEvaluation "transcript2" "notes-gpt4o" 8 9;
   Summary.mkEvaluation "transcript1" "notes-claude" 8 9;
   Summary.mkEvaluation "transcript2" "notes-claude" 8 9;
   Summary.mkEvaluation "transcript3" "notes-claude" 8 8].

(** ** The results page ([components/ResultsDisplay.tsx]) *)

Module Display.
Import Summary.

(** [(a, b) => a.results.overallRanking - b.results.overallRanking] *)
Definition byOverallRanking (a b : Evaluation) : Q :=
  (inject_Z (overallRanking (results a)) - inject_Z (overallRanking (results b)))%Q.

(** [[...evaluations].sort(...)]: a copy is sorted, the prop is not. *)
Definition sortedEvaluations (evaluations : list Evaluation) : list Evaluation :=
  JS.sort byOverallRanking evaluations.

(** [[...new Set(evaluations.map(e => e.transcriptName))]]: a [Set] holds
    each value once, in the order of the first insertions. *)
Definition uniqueTranscripts (evaluations : list Evaluation) : list string :=
  firstSeen (transcriptName <$> evaluations).

Definition isBatchUpload (evaluations : list Evaluation) : bool :=
  bool_decide (1 < length (uniqueTranscripts evaluations))%nat.

(** [Math.round(evaluations.reduce(...) / evaluations.length)] *)
Definition roundedMean (f : Evaluation → Q) (evaluations : list Evaluation) : Z :=
  JS.round (sumOf f evaluations / ofnat (length evaluations)).

(** What the page shows: the three summary statistics, the rankings
    overview in the order of [sortedEvaluations] with the badge [index + 1]
    of each entry, the cross-transcript analysis when the upload is a
    batch, and the detailed cards. *)
Record Page := {
  notesEvaluated : nat;
  avgDetail : Z;
  avgTruthfulness : Z;
  performanceRankings : list (nat * Evaluation);
  crossTranscriptAnalysis : option Rendered;
  detailedEvaluations : list Evaluation
}.

Inductive Output :=
| NoEvaluations          (* "No evaluations available yet." *)
| Results (p : Page).

Definition ResultsDisplay (evaluations : list Evaluation) : Output :=
  if decide (length evaluations = 0%nat) then NoEvaluations
  else
    let sortedEvaluations := sortedEvaluations evaluations in
    Results
      {| notesEvaluated := length evaluations;
         avgDetail := roundedMean detailOf evaluations;
         avgTruthfulness := roundedMean truthfulnessOf evaluations;
         performanceRankings :=
           imap (fun index evaluation => (index + 1, evaluation)%nat) sortedEvaluations;
         crossTranscriptAnalysis :=
           if isBatchUpload evaluations then Some (BatchSummary evaluations) else None;
         detailedEvaluations := sortedEvaluations |}.

End Display.


(** ** Notions and sample inputs for the judge client *)

Definition underscore : Ascii.ascii := Ascii.ascii_of_nat 95.

(** No character of the string is [c]. *)
Fixpoint free_of (c : Ascii.ascii) (s : string) : Prop :=
  match s with
  | EmptyString => True
  | String c' s' => c' ≠ c ∧ free_of c s'
  end.

(** A response that matches the schema, with two falsehoods: the value and
    a text that parses to it. *)
Definition sampleConformingValue : Judge.jsval :=
  Judge.VObject
    [("detailScore", Judge.VNumber 8);
     ("detailExplanation", Judge.VString "thorough");
     ("detailExamples", Judge.VArray [Judge.VString "probing depths"]);
     ("truthfulnessScore", Judge.VNumber 6);
     ("truthfulnessExplanation", Judge.VString "two errors");
     ("truthfulnessExamples", Judge.VArray []);
     ("falsehoods",
      Judge.VArray
        [Judge.VObject [("description", Judge.VString "wrong tooth");
                        ("severity", Judge.VString "high");
                        ("location", Judge.VString "line 2");
                        ("correction", Judge.VString "tooth 14")];
         Judge.VObject [("description", Judge.VString "added allergy");
                        ("severity", Judge.VString "low");
                        ("location", Judge.VString "line 5");
                        ("correction", Judge.VString "none reported")]]);
     ("summary", Judge.VString "usable")].

Definition sampleConformingText : string :=
  "{" +:+ quote +:+ "detailScore" +:+ quote +:+ ":8, ...}".

Definition sampleConformingParse (text : string) : string + Judge.jsval :=
  if decide (text = sampleConformingText) then inr sampleConformingValue
  else inl "Unexpected token".

(** ** Evaluation of stored sessions and batches ([GET], route.ts) *)

Module Retrieval.
Import Orchestrator.

(** What the handler takes from its host: the directory of the uploads
    and [path.join]; the file system, each read giving its value or the
    message of the error it throws, and taken not to change while a request
    is served; [String.prototype.toLowerCase]; the property names an empty
    object literal inherits, and the order in which an object enumerates
    keys that were inserted in a given order. *)
Record Host := {
  UPLOAD_DIR : string;
  join : string → string → string;
  readdir : string → string + list string;
  isDirectory : string → string + bool;       (* [(await stat(path)).isDirectory()] *)
  readFile : string → string + string;
  toLowerCase : string → string;
  inherited : string → bool;
  objectKeys : list string → list string
}.

(** [s.includes(sub)] and [s.endsWith(suffix)] *)
Fixpoint includes (s sub : string) : bool :=
  String.prefix sub s
  || match s with
     | EmptyString => false
     | String _ s' => includes s' sub
     end.

Definition endsWith (s suffix : string) : bool :=
  bool_decide (String.length suffix ≤ String.length s)%nat
  && bool_decide (String.substring (String.length s - String.length suffix)
                    (String.length suffix) s = suffix).

Section Handlers.
Variable host : Host.
Variable env : Env.

(** [file.toLowerCase().includes('transcript')] *)
Definition namesTranscript (file : string) : bool :=
  includes (toLowerCase host file) "transcript".

(** The loop returns at the first file that names a transcript. *)
Definition findTranscriptFile (sessionDir : string) : string + string :=
  match readdir host sessionDir with
  | inl message => inl message
  | inr files =>
      match List.find namesTranscript files with
      | Some file => inr (join host sessionDir file)
      | None => inl "No transcript file found"
      end
  end.

Record NoteRef := { ref_name : string; ref_path : string }.

Definition findNoteFiles (sessionDir : string) : string + list NoteRef :=
  match readdir host sessionDir with
  | inl message => inl message
  | inr files =>
      inr ((fun file => {| ref_name := file; ref_path := join host sessionDir file |})
           <$> filter (fun file => endsWith file ".txt" || endsWith file ".md" = true)
                 (filter (fun file => negb (namesTranscript file) = true) files))
  end.

(** The loop over the note files, the same in [evaluateSession] and in
    [evaluateBatch]: the note is read and judged, the evaluation is pushed
    and the run sleeps 1000 ms.  The first read or call that throws ends
    the loop; the evaluations pushed so far stay in the array. *)
Fixpoint evaluateNotes (transcriptName transcriptContent : string)
    (noteFiles : list NoteRef) (st : Run) : option string * Run :=
  match noteFiles with
  | [] => (None, st)
  | noteFile :: rest =>
      let '(evaluations, w) := st in
      match readFile host (ref_path noteFile) with
      | inl message => (Some message, st)
      | inr noteContent =>
          let n := calls w in
          match evaluateDentalNotes env
                  {| prompt_transcript := transcriptContent;
                     prompt_notes := noteContent;
                     prompt_noteFileName := ref_name noteFile |} w with
          | (inl message, w1) => (Some message, (evaluations, w1))
          | (inr results, w1) =>
              evaluateNotes transcriptName transcriptContent rest
                (evaluations
                 ++ [{| id := "eval_" +:+ pretty (clock env n) +:+ "_" +:+ random env n;
                        transcriptName := transcriptName;
                        noteFileName := ref_name noteFile;
                        results := results;
                        timestamp := clock env n;
                        noteContent := None;
                        transcriptContent := None |}],
                 emit (Delayed 1000) w1)
          end
      end
  end.

(** The body of the [try] for one directory: the transcript is found and
    read, the note files are listed, and the loop runs. *)
Definition evaluateDirectory (dir transcriptName : string) (st : Run)
    : option string * Run :=
  match findTranscriptFile dir with
  | inl message => (Some message, st)
  | inr transcriptPath =>
      match readFile host transcriptPath with
      | inl message => (Some message, st)
      | inr transcriptContent =>
          match findNoteFiles dir with
          | inl message => (Some message, st)
          | inr noteFiles => evaluateNotes transcriptName transcriptContent noteFiles st
          end
      end
  end.

Inductive Response :=
| SessionResponse (success : bool) (sessionId : string) (evaluations : list Evaluation)
| BatchResponse (success : bool) (batchId : string) (evaluations : list Evaluation)
    (transcriptCount totalEvaluations : nat)
| ErrorResponse (status : nat) (error : string).

(** [evaluateSession]: the evaluations are not ranked; any failure gives
    the response of the [catch], whatever was evaluated before it. *)
Definition evaluateSession (sessionId : string) (w : World) : Response * World :=
  let sessionDir := join host (UPLOAD_DIR host) sessionId in
  match evaluateDirectory sessionDir sessionId ([], w) with
  | (Some _, (_, w')) => (ErrorResponse 500 "Failed to evaluate session", w')
  | (None, (evaluations, w')) => (SessionResponse true sessionId evaluations, w')
  end.

(** [transcriptDirs]: the entries of the batch directory that are
    directories; a [stat] that throws ends the request. *)
Fixpoint directoriesOf (batchDir : string) (entries : list string)
    : string + list string :=
  match entries with
  | [] => inr []
  | entry :: rest =>
      match isDirectory host (join host batchDir entry) with
      | inl message => inl message
      | inr isDir =>
          match directoriesOf batchDir rest with
          | inl message => inl message
          | inr dirs => inr (if isDir then entry :: dirs else dirs)
          end
      end
  end.

(** One turn of the loop over [transcriptDirs]: the [catch] logs the
    failure and the loop goes on with the next directory. *)
Definition evaluateTranscriptDir (batchDir : string) (st : Run) (transcriptDir : string)
    : Run :=
  snd (evaluateDirectory (join host batchDir transcriptDir) transcriptDir st).

(** [evaluationsByTranscript] is a plain object here, and its arrays hold
    the records themselves.  Reading a name that an empty object inherits
    gives the inherited value, which is truthy and has no [push]: the
    [TypeError] ends the request, which is [None]. *)
Definition groupByTranscript (allEvaluations : list Evaluation)
    : option (list (string * list loc)) :=
  if existsb (inherited host) (transcriptName <$> allEvaluations) then None
  else
    Some (foldl (fun acc evaluation =>
                   JS.groupPush (transcriptName evaluation) (results evaluation) acc)
            [] allEvaluations).

(** [evaluationsForTranscript[index].results = result]; the objects of
    [evaluationsForTranscript] are those of [allEvaluations], named by
    their positions there.  [None]: the [TypeError] of an index out of
    range. *)
Definition assignRanked (evaluationsForTranscript : list nat)
    (result : loc) (index : nat) (allEvaluations : option (list Evaluation))
    : option (list Evaluation) :=
  all ← allEvaluations;
  i ← evaluationsForTranscript !! index;
  Some (alter (set_results result) i all).

(** The callback of [Object.keys(evaluationsByTranscript).forEach]; on
    the left the store as a [TypeError] leaves it. *)
Definition rankDirectory (groups : list (string * list loc))
    (st : Heap + list Evaluation * Heap) (transcriptName : string)
    : Heap + list Evaluation * Heap :=
  match st with
  | inl h => inl h
  | inr (allEvaluations, h) =>
      let '(h', rankedResults) :=
        Ranker.rankEvaluations h (lookupGroup transcriptName groups) in
      let evaluationsForTranscript := indicesFrom 0 transcriptName allEvaluations in
      match JS.forEach (assignRanked evaluationsForTranscript) rankedResults
              (Some allEvaluations) with
      | Some ranked => inr (ranked, h')
      | None => inl h'
      end
  end.

(** The ranking pass; on the left the world as a [TypeError] leaves it. *)
Definition rankByDirectory (st : Run) : World + Run :=
  let '(allEvaluations, w) := st in
  match groupByTranscript allEvaluations with
  | None => inl w
  | Some groups =>
      match foldl (rankDirectory groups) (inr (allEvaluations, heap w))
              (objectKeys host groups.*1) with
      | inl h => inl {| heap := h; calls := calls w; trace := trace w |}
      | inr (ranked, h) =>
          inr (ranked, {| heap := h; calls := calls w; trace := trace w |})
      end
  end.

(** [evaluateBatch]; the field [completedAt] of the summary, the time of
    the answer, is left out. *)
Definition evaluateBatch (batchId : string) (w : World) : Response * World :=
  let failed := ErrorResponse 500 "Failed to evaluate batch" in
  let batchDir := join host (UPLOAD_DIR host) batchId in
  match readdir host batchDir with
  | inl _ => (failed, w)
  | inr entries =>
      match directoriesOf batchDir entries with
      | inl _ => (failed, w)
      | inr transcriptDirs =>
          let st := foldl (evaluateTranscriptDir batchDir) ([], w) transcriptDirs in
          match rankByDirectory st with
          | inl w' => (failed, w')
          | inr (allEvaluations, w') =>
              (BatchResponse true batchId allEvaluations (length transcriptDirs)
                 (length allEvaluations), w')
          end
      end
  end.

(** The value of [searchParams.get] when it is truthy: [null] and the
    empty string are not. *)
Definition truthy (value : option string) : option string :=
  match value with
  | Some s => if decide (s = EmptyString) then None else Some s
  | None => None
  end.

Definition GET (sessionId batchId : option string) (w : World) : Response * World :=
  match truthy sessionId, truthy batchId with
  | None, None => (ErrorResponse 400 "Either sessionId or batchId is required", w)
  | Some sessionId, _ => evaluateSession sessionId w
  | None, Some batchId => evaluateBatch batchId w
  end.

End Handlers.

End Retrieval.

(** A host with one stored session and one stored batch of two transcript
    directories; the names are in lower case already. *)
Definition sampleHost : Retrieval.Host :=
  {| Retrieval.UPLOAD_DIR := "uploads";
     Retrieval.join := fun a b => a +:+ "/" +:+ b;
     Retrieval.readdir := fun path =>
       if decide (path = "uploads/session1")
       then inr ["transcript.txt"; "notes-a.txt"; "notes-b.md"; "scan.png"]
       else if decide (path = "uploads/batch1") then inr ["t1"; "t2"; "readme.txt"]
       else if decide (path = "uploads/batch1/t1")
       then inr ["transcript.txt"; "notes-a.txt"; "notes-b.txt"]
       else if decide (path = "uploads/batch1/t2")
       then inr ["transcript.md"; "notes-a.txt"]
       else inl "ENOENT";
     Retrieval.isDirectory := fun path =>
       inr (bool_decide (path ∈ ["uploads/batch1/t1"; "uploads/batch1/t2"]));
     Retrieval.readFile := fun path => inr ("content of " +:+ path);
     Retrieval.toLowerCase := fun s => s;
     Retrieval.inherited := fun s =>
       bool_decide (s ∈ ["constructor"; "toString"; "valueOf"; "hasOwnProperty";
                         "__proto__"]);
     Retrieval.objectKeys := fun keys => keys |}.

(** ** Numbers in double precision

    The averages of the summary are JavaScript numbers, IEEE 754 binary64
    values.  A finite number is modelled by the rational it denotes.  An
    arithmetic operation is the exact operation followed by [fl], the
    rounding to the nearest number with a significand of 53 bits, a half
    going to the even significand; comparisons are exact.  The range of
    the exponent is not modelled: on scores of the rubric no operation of
    the summary overflows or loses bits to underflow.  Integers below 2^53,
    the lengths of arrays among them, are numbers as they stand. *)

Module Float64.

(** The nearest integer, a half going to the even one. *)
Definition nearest_even (x : Q) : Z :=
  let f := Qfloor x in
  match (x - inject_Z f ?= 1 # 2)%Q with
  | Lt => f
  | Gt => f + 1
  | Eq => if Z.even f then f else f + 1
  end.

(** The exponent of the leading bit: [2 ^ e <= |x| < 2 ^ (e + 1)]. *)
Definition exponent (x : Q) : Z :=
  let e := Z.log2 (Z.abs (Qnum x)) - Z.log2 (Zpos (Qden x)) in
  if Qle_bool (2 ^ e) (Qabs x) then e else e - 1.

Definition fl (x : Q) : Q :=
  if Qeq_bool x 0 then 0%Q
  else
    let ulp := (2 ^ (exponent x - 52))%Q in
    Qred (inject_Z (nearest_even (x / ulp)) * ulp).

(** [x + y], [x - y], [x * y], [x / y] *)
Definition add (x y : Q) : Q := fl (x + y).
Definition sub (x y : Q) : Q := fl (x - y).
Definition mul (x y : Q) : Q := fl (x * y).
Definition div (x y : Q) : Q := fl (x / y).

(** The number an integer of a JSON text is read as. *)
Definition ofZ (z : Z) : Q := fl (inject_Z z).

End Float64.

(** ** The cross-transcript summary in double precision

    The statistics and the commentary of [BatchSummary.tsx] once more, with
    the arithmetic the browser does: every sum, difference and quotient is
    rounded as [Float64] says.  Module [Summary] above computes them in
    exact rationals.  The records are those of [Summary]; what involves no
    arithmetic ([noteTypeGroups], the counts) is taken from there. *)

Module Summary64.
Import Summary.

(** [xs.reduce((sum, x) => sum + f(x), 0)] *)
Definition sumOf {A} (f : A → Q) (xs : list A) : Q :=
  foldl (fun sum x => Float64.add sum (f x)) 0%Q xs.

Definition detailOf (e : Evaluation) : Q :=
  Float64.ofZ (score (detailScore (results e))).
Definition truthfulnessOf (e : Evaluation) : Q :=
  Float64.ofZ (score (truthfulnessScore (results e))).

(** [avgDetailScore], [avgTruthfulnessScore] and [avgCompositeScore], the
    local constants before rounding. *)
Definition meanDetail (evals : list Evaluation) : Q :=
  Float64.div (sumOf detailOf evals) (ofnat (length evals)).
Definition meanTruthfulness (evals : list Evaluation) : Q :=
  Float64.div (sumOf truthfulnessOf evals) (ofnat (length evals)).
Definition meanComposite (evals : list Evaluation) : Q :=
  Float64.div (Float64.add (meanDetail evals) (meanTruthfulness evals)) 2.

(** [Math.round(x * 10) / 10] *)
Definition round1 (x : Q) : Q :=
  Float64.div (inject_Z (JS.round (Float64.mul x 10))) 10.

Definition stats (entry : string * list Evaluation) : NoteTypeStats :=
  let '(filename, evals) := entry in
  {| filename := filename;
     evaluations := evals;
     avgDetailScore := round1 (meanDetail evals);
     avgTruthfulnessScore := round1 (meanTruthfulness evals);
     avgCompositeScore := round1 (meanComposite evals);
     totalFalsehoods :=
       foldl (fun sum e => (sum + length (falsehoods (results e)))%nat) 0%nat evals;
     transcriptCount := length evals |}.

Definition noteTypeStats (evaluations : list Evaluation) : list NoteTypeStats :=
  stats <$> noteTypeGroups evaluations.

Definition byAvgComposite (a b : NoteTypeStats) : Q :=
  Float64.sub (avgCompositeScore b) (avgCompositeScore a).
Definition byAvgDetail (a b : NoteTypeStats) : Q :=
  Float64.sub (avgDetailScore b) (avgDetailScore a).
Definition byAvgTruthfulness (a b : NoteTypeStats) : Q :=
  Float64.sub (avgTruthfulnessScore b) (avgTruthfulnessScore a).

(** [[...noteTypeStats].sort(...)], the value [rankedNoteTypes] is
    declared with. *)
Definition rankedNoteTypes (evaluations : list Evaluation) : list NoteTypeStats :=
  JS.sort byAvgComposite (noteTypeStats evaluations).

(** [(e.results.detailScore.score + e.results.truthfulnessScore.score) / 2] *)
Definition compositeOf (e : Evaluation) : Q :=
  Float64.div (Float64.add (detailOf e) (truthfulnessOf e)) 2.

Definition falsehoodRate (nt : NoteTypeStats) : FalsehoodRate :=
  {| f_filename := filename nt;
     avgFalsehoods :=
       Float64.div (ofnat (totalFalsehoods nt)) (ofnat (transcriptCount nt)) |}.

Section Host.

(** [Math.pow]: the language leaves its value to the implementation
    ("implementation-approximated"), so the function of the host is a
    parameter. *)
Variable Math_pow : Q → Q → Q.

Definition average (scores : list Q) : Q :=
  Float64.div (sumOf (fun score => score) scores) (ofnat (length scores)).

Definition varianceOf (scores : list Q) : Q :=
  let avg := average scores in
  Float64.div (sumOf (fun score => Math_pow (Float64.sub score avg) 2) scores)
    (ofnat (length scores)).

Definition consistency (noteType : NoteTypeStats) : Consistency :=
  let scores := compositeOf <$> evaluations noteType in
  {| c_filename := filename noteType;
     variance := varianceOf scores;
     scores := scores |}.

(** [generateCommentary], with the array it closes over as argument; the
    sorts are in place, as in [Summary.generateCommentary]. *)
Definition generateCommentary (rankedNoteTypes : list NoteTypeStats)
    : option Commentary :=
  if decide (length rankedNoteTypes = 0%nat) then
    Some {| comments := []; mostConsistent := None; leastConsistent := None;
            arrayAfter := rankedNoteTypes |}
  else
    best ← rankedNoteTypes !! 0%nat;
    worst ← rankedNoteTypes !! (length rankedNoteTypes - 1)%nat;
    let scoreDiff := Float64.sub (avgCompositeScore best) (avgCompositeScore worst) in
    let performance :=
      if JS.gt scoreDiff 2
      then [SignificantGap (filename best) (filename worst) scoreDiff]
      else if JS.gt scoreDiff 1 then [ModeratelyBetter (filename best) scoreDiff]
      else [QuiteConsistent scoreDiff] in
    let rankedNoteTypes := JS.sort byAvgDetail rankedNoteTypes in
    mostDetailed ← rankedNoteTypes !! 0%nat;
    let rankedNoteTypes := JS.sort byAvgTruthfulness rankedNoteTypes in
    mostTruthful ← rankedNoteTypes !! 0%nat;
    let strengths :=
      if bool_decide (filename mostDetailed = filename mostTruthful)
         && bool_decide (filename mostDetailed = filename best)
      then [ClearWinner (filename best)]
      else if negb (bool_decide (filename mostDetailed = filename mostTruthful))
      then [DifferentStrengths (filename mostDetailed) (filename mostTruthful)]
      else [] in
    let consistencyScores := consistency <$> rankedNoteTypes in
    let consistencyScores :=
      JS.sort (fun a b => Float64.sub (variance a) (variance b)) consistencyScores in
    mostConsistent ← consistencyScores !! 0%nat;
    let consistencyScores :=
      JS.sort (fun a b => Float64.sub (variance b) (variance a)) consistencyScores in
    leastConsistent ← consistencyScores !! 0%nat;
    let consistent :=
      if JS.lt (variance mostConsistent) (1 # 2)
      then [ExceptionalConsistency (c_filename mostConsistent)]
      else if JS.gt (variance leastConsistent) 2
      then [SignificantVariation (c_filename leastConsistent)]
      else [] in
    let totalFalsehoodsByType := falsehoodRate <$> rankedNoteTypes in
    let totalFalsehoodsByType :=
      JS.sort (fun a b => Float64.sub (avgFalsehoods a) (avgFalsehoods b))
        totalFalsehoodsByType in
    safest ← totalFalsehoodsByType !! 0%nat;
    let totalFalsehoodsByType :=
      JS.sort (fun a b => Float64.sub (avgFalsehoods b) (avgFalsehoods a))
        totalFalsehoodsByType in
    riskiest ← totalFalsehoodsByType !! 0%nat;
    let issues :=
      if JS.eq (avgFalsehoods safest) 0 then [PerfectAccuracy (f_filename safest)]
      else if JS.ge (avgFalsehoods riskiest) 2
      then [RequiresAttention (f_filename riskiest) (avgFalsehoods riskiest)]
      else [] in
    let highQuality :=
      filter (fun nt => JS.ge (avgCompositeScore nt) 8 = true) rankedNoteTypes in
    let lowQuality :=
      filter (fun nt => JS.lt (avgCompositeScore nt) 6 = true) rankedNoteTypes in
    let quality :=
      if decide (length highQuality = length rankedNoteTypes) then [AllHighQuality]
      else if decide (0 < length lowQuality)%nat
      then [BelowThreshold (filename <$> lowQuality)]
      else [] in
    Some {| comments := performance ++ strengths ++ consistent ++ issues ++ quality;
            mostConsistent := Some mostConsistent;
            leastConsistent := Some leastConsistent;
            arrayAfter := rankedNoteTypes |}.

End Host.

End Summary64.

(** A host whose [Math.pow(x, 2)] is the product [x * x]. *)
Definition samplePow (base exponent : Q) : Q := Float64.mul base base.

(** Two note types over ten transcripts each: the detail scores of
    "A.txt" add up to 19 and its truthfulness scores to 28, those of
    "B.txt" to 20 and 27. *)
Definition sampleTenTranscripts : list Summary.Evaluation :=
  let transcript (i : nat) := "transcript" +:+ pretty i in
  imap (fun i '(d, t) => Summary.mkEvaluation (transcript i) "A.txt" d t)
    [(1, 2); (2, 2); (2, 3); (2, 3); (2, 3); (2, 3); (2, 3); (2, 3); (2, 3); (2, 3)]
  ++ imap (fun i '(d, t) => Summary.mkEvaluation (transcript i) "B.txt" d t)
       [(2, 3); (2, 3); (2, 3); (2, 3); (2, 3); (2, 3); (2, 3); (2, 2); (2, 2); (2, 2)].

(** Two note types over two transcripts whose rounded mean composite
    scores are 8.3 and 7.3. *)
Definition sampleOnePointApart : list Summary.Evaluation :=
  [Summary.mkEvaluation "transcript1" "notes-gpt4o" 8 8;
   Summary.mkEvaluation "transcript2" "notes-gpt4o" 8 9;
   Summary.mkEvaluation "transcript1" "notes-claude" 7 7;
   Summary.mkEvaluation "transcript2" "notes-claude" 7 8].

(** Two note types over three transcripts, with composite scores 3.5, 4, 5
    and 1, 1.5, 2.5: the exact variance of both is 7/18. *)
Definition sampleEqualVariances : list Summary.Evaluation :=
  [Summary.mkEvaluation "transcript1" "A.txt" 3 4;
   Summary.mkEvaluation "transcript2" "A.txt" 4 4;
   Summary.mkEvaluation "transcript3" "A.txt" 5 5;
   Summary.mkEvaluation "transcript1" "B.txt" 1 1;
   Summary.mkEvaluation "transcript2" "B.txt" 1 2;
   Summary.mkEvaluation "transcript3" "B.txt" 2 3].

(** One note type over ten transcripts whose detail scores add up to 22
    and whose truthfulness scores add up to 97: a mean composite score of
    5.95 exactly. *)
Definition sampleNearThreshold : list Summary.Evaluation :=
  let transcript (i : nat) := "transcript" +:+ pretty i in
  imap (fun i '(d, t) => Summary.mkEvaluation (transcript i) "C.txt" d t)
    [(2, 10); (2, 10); (2, 10); (2, 10); (2, 10); (2, 10); (2, 10); (2, 9); (3, 9); (3, 9)].

(** * Proofs *)

(** ** Facts on [JS.sort] *)

Lemma positive_spec (x : Q) : JS.positive x = true ↔ (0 < x)%Q.
Proof.
  unfold JS.positive, JS.gt. rewrite negb_true_iff.
  split.
  - intros H. apply Qnot_le_lt. intros Hle.
    apply Qle_bool_iff in Hle. congruence.
  - intros H. destruct (Qle_bool x 0) eqn:E; [|done].
    apply Qle_bool_iff in E. exfalso. eapply Qlt_not_le; eauto.
Qed.

Lemma sort_cons {A} (cmp : A → A → Q) x l :
  JS.sort cmp (x :: l) = JS.insert cmp x (JS.sort cmp l).
Proof. reflexivity. Qed.

Section sort_perm.
Context {A : Type} (cmp : A → A → Q).

Lemma insert_Permutation x l : JS.insert cmp x l ≡ₚ x :: l.
Proof.
  induction l as [|y l IH]; simpl; [done|].
  destruct (JS.positive (cmp x y)); [|done].
  rewrite IH. apply Permutation_swap.
Qed.

Lemma sort_Permutation l : JS.sort cmp l ≡ₚ l.
Proof.
  induction l as [|x l IH]; [done|].
  by rewrite sort_cons, insert_Permutation, IH.
Qed.

Lemma sort_length l : length (JS.sort cmp l) = length l.
Proof. by rewrite sort_Permutation. Qed.

Lemma elem_of_sort x l : x ∈ JS.sort cmp l ↔ x ∈ l.
Proof. by rewrite sort_Permutation. Qed.

Lemma sort_map {B} (f : B → A) l :
  f <$> JS.sort (fun a b => cmp (f a) (f b)) l = JS.sort cmp (f <$> l).
Proof.
  induction l as [|x l IH]; [done|].
  rewrite fmap_cons, !sort_cons, <- IH.
  generalize (JS.sort (fun a b => cmp (f a) (f b)) l). intros s.
  induction s as [|y s IHs]; [reflexivity|].
  rewrite fmap_cons. simpl.
  destruct (JS.positive (cmp (f x) (f y))); [|reflexivity].
  rewrite fmap_cons. by f_equal.
Qed.
End sort_perm.

(** A comparator orders by a key [rk], the larger key first; elements carry
    a tag that says where they stood before the sort. *)
Section sort_sorted.
Context {A : Type} (cmp : A → A → Q) (rk : A → Q) (tag : A → nat).
Hypothesis cmp_rk : ∀ a b, JS.positive (cmp a b) = true ↔ (rk a < rk b)%Q.

Local Abbreviation lexlt := (lexlt rk tag).

Lemma lexlt_key a b : lexlt a b → (rk b <= rk a)%Q.
Proof.
  intros [H|[H _]]; [by apply Qlt_le_weak|]. rewrite H. apply Qle_refl.
Qed.

Lemma lexlt_asym a b : lexlt a b → lexlt b a → False.
Proof.
  intros [H1|[H1 T1]] [H2|[H2 T2]].
  - eapply Qlt_irrefl, Qlt_trans; eauto.
  - rewrite H2 in H1. by eapply Qlt_irrefl.
  - rewrite H1 in H2. by eapply Qlt_irrefl.
  - lia.
Qed.

Lemma lexlt_total a b : tag a ≠ tag b → lexlt a b ∨ lexlt b a.
Proof.
  intros Ht. unfold lexlt.
  destruct (Q_dec (rk a) (rk b)) as [[H|H]|H]; [by right; left|by left; left|].
  destruct (decide (tag a < tag b)%nat); [left; right; done|].
  right; right. split; [by symmetry|lia].
Qed.

Lemma insert_sorted x s :
  Forall (fun y => (tag x < tag y)%nat) s →
  StronglySorted lexlt s →
  StronglySorted lexlt (JS.insert cmp x s).
Proof.
  induction s as [|y s IH]; simpl; intros Htag Hs.
  { repeat constructor. }
  apply Forall_cons in Htag as [Hy Htag].
  apply StronglySorted_inv in Hs as [Hs Hys].
  destruct (JS.positive (cmp x y)) eqn:E.
  - apply cmp_rk in E. constructor; [by apply IH|].
    rewrite insert_Permutation. constructor; [by left|done].
  - assert (rk y <= rk x)%Q as Hle.
    { apply Qnot_lt_le. intros Hlt. apply cmp_rk in Hlt. congruence. }
    assert (lexlt x y) as Hxy.
    { apply Qle_lt_or_eq in Hle as [Hlt|Heq]; [by left|].
      right. split; [by symmetry|done]. }
    constructor; [by constructor|].
    constructor; [done|].
    rewrite Forall_forall in Hys, Htag |- *. intros z Hz.
    specialize (Hys z Hz). specialize (Htag z Hz).
    apply lexlt_key in Hys.
    destruct (Qle_lt_or_eq _ _ (Qle_trans _ _ _ Hys Hle)) as [Hlt|Heq];
      [by left|].
    right. split; [by symmetry|done].
Qed.

Lemma sort_sorted l :
  StronglySorted (fun a b => (tag a < tag b)%nat) l →
  StronglySorted lexlt (JS.sort cmp l).
Proof.
  induction l as [|x l IH]; intros Hl; [constructor|].
  apply StronglySorted_inv in Hl as [Hl Hx].
  rewrite sort_cons. apply insert_sorted; [|by apply IH].
  rewrite Forall_forall in Hx |- *. intros y Hy.
  apply Hx. by apply elem_of_sort in Hy.
Qed.

(** The result does not depend on the algorithm: an array that holds the
    same elements in this order is the one [JS.sort] computes. *)
Lemma sort_unique l s :
  StronglySorted (fun a b => (tag a < tag b)%nat) l →
  s ≡ₚ l → StronglySorted lexlt s → s = JS.sort cmp l.
Proof.
  intros Hl Hp Hs.
  apply (StronglySorted_unique_strong lexlt); [|done|by apply sort_sorted|].
  - intros x1 x2 _ _ H12 H21. destruct (lexlt_asym _ _ H12 H21).
  - by rewrite sort_Permutation.
Qed.
End sort_sorted.

(** Strong sortedness read through positions. *)
Lemma StronglySorted_lookup {A} (R : relation A) l i j x y :
  StronglySorted R l → l !! i = Some x → l !! j = Some y → (i < j)%nat → R x y.
Proof.
  intros Hl. revert i j. induction Hl as [|z l Hl IH Hz]; intros i j Hi Hj Hij.
  { done. }
  destruct j as [|j]; [lia|]. simpl in Hj.
  destruct i as [|i]; simpl in Hi.
  - injection Hi as ->. rewrite Forall_forall in Hz.
    apply Hz. by eapply list_elem_of_lookup_2.
  - eapply IH; eauto. lia.
Qed.

Lemma lookup_StronglySorted {A} (R : relation A) l :
  (∀ i j x y, l !! i = Some x → l !! j = Some y → (i < j)%nat → R x y) →
  StronglySorted R l.
Proof.
  induction l as [|z l IH]; intros H; constructor.
  - apply IH. intros i j x y Hi Hj Hij. apply (H (S i) (S j)); [done..|lia].
  - apply Forall_forall. intros y Hy.
    apply list_elem_of_lookup_1 in Hy as [j Hj].
    apply (H 0%nat (S j)); [done..|lia].
Qed.

Section sort_positions.
Context {A : Type} (rk : A → Q) (tag : A → nat).

Lemma sorted_positions (s : list A) p q x y :
  StronglySorted (lexlt rk tag) s →
  s !! p = Some x → s !! q = Some y →
  tag x ≠ tag y → lexlt rk tag x y → (p < q)%nat.
Proof.
  intros Hs Hp Hq Ht Hxy.
  destruct (Nat.lt_trichotomy p q) as [?|[->|Hqp]]; [done| |].
  - congruence.
  - exfalso. eapply lexlt_asym; [exact Hxy|].
    eapply StronglySorted_lookup; eauto.
Qed.
End sort_positions.

(** ** The ranker *)

Section ranker.
Import Ranker.

Lemma composite_set_overallRanking r e :
  composite (set_overallRanking r e) = composite e.
Proof. reflexivity. Qed.

Lemma byComposite_rk a b :
  JS.positive (byComposite a b) = true ↔ (compositeScore a < compositeScore b)%Q.
Proof.
  rewrite positive_spec. unfold byComposite.
  rewrite <- (Qlt_minus_iff (compositeScore a) (compositeScore b)). done.
Qed.

(** The elements of [evaluationsWithComposite]. *)
Lemma lookup_withComposite (h : list EvaluationResults) (evaluations : list nat) k :
  imap (withComposite h) evaluations !! k = withComposite h k <$> evaluations !! k.
Proof. apply list_lookup_imap. Qed.

Lemma withComposite_tags (h : list EvaluationResults) (evaluations : list nat) :
  StronglySorted (fun a b => (originalIndex a < originalIndex b)%nat)
    (imap (withComposite h) evaluations).
Proof.
  apply lookup_StronglySorted. intros i j x y Hi Hj Hij.
  rewrite lookup_withComposite in Hi, Hj.
  destruct (evaluations !! i); [|done]. destruct (evaluations !! j); [|done].
  simpl in *. by simplify_eq.
Qed.

Lemma rankEvaluations_eq (h : list EvaluationResults) (evaluations : list nat) :
  rankEvaluations h evaluations
  = (JS.forEach (assignRanking evaluations)
       (JS.sort byComposite (imap (withComposite h) evaluations)) h, evaluations).
Proof. by destruct evaluations. Qed.

(** The writes of the [forEach]: the object of the [p]-th sorted element
    takes ranking [p + 1]; no other object changes. *)
Section writes.
Variable evaluations : list nat.
Hypothesis evaluations_NoDup : NoDup evaluations.

Lemma assign_length sorted i (h : list EvaluationResults) :
  length (JS.forEachFrom i (assignRanking evaluations) sorted h) = length h.
Proof.
  revert i h. induction sorted as [|a sorted IH]; intros i h; simpl; [done|].
  rewrite IH. unfold assignRanking.
  destruct (evaluations !! originalIndex a); [|done]. by rewrite length_alter.
Qed.

Lemma assign_other sorted i (h : list EvaluationResults) l :
  (∀ a, a ∈ sorted → evaluations !! originalIndex a ≠ Some l) →
  JS.forEachFrom i (assignRanking evaluations) sorted h !! l = h !! l.
Proof.
  revert i h. induction sorted as [|a sorted IH]; intros i h Hl; simpl; [done|].
  rewrite IH by (intros b Hb; apply Hl; by right).
  unfold assignRanking.
  destruct (evaluations !! originalIndex a) as [la|] eqn:E; [|done].
  apply list_lookup_alter_ne. intros ->. eapply Hl; [by left|done].
Qed.

Lemma assign_target sorted i (h : list EvaluationResults) p a l :
  NoDup (originalIndex <$> sorted) →
  sorted !! p = Some a →
  evaluations !! originalIndex a = Some l →
  JS.forEachFrom i (assignRanking evaluations) sorted h !! l
  = set_overallRanking (Z.of_nat (i + p) + 1) <$> h !! l.
Proof.
  revert i h p. induction sorted as [|b sorted IH]; intros i h p Hnd Hp Hl; [done|].
  rewrite fmap_cons in Hnd. apply NoDup_cons in Hnd as [Hb Hnd].
  destruct p as [|p]; simpl in Hp |- *.
  - injection Hp as ->.
    rewrite assign_other.
    + unfold assignRanking. rewrite Hl, Nat.add_0_r. apply list_lookup_alter_eq.
    + intros c Hc Hcl. apply Hb.
      assert (originalIndex c = originalIndex a) as <-.
      { by apply (NoDup_lookup evaluations _ _ l). }
      by apply list_elem_of_fmap_2.
  - rewrite (IH (S i) _ p) by done.
    replace (S i + p)%nat with (i + S p)%nat by lia. f_equal.
    unfold assignRanking.
    destruct (evaluations !! originalIndex b) as [lb|] eqn:E; [|done].
    apply list_lookup_alter_ne. intros ->. apply Hb.
    assert (originalIndex b = originalIndex a) as ->.
    { by apply (NoDup_lookup evaluations _ _ l). }
    apply list_elem_of_fmap_2. by eapply list_elem_of_lookup_2.
Qed.
End writes.

Section ranked.
Variables (h : list EvaluationResults) (evaluations : list nat).
Hypothesis evaluations_NoDup : NoDup evaluations.
Hypothesis evaluations_alloc : ∀ l, l ∈ evaluations → (l < length h)%nat.

Let items := imap (withComposite h) evaluations.
Let sorted := JS.sort byComposite items.
Let h' := JS.forEach (assignRanking evaluations) sorted h.

Lemma rankEvaluations_unfold : rankEvaluations h evaluations = (h', evaluations).
Proof. apply rankEvaluations_eq. Qed.

Lemma sorted_items : sorted ≡ₚ items.
Proof. apply sort_Permutation. Qed.

Lemma sorted_lex :
  StronglySorted (lexlt compositeScore originalIndex) sorted.
Proof.
  apply (sort_sorted byComposite compositeScore originalIndex byComposite_rk).
  apply withComposite_tags.
Qed.

(** Whatever stable sort the engine runs, it ends with this array. *)
Lemma sorted_unique s :
  s ≡ₚ items → StronglySorted (lexlt compositeScore originalIndex) s → s = sorted.
Proof.
  intros Hp Hs.
  apply (sort_unique byComposite compositeScore originalIndex byComposite_rk);
    [apply withComposite_tags|done..].
Qed.

Lemma items_elem a :
  a ∈ items ↔ ∃ l, evaluations !! originalIndex a = Some l
                  ∧ a = withComposite h (originalIndex a) l.
Proof.
  unfold items. rewrite list_elem_of_lookup. split.
  - intros [k Hk]. rewrite lookup_withComposite in Hk.
    destruct (evaluations !! k) as [l|] eqn:E; [|done].
    injection Hk as <-. simpl. eauto.
  - intros (l & Hl & ->). exists (originalIndex a).
    by rewrite lookup_withComposite, Hl.
Qed.

Lemma items_tags : originalIndex <$> items = seq 0 (length evaluations).
Proof.
  apply list_eq. intros k. unfold items.
  rewrite list_lookup_fmap, lookup_withComposite.
  destruct (evaluations !! k) as [l|] eqn:E; simpl.
  - symmetry. apply lookup_seq. split; [done|]. by eapply lookup_lt_Some.
  - symmetry. apply lookup_seq_ge. by apply lookup_ge_None.
Qed.

Lemma sorted_tags_NoDup : NoDup (originalIndex <$> sorted).
Proof. rewrite sorted_items, items_tags. apply NoDup_seq. Qed.

(** The object behind the [p]-th sorted element is ranked [p + 1]. *)
Lemma rank_of_position p a :
  sorted !! p = Some a →
  ∃ l, evaluations !! originalIndex a = Some l
       ∧ a = withComposite h (originalIndex a) l
       ∧ h' !!! l = set_overallRanking (Z.of_nat p + 1) (h !!! l).
Proof.
  intros Hp.
  assert (a ∈ items) as Ha.
  { rewrite <- sorted_items. by eapply list_elem_of_lookup_2. }
  apply items_elem in Ha as (l & Hl & Ha). exists l. split; [done|]. split; [done|].
  assert (l < length h)%nat as Hlt.
  { apply evaluations_alloc. by eapply list_elem_of_lookup_2. }
  apply list_lookup_total_correct. unfold h', JS.forEach.
  rewrite (assign_target evaluations evaluations_NoDup sorted 0 h p a l
             sorted_tags_NoDup Hp Hl).
  by rewrite (list_lookup_lookup_total_lt h l Hlt).
Qed.

(** Every input position has its place in the sorted array. *)
Lemma position_of_input k l :
  evaluations !! k = Some l →
  ∃ p, sorted !! p = Some (withComposite h k l)
       ∧ h' !!! l = set_overallRanking (Z.of_nat p + 1) (h !!! l).
Proof.
  intros Hk.
  assert (withComposite h k l ∈ sorted) as Hin.
  { rewrite sorted_items. apply items_elem. exists l. by split. }
  apply list_elem_of_lookup_1 in Hin as [p Hp]. exists p. split; [done|].
  destruct (rank_of_position p _ Hp) as (l' & Hl' & _ & Hr).
  simpl in Hl'. by simplify_eq.
Qed.

Lemma ranks_Permutation :
  rankAt h' <$> evaluations ≡ₚ seqZ 1 (Z.of_nat (length evaluations)).
Proof.
  set (tgt := fun a : WithComposite => evaluations !!! originalIndex a).
  assert (tgt <$> items = evaluations) as Htgt.
  { apply list_eq. intros k. unfold items.
    rewrite list_lookup_fmap, lookup_withComposite.
    destruct (evaluations !! k) as [l|] eqn:E; [|done]. simpl.
    unfold tgt. simpl. f_equal. by apply list_lookup_total_correct. }
  rewrite <- Htgt at 1. rewrite <- sorted_items.
  assert (rankAt h' <$> (tgt <$> sorted) = seqZ 1 (Z.of_nat (length evaluations))) as ->;
    [|done].
  apply list_eq. intros p. rewrite !list_lookup_fmap.
  destruct (sorted !! p) as [a|] eqn:Hp; simpl.
  - destruct (rank_of_position p a Hp) as (l & Hl & _ & Hr).
    unfold tgt, rankAt. rewrite (list_lookup_total_correct _ _ _ Hl), Hr. simpl.
    symmetry. apply lookup_seqZ. split; [lia|].
    apply lookup_lt_Some in Hp. unfold sorted in Hp.
    rewrite sort_length in Hp. unfold items in Hp. rewrite length_imap in Hp. lia.
  - symmetry. apply lookup_seqZ_ge.
    apply lookup_ge_None in Hp. unfold sorted in Hp.
    rewrite sort_length in Hp. unfold items in Hp. rewrite length_imap in Hp. lia.
Qed.

Lemma composite_kept l : l ∈ evaluations → compositeAt h' l = compositeAt h l.
Proof.
  intros Hl. apply list_elem_of_lookup_1 in Hl as [k Hk].
  destruct (position_of_input k l Hk) as (p & _ & Hr).
  unfold compositeAt. by rewrite Hr.
Qed.

(** Of two inputs the earlier one is ranked first unless the later one
    has the strictly larger composite score. *)
Lemma ranks_ordered i j li lj :
  evaluations !! i = Some li → evaluations !! j = Some lj → (i < j)%nat →
  rankAt h' li < rankAt h' lj ↔ (compositeAt h lj <= compositeAt h li)%Q.
Proof.
  intros Hi Hj Hij.
  destruct (position_of_input i li Hi) as (p & Hp & Hrp).
  destruct (position_of_input j lj Hj) as (q & Hq & Hrq).
  unfold rankAt. rewrite Hrp, Hrq. simpl.
  pose proof sorted_lex as Hs.
  split.
  - intros Hlt. assert (p < q)%nat as Hpq by lia.
    apply (lexlt_key compositeScore originalIndex
             (withComposite h i li) (withComposite h j lj)).
    exact (StronglySorted_lookup _ _ _ _ _ _ Hs Hp Hq Hpq).
  - intros Hle.
    assert (p < q)%nat; [|lia].
    eapply (sorted_positions compositeScore originalIndex); eauto.
    + simpl. lia.
    + unfold lexlt. simpl. unfold compositeAt in Hle.
      apply Qle_lt_or_eq in Hle as [Hlt|Heq]; [by left|].
      right. split; [by symmetry|done].
Qed.

Lemma first_is_best l1 l :
  l1 ∈ evaluations → l ∈ evaluations → rankAt h' l1 = 1 →
  (compositeAt h l <= compositeAt h l1)%Q.
Proof.
  intros H1 Hl Hr.
  apply list_elem_of_lookup_1 in H1 as [i Hi].
  apply list_elem_of_lookup_1 in Hl as [j Hj].
  destruct (position_of_input i l1 Hi) as (p & Hp & Hrp).
  destruct (position_of_input j l Hj) as (q & Hq & Hrq).
  unfold rankAt in Hr. rewrite Hrp in Hr. simpl in Hr.
  assert (p = 0)%nat as -> by lia.
  destruct q as [|q].
  - assert (compositeScore (withComposite h i l1)
            = compositeScore (withComposite h j l)) as Hc by congruence.
    unfold compositeAt. change (composite (h !!! l1) = composite (h !!! l)) in Hc.
    rewrite Hc. apply Qle_refl.
  - apply (lexlt_key compositeScore originalIndex
             (withComposite h i l1) (withComposite h j l)).
    eapply StronglySorted_lookup; [apply sorted_lex|exact Hp|exact Hq|lia].
Qed.
End ranked.

End ranker.

(** C1. For a non-empty array of distinct, allocated score records,
    [rankEvaluations] writes rankings that are a permutation of 1..N; of two
    records the one earlier in the input is ranked before the other exactly
    when its composite score, half the sum of its detail score and its
    truthfulness score, is not smaller (descending by composite, ties to
    the earlier input); and the record ranked 1 has a composite score at
    least that of every record of the group.  The order is stated twice:
    on the composite the ranker computes, and on the two scores of the
    records as they were given. *)
Theorem rankEvaluations_dense_ranking
    (h : list EvaluationResults) (evaluations : list nat) :
  evaluations ≠ [] →
  NoDup evaluations →
  (∀ l, l ∈ evaluations → (l < length h)%nat) →
  ∃ h', Ranker.rankEvaluations h evaluations = (h', evaluations)
    ∧ Ranker.rankAt h' <$> evaluations ≡ₚ seqZ 1 (Z.of_nat (length evaluations))
    ∧ (∀ l, l ∈ evaluations → Ranker.compositeAt h' l = Ranker.compositeAt h l)
    ∧ (∀ i j li lj,
         evaluations !! i = Some li → evaluations !! j = Some lj → (i < j)%nat →
         Ranker.rankAt h' li < Ranker.rankAt h' lj
         ↔ (Ranker.compositeAt h' lj <= Ranker.compositeAt h' li)%Q)
    ∧ (∀ l1 l, l1 ∈ evaluations → l ∈ evaluations → Ranker.rankAt h' l1 = 1 →
         (Ranker.compositeAt h' l <= Ranker.compositeAt h' l1)%Q)
    ∧ (∀ i j li lj,
         evaluations !! i = Some li → evaluations !! j = Some lj → (i < j)%nat →
         Ranker.rankAt h' li < Ranker.rankAt h' lj
         ↔ (inject_Z (score (detailScore (h !!! lj))
                      + score (truthfulnessScore (h !!! lj))) / 2
            <= inject_Z (score (detailScore (h !!! li))
                         + score (truthfulnessScore (h !!! li))) / 2)%Q)
    ∧ (∀ l1 l, l1 ∈ evaluations → l ∈ evaluations → Ranker.rankAt h' l1 = 1 →
         (inject_Z (score (detailScore (h !!! l))
                    + score (truthfulnessScore (h !!! l))) / 2
          <= inject_Z (score (detailScore (h !!! l1))
                       + score (truthfulnessScore (h !!! l1))) / 2)%Q).
Proof.
  intros Hne Hnd Halloc. eexists. split; [by apply rankEvaluations_unfold|].
  split; [by apply ranks_Permutation|].
  pose proof (composite_kept h evaluations Hnd Halloc) as Hk.
  split; [exact Hk|].
  split; [|split; [|split]].
  - intros i j li lj Hi Hj Hij.
    rewrite (Hk li), (Hk lj) by (by eapply list_elem_of_lookup_2).
    by apply (ranks_ordered h evaluations Hnd Halloc i j).
  - intros l1 l H1 Hl Hr. rewrite (Hk l1), (Hk l) by done.
    by apply (first_is_best h evaluations Hnd Halloc).
  - intros i j li lj Hi Hj Hij.
    by apply (ranks_ordered h evaluations Hnd Halloc i j).
  - intros l1 l H1 Hl Hr.
    by apply (first_is_best h evaluations Hnd Halloc).
Qed.

Lemma rankEvaluations_dense_ranking_witness :
  let h := [mkResults 9 9; mkResults 7 8; mkResults 5 6; mkResults 7 8] in
  let evaluations := [3; 0; 2; 1]%nat in
  ∃ h', Ranker.rankEvaluations h evaluations = (h', evaluations)
    ∧ Ranker.rankAt h' <$> evaluations ≡ₚ seqZ 1 4
    ∧ Ranker.rankAt h' 0%nat < Ranker.rankAt h' 2%nat.
Proof.
  intros h evaluations.
  destruct (rankEvaluations_dense_ranking h evaluations)
    as (h' & Hr & Hp & _ & _ & _ & Ho & _).
  - done.
  - apply (bool_decide_unpack _). vm_compute. reflexivity.
  - apply Forall_forall. apply (bool_decide_unpack _). vm_compute. reflexivity.
  - exists h'. split; [exact Hr|]. split; [exact Hp|].
    apply (Ho 1%nat 2%nat 0%nat 2%nat); [reflexivity|reflexivity|lia|].
    vm_compute. discriminate.
Defined.


(** The scenario of the specification: detail and truthfulness (9,9),
    (7,8), (5,6) are ranked 1, 2, 3, the composite scores being 9, 7.5 and
    5.5; with a tie the earlier record comes first. *)
Example rank_scenario :
  let h := [mkResults 9 9; mkResults 7 8; mkResults 5 6] in
  Ranker.rankAt (Ranker.rankEvaluations h [0; 1; 2]%nat).1 <$> [0; 1; 2]%nat = [1; 2; 3]
  ∧ Forall2 Qeq (Ranker.compositeAt h <$> [0; 1; 2]%nat) [9; 15 # 2; 11 # 2]%Q.
Proof. split; [reflexivity|]. by repeat constructor. Qed.

Example rank_tie :
  let h := [mkResults 5 6; mkResults 9 9; mkResults 7 8; mkResults 10 8] in
  Ranker.rankAt (Ranker.rankEvaluations h [0; 1; 2; 3]%nat).1 <$> [0; 1; 2; 3]%nat
  = [4; 1; 3; 2].
Proof. reflexivity. Qed.

(** C10. On the empty array [rankEvaluations] returns the empty array and
    leaves the store as it is; the function has no failing branch. *)
Theorem rankEvaluations_empty (h : list EvaluationResults) :
  Ranker.rankEvaluations h [] = (h, []).
Proof. reflexivity. Qed.

(** ** The ranker writes in place *)

Section in_place.
Import Ranker.

Variable evaluations : list nat.

Local Abbreviation rewritten := (rewritten evaluations).

Lemma rewritten_refl h : rewritten h h.
Proof.
  split; [done|]. split; [done|]. intros l e He. exists e. by repeat split.
Qed.

Lemma rewritten_trans h1 h2 h3 : rewritten h1 h2 → rewritten h2 h3 → rewritten h1 h3.
Proof.
  intros (L1 & O1 & S1) (L2 & O2 & S2). split; [congruence|]. split.
  - intros l Hl. by rewrite O2, O1.
  - intros l e He. destruct (S1 l e He) as (e' & He' & H1).
    destruct (S2 l e' He') as (e'' & He'' & H2). exists e''. split; [done|].
    destruct H1 as (?&?&?&?), H2 as (?&?&?&?). repeat split; congruence.
Qed.

Lemma assignRanking_rewritten a index h :
  rewritten h (assignRanking evaluations a index h).
Proof.
  unfold assignRanking.
  destruct (evaluations !! originalIndex a) as [la|] eqn:E; [|apply rewritten_refl].
  split; [apply length_alter|]. split.
  - intros l Hl. apply list_lookup_alter_ne. intros ->.
    apply Hl. by eapply list_elem_of_lookup_2.
  - intros l e He. destruct (decide (la = l)) as [->|Hne].
    + rewrite list_lookup_alter_eq, He. simpl. eexists. split; [done|].
      by repeat split.
    + rewrite list_lookup_alter_ne by done. exists e. by repeat split.
Qed.

Lemma forEach_rewritten sorted i h :
  rewritten h (JS.forEachFrom i (assignRanking evaluations) sorted h).
Proof.
  revert i h. induction sorted as [|a sorted IH]; intros i h; simpl.
  - apply rewritten_refl.
  - eapply rewritten_trans; [apply assignRanking_rewritten|apply IH].
Qed.

Lemma rankEvaluations_rewritten h :
  ∃ h', rankEvaluations h evaluations = (h', evaluations) ∧ rewritten h h'.
Proof.
  unfold rankEvaluations. destruct (decide (length evaluations = 0%nat)).
  - exists h. split; [done|apply rewritten_refl].
  - eexists. split; [done|]. apply forEach_rewritten.
Qed.

End in_place.

(** C7, as the code has it.  [rankEvaluations] returns the array it was
    given, in input order; its effect is on the store: the records of that
    array get their [overallRanking] overwritten, they keep every other
    field, no record outside the array changes and none is added. *)
Theorem rankEvaluations_in_place (h : list EvaluationResults) (evaluations : list nat) :
  ∃ h', Ranker.rankEvaluations h evaluations = (h', evaluations)
    ∧ length h' = length h
    ∧ (∀ l, l ∉ evaluations → h' !! l = h !! l)
    ∧ (∀ l e, h !! l = Some e → ∃ e', h' !! l = Some e' ∧ sameButRanking e e').
Proof.
  destruct (rankEvaluations_rewritten evaluations h) as (h' & Hr & Hw).
  exists h'. split; [exact Hr|exact Hw].
Qed.

(** C7, as stated, fails: on three records scored (5,6), (9,9), (7,8) the
    array comes back in input order, which is not the ranked order (the
    rankings read 3, 1, 2 along it), and the caller's own records have been
    written to. *)
Lemma rankEvaluations_not_pure :
  let h := [mkResults 5 6; mkResults 9 9; mkResults 7 8] in
  let evaluations := [0; 1; 2]%nat in
  ∃ h', Ranker.rankEvaluations h evaluations = (h', evaluations)
    ∧ Ranker.rankAt h' <$> evaluations = [3; 1; 2]
    ∧ Ranker.rankAt h <$> evaluations = [0; 0; 0]
    ∧ h' ≠ h.
Proof.
  intros h evaluations. eexists. split; [vm_compute; reflexivity|].
  split; [reflexivity|]. split; [reflexivity|]. discriminate.
Qed.

(** ** Grouping by transcript *)

Section grouping.
Context {V : Type}.

Lemma lookupGroup_groupPush g key (v : V) m :
  lookupGroup g (JS.groupPush key v m)
  = lookupGroup g m ++ (if decide (key = g) then [v] else []).
Proof.
  induction m as [|[k members] m IH]; simpl.
  - destruct (decide (key = g)); [done|done].
  - destruct (decide (k = key)) as [->|Hne]; simpl.
    + destruct (decide (key = g)); [done|]. by rewrite app_nil_r.
    + destruct (decide (k = g)) as [->|]; [|done].
      destruct (decide (key = g)); [congruence|]. by rewrite app_nil_r.
Qed.

Lemma groupPush_keys key (v : V) m :
  NoDup (m.*1) → NoDup ((JS.groupPush key v m).*1).
Proof.
  induction m as [|[k members] m IH]; simpl; intros Hnd.
  - apply NoDup_singleton.
  - apply NoDup_cons in Hnd as [Hk Hnd].
    destruct (decide (k = key)) as [->|Hne]; simpl.
    + by apply NoDup_cons.
    + apply NoDup_cons. split; [|by apply IH].
      intros Hin. apply Hk. clear IH Hnd Hk.
      induction m as [|[k' ms'] m IHm]; simpl in *.
      * apply list_elem_of_singleton in Hin. congruence.
      * destruct (decide (k' = key)); simpl in *; [done|].
        apply elem_of_cons in Hin as [->|Hin]; [by left|right; by apply IHm].
Qed.

Lemma lookupGroup_elem g members (m : list (string * list V)) :
  NoDup (m.*1) → (g, members) ∈ m → lookupGroup g m = members.
Proof.
  induction m as [|[k ms] m IH]; simpl; intros Hnd Hin; [by apply elem_of_nil in Hin|].
  apply NoDup_cons in Hnd as [Hk Hnd].
  apply elem_of_cons in Hin as [Heq|Hin].
  - injection Heq as <- <-. by rewrite decide_True.
  - destruct (decide (k = g)) as [->|]; [|by apply IH].
    exfalso. apply Hk. by apply (list_elem_of_fmap_2 fst _ (g, members)).
Qed.
End grouping.

Section by_transcript.
Import Orchestrator.

Lemma groups_from l i m g :
  lookupGroup g
    (JS.forEachFrom i (fun evaluation i m => JS.groupPush (transcriptName evaluation) i m) l m)
  = lookupGroup g m ++ indicesFrom i g l.
Proof.
  revert i m. induction l as [|e l IH]; intros i m; simpl.
  - by rewrite app_nil_r.
  - rewrite IH, lookupGroup_groupPush.
    destruct (decide (transcriptName e = g)); simpl; by rewrite <- app_assoc.
Qed.

Lemma groups_keys l i m :
  NoDup (m.*1) →
  NoDup ((JS.forEachFrom i
            (fun evaluation i m => JS.groupPush (transcriptName evaluation) i m) l m).*1).
Proof.
  revert i m. induction l as [|e l IH]; intros i m Hnd; simpl; [done|].
  apply IH. by apply groupPush_keys.
Qed.

(** The array kept under a key holds the evaluations of that transcript, in
    the order of [allEvaluations]. *)
Lemma evaluationsByTranscript_elem all g members :
  (g, members) ∈ evaluationsByTranscript all → members = indicesFrom 0 g all.
Proof.
  intros Hin. unfold evaluationsByTranscript, JS.forEach in Hin.
  rewrite <- (lookupGroup_elem g members _ (groups_keys all 0 [] (NoDup_nil_2)) Hin).
  by rewrite groups_from.
Qed.

Lemma evaluationsByTranscript_keys all :
  NoDup ((evaluationsByTranscript all).*1).
Proof. apply groups_keys. apply NoDup_nil_2. Qed.

Lemma omap_cons_Some {A B} (f : A → option B) x y l :
  f x = Some y → omap f (x :: l) = y :: omap f l.
Proof. intros H. simpl. by rewrite H. Qed.

Lemma indicesFrom_results pre g l :
  omap (fun i => results <$> (pre ++ l) !! i) (indicesFrom (length pre) g l)
  = locsOf g l.
Proof.
  revert pre. induction l as [|e l IH]; intros pre; simpl; [done|].
  unfold locsOf. rewrite filter_cons.
  assert (omap (fun i => results <$> (pre ++ e :: l) !! i)
            (indicesFrom (S (length pre)) g l) = locsOf g l) as Htl.
  { rewrite <- (IH (pre ++ [e])). rewrite length_app, Nat.add_1_r.
    by rewrite <- app_assoc. }
  destruct (decide (transcriptName e = g)); [|exact Htl].
  rewrite (omap_cons_Some _ _ (results e)), Htl; [done|].
  by rewrite list_lookup_middle.
Qed.

Lemma indicesFrom_lookup pre g l k i :
  indicesFrom (length pre) g l !! k = Some i →
  (results <$> (pre ++ l) !! i) = locsOf g l !! k.
Proof.
  revert pre k. induction l as [|e l IH]; intros pre k; simpl; [done|].
  unfold locsOf. rewrite filter_cons.
  assert (∀ k, indicesFrom (S (length pre)) g l !! k = Some i →
            results <$> (pre ++ e :: l) !! i = locsOf g l !! k) as Htl.
  { intros k' Hk'. rewrite <- (IH (pre ++ [e])).
    - by rewrite <- app_assoc.
    - by rewrite length_app, Nat.add_1_r. }
  destruct (decide (transcriptName e = g)); [|apply Htl].
  destruct k as [|k]; simpl.
  - intros [= <-]. by rewrite list_lookup_middle.
  - apply Htl.
Qed.

(** Writing back [rankedResults[index]] changes no evaluation, the array
    being the one the results were read from. *)
Lemma assignResults_id (rankedResults : list nat) members j (all : list Evaluation) :
  (∀ k i, members !! k = Some i →
          results <$> all !! i = rankedResults !! (j + k)%nat) →
  JS.forEachFrom j (assignResults rankedResults) members all = all.
Proof.
  revert j. induction members as [|i members IH]; intros j H; simpl; [done|].
  assert (assignResults rankedResults i j all = all) as ->.
  { unfold assignResults. specialize (H 0%nat i eq_refl).
    rewrite Nat.add_0_r in H.
    destruct (rankedResults !! j) as [r|]; [|done].
    apply list_eq. intros i'. destruct (decide (i = i')) as [<-|Hne].
    - rewrite list_lookup_alter_eq. destruct (all !! i) as [e|]; [|done].
      simpl in *. injection H as <-. by destruct e.
    - by rewrite list_lookup_alter_ne. }
  apply IH. intros k i' Hk. replace (S j + k)%nat with (j + S k)%nat by lia.
  by apply H.
Qed.

Lemma rankGroup_spec all h g :
  rankGroup (indicesFrom 0 g all) (all, h)
  = (all, (Ranker.rankEvaluations h (locsOf g all)).1).
Proof.
  unfold rankGroup.
  pose proof (indicesFrom_results [] g all) as Hlocs.
  change ([] ++ all) with all in Hlocs.
  change (length (@nil Evaluation)) with 0%nat in Hlocs.
  rewrite Hlocs, rankEvaluations_eq. simpl. f_equal.
  apply assignResults_id. intros k i Hk.
  by apply (indicesFrom_lookup [] g all).
Qed.

Lemma rankGroups_spec all groups h :
  (∀ g members, (g, members) ∈ groups → members = indicesFrom 0 g all) →
  foldl (fun st group => rankGroup group.2 st) (all, h) groups
  = (all, foldl (fun h g => (Ranker.rankEvaluations h (locsOf g all)).1) h (groups.*1)).
Proof.
  revert h. induction groups as [|[g members] groups IH]; intros h H; [done|].
  rewrite fmap_cons. cbn [foldl snd fst].
  rewrite (H g members) by by left.
  rewrite rankGroup_spec. apply IH. intros g' m' Hin. apply H. by right.
Qed.

End by_transcript.

(** ** Ranking group after group *)

Section rank_all.
Import Orchestrator.

Variable all : list Evaluation.
Hypothesis results_NoDup : NoDup (results <$> all).

Lemma locsOf_NoDup g : NoDup (locsOf g all).
Proof.
  eapply sublist_NoDup; [exact results_NoDup|].
  unfold locsOf. apply fmap_sublist. apply sublist_filter.
Qed.

Lemma locsOf_elem g l :
  l ∈ locsOf g all ↔ ∃ e, e ∈ all ∧ transcriptName e = g ∧ results e = l.
Proof.
  unfold locsOf. rewrite list_elem_of_fmap. split.
  - intros (e & -> & He). apply list_elem_of_filter in He as [Hg He]. eauto.
  - intros (e & He & Hg & <-). exists e. split; [done|].
    by apply list_elem_of_filter.
Qed.

Lemma results_inj e e' :
  e ∈ all → e' ∈ all → results e = results e' → e = e'.
Proof.
  intros He He' Heq.
  apply list_elem_of_lookup_1 in He as [i Hi].
  apply list_elem_of_lookup_1 in He' as [j Hj].
  assert (i = j) as ->; [|congruence].
  apply (NoDup_lookup (results <$> all) i j (results e)); [done|..].
  - by rewrite list_lookup_fmap, Hi.
  - by rewrite list_lookup_fmap, Hj, Heq.
Qed.

Lemma locsOf_disjoint g g' l : l ∈ locsOf g all → l ∈ locsOf g' all → g = g'.
Proof.
  rewrite !locsOf_elem. intros (e & He & <- & <-) (e' & He' & <- & Hr).
  by rewrite (results_inj e' e He' He Hr).
Qed.

Lemma rankAll_spec gs (h : list EvaluationResults) :
  NoDup gs →
  (∀ e, e ∈ all → (results e < length h)%nat) →
  let h' := rankAll all h gs in
  length h' = length h
  ∧ (∀ l, (∀ g, g ∈ gs → l ∉ locsOf g all) → h' !! l = h !! l)
  ∧ (∀ l e, h !! l = Some e → ∃ e', h' !! l = Some e' ∧ sameButRanking e e')
  ∧ (∀ g, g ∈ gs →
       Ranker.rankAt h' <$> locsOf g all ≡ₚ seqZ 1 (Z.of_nat (length (locsOf g all)))).
Proof.
  revert h. induction gs as [|g gs IH]; intros h Hnd Halloc h'.
  { split; [done|]. split; [done|]. split.
    - intros l e He. exists e. by repeat split.
    - intros g Hg. by apply elem_of_nil in Hg. }
  apply NoDup_cons in Hnd as [Hg Hnd].
  destruct (rankEvaluations_rewritten (locsOf g all) h) as (h1 & Hr & Hl1 & Ho1 & Hs1).
  assert (h' = rankAll all h1 gs) as Hh'.
  { subst h'. unfold rankAll. cbn [foldl]. by rewrite Hr. }
  destruct (IH h1 Hnd) as (Hl & Ho & Hs & Hp).
  { intros e He. rewrite Hl1. by apply Halloc. }
  rewrite <- Hh' in Hl, Ho, Hs, Hp.
  split; [congruence|]. split; [|split].
  - intros l Hout. rewrite Ho, Ho1; [done|..].
    + apply Hout. by left.
    + intros g' Hg'. apply Hout. by right.
  - intros l e He. destruct (Hs1 l e He) as (e1 & He1 & H1).
    destruct (Hs l e1 He1) as (e2 & He2 & H2). exists e2. split; [done|].
    destruct H1 as (?&?&?&?), H2 as (?&?&?&?). repeat split; congruence.
  - intros g' Hg'. apply elem_of_cons in Hg' as [->|Hg']; [|by apply Hp].
    assert (Ranker.rankAt h' <$> locsOf g all = Ranker.rankAt h1 <$> locsOf g all) as ->.
    { apply Forall_fmap_ext_1, Forall_forall. intros l Hin.
      unfold Ranker.rankAt. rewrite !list_lookup_total_alt. rewrite Ho; [done|].
      intros g' Hg' Hin'. apply Hg.
      by rewrite (locsOf_disjoint g g' l Hin Hin'). }
    rewrite rankEvaluations_eq in Hr. injection Hr as <-.
    apply ranks_Permutation; [apply locsOf_NoDup|].
    intros l Hin. apply locsOf_elem in Hin as (e & He & _ & <-). by apply Halloc.
Qed.

End rank_all.

Section rank_within.
Import Orchestrator.

Lemma absent_group_empty all g :
  g ∉ (evaluationsByTranscript all).*1 → locsOf g all = [].
Proof.
  intros Hg.
  assert (indicesFrom 0 g all = []) as Hi.
  { pose proof (groups_from all 0 [] g) as H. simpl in H. rewrite <- H.
    fold (JS.forEach (fun evaluation i m =>
            JS.groupPush (transcriptName evaluation) i m) all []).
    fold (evaluationsByTranscript all).
    induction (evaluationsByTranscript all) as [|[k ms] m IH]; simpl in *; [done|].
    destruct (decide (k = g)) as [->|]; [exfalso; apply Hg; by left|].
    apply IH. intros Hin. apply Hg. by right. }
  pose proof (indicesFrom_results [] g all) as H.
  change (length (@nil Evaluation)) with 0%nat in H. by rewrite Hi in H.
Qed.

(** After the ranking pass the evaluations are the ones collected, in the
    same order; the store has the same records but for their rankings, and
    within every transcript the rankings are a permutation of 1..N. *)
Lemma rankWithinGroups_spec all w :
  NoDup (results <$> all) →
  (∀ e, e ∈ all → (results e < length (heap w))%nat) →
  ∃ h', rankWithinGroups (all, w)
        = (all, {| heap := h'; calls := calls w; trace := trace w |})
    ∧ h' = rankAll all (heap w) (evaluationsByTranscript all).*1
    ∧ length h' = length (heap w)
    ∧ (∀ l e, heap w !! l = Some e → ∃ e', h' !! l = Some e' ∧ sameButRanking e e')
    ∧ (∀ g, Ranker.rankAt h' <$> locsOf g all
            ≡ₚ seqZ 1 (Z.of_nat (length (locsOf g all)))).
Proof.
  intros Hnd Halloc. eexists. split; [|split; [reflexivity|]].
  - unfold rankWithinGroups.
    rewrite (rankGroups_spec all (evaluationsByTranscript all) (heap w)
               (evaluationsByTranscript_elem all)).
    reflexivity.
  - destruct (rankAll_spec all Hnd _ (heap w) (evaluationsByTranscript_keys all) Halloc)
      as (Hl & _ & Hs & Hp).
    split; [done|]. split; [done|].
    intros g. destruct (decide (g ∈ (evaluationsByTranscript all).*1)) as [Hg|Hg].
    + by apply Hp.
    + by rewrite (absent_group_empty all g Hg).
Qed.

End rank_within.

(** ** Runs of the orchestrator *)

Section runs.
Import Orchestrator Runs.
Variable env : Env.

Lemma attempt_eq delay (task : Task) evs w :
  attempt env delay (task_transcriptName task) (task_transcriptContent task)
    (task_noteFile task) (evs, w)
  = match judge env (calls w) (promptOf task) with
    | Threw _ =>
        (false, (evs, {| heap := heap w; calls := S (calls w);
                         trace := trace w ++ [Judged (promptOf task)] |}))
    | Returned r =>
        (true, (evs ++ [evaluationOf env (calls w) task (length (heap w))],
                {| heap := heap w ++ [set_overallRanking 0 r]; calls := S (calls w);
                   trace := (trace w ++ [Judged (promptOf task)]) ++ [Delayed delay] |}))
    end.
Proof.
  unfold attempt, evaluateDentalNotes, promptOf. simpl.
  by destruct (judge env (calls w) _).
Qed.

Lemma run_spec delay tasks evs w :
  foldl (runTask env delay) (evs, w) tasks
  = (evs ++ newEvaluations env (calls w) (length (heap w)) tasks,
     {| heap := heap w ++ newRecords env (calls w) tasks;
        calls := calls w + length tasks;
        trace := trace w ++ newTrace env delay (calls w) tasks |}).
Proof.
  revert evs w. induction tasks as [|task tasks IH]; intros evs w.
  { simpl. rewrite !app_nil_r, Nat.add_0_r. by destruct w. }
  cbn [foldl]. unfold runTask at 2. rewrite attempt_eq.
  cbn [newEvaluations newRecords newTrace length].
  destruct (judge env (calls w) (promptOf task)) as [m|r]; cbn [snd];
    rewrite IH; cbn [heap calls trace].
  - f_equal. f_equal; try lia. by rewrite <- app_assoc.
  - rewrite length_app, Nat.add_1_r, <- !app_assoc. f_equal.
    f_equal; try lia; done.
Qed.

Lemma newEvaluations_results n hl tasks :
  results <$> newEvaluations env n hl tasks
  = seq hl (length (newRecords env n tasks)).
Proof.
  revert n hl. induction tasks as [|task tasks IH]; intros n hl; simpl; [done|].
  destruct (judge env n (promptOf task)); simpl; [done|]. by rewrite IH.
Qed.

Lemma newEvaluations_length n hl tasks :
  length (newEvaluations env n hl tasks) = length (newRecords env n tasks).
Proof.
  rewrite <- (length_fmap results), newEvaluations_results. apply length_seq.
Qed.

Lemma newEvaluations_tasks n hl tasks :
  taskOf <$> newEvaluations env n hl tasks = Some <$> succeeded env n tasks.
Proof.
  revert n hl. induction tasks as [|task tasks IH]; intros n hl; simpl; [done|].
  destruct (judge env n (promptOf task)); simpl; [done|]. rewrite IH. f_equal.
  by destruct task as [? ? []].
Qed.

Lemma newTrace_judged delay n tasks :
  judged (newTrace env delay n tasks) = promptOf <$> tasks.
Proof.
  revert n. induction tasks as [|task tasks IH]; intros n; simpl; [done|].
  destruct (judge env n (promptOf task)); simpl; by rewrite IH.
Qed.

Lemma newTrace_delays delay n tasks :
  delays (newTrace env delay n tasks)
  = replicate (length (newRecords env n tasks)) delay.
Proof.
  revert n. induction tasks as [|task tasks IH]; intros n; simpl; [done|].
  destruct (judge env n (promptOf task)); simpl; by rewrite IH.
Qed.

Lemma judged_app t1 t2 : judged (t1 ++ t2) = judged t1 ++ judged t2.
Proof. apply omap_app. Qed.

Lemma delays_app t1 t2 : delays (t1 ++ t2) = delays t1 ++ delays t2.
Proof. apply omap_app. Qed.

(** *** Enumeration *)

Lemma collectGroup_app acc entry : collectGroup acc entry = acc ++ tasksOf entry.
Proof.
  destruct entry as [transcriptName group]. unfold collectGroup, tasksOf. simpl.
  destruct (transcript group) as [c|]; [|by rewrite app_nil_r].
  generalize (notes group). intros l. revert acc.
  induction l as [|nf l IH]; intros acc; simpl; [by rewrite app_nil_r|].
  by rewrite IH, <- app_assoc.
Qed.

Lemma collect_flat acc entries :
  foldl collectGroup acc entries = acc ++ (entries ≫= tasksOf).
Proof.
  revert acc. induction entries as [|entry entries IH]; intros acc; simpl.
  - by rewrite app_nil_r.
  - by rewrite IH, collectGroup_app, <- app_assoc.
Qed.

Lemma collectTasks_flat batchData :
  collectTasks batchData = structure batchData ≫= tasksOf.
Proof. apply (collect_flat []). Qed.

Lemma tasksOf_length entry : (length (tasksOf entry) ≤ length (notes entry.2))%nat.
Proof.
  unfold tasksOf. destruct (transcript entry.2); [by rewrite length_fmap|simpl; lia].
Qed.

Lemma totalFiles_from acc entries :
  foldl (fun sum entry => (sum + length (notes entry.2))%nat) acc entries
  = (acc + sum_list ((fun entry : string * Group => length (notes entry.2)) <$> entries))%nat.
Proof.
  revert acc. induction entries as [|entry entries IH]; intros acc; simpl; [lia|].
  rewrite IH, <- Nat.add_assoc. reflexivity.
Qed.

Lemma totalFilesOf_sum batchData :
  totalFilesOf batchData = sum_list ((fun entry : string * Group => length (notes entry.2)) <$> structure batchData).
Proof. apply (totalFiles_from 0). Qed.

Lemma collectTasks_le batchData :
  (length (collectTasks batchData) ≤ totalFilesOf batchData)%nat.
Proof.
  rewrite collectTasks_flat, totalFilesOf_sum.
  induction (structure batchData) as [|entry entries IH]; [done|].
  rewrite fmap_cons, bind_cons, length_app. pose proof (tasksOf_length entry).
  change (sum_list (?x :: ?l)) with (x + sum_list l)%nat.
  by apply Nat.add_le_mono.
Qed.

(** *** The in-memory path *)

Lemma inMemoryGroup_run st entry :
  inMemoryGroup env st entry = foldl (runTask env 1000) st (tasksOf entry).
Proof.
  destruct entry as [transcriptName group]. unfold inMemoryGroup, tasksOf. simpl.
  destruct (transcript group) as [c|]; [|done].
  generalize (notes group). intros l. revert st.
  induction l as [|nf l IH]; intros st; simpl; [done|]. by rewrite IH.
Qed.

Lemma inMemory_run st entries :
  foldl (inMemoryGroup env) st entries
  = foldl (runTask env 1000) st (entries ≫= tasksOf).
Proof.
  revert st. induction entries as [|entry entries IH]; intros st; simpl; [done|].
  by rewrite IH, inMemoryGroup_run, foldl_app.
Qed.

(** *** The chunked path *)

Lemma chunkLoop_run fuel chunkSize i allTasks st :
  (0 < chunkSize)%nat → (length allTasks - i < fuel)%nat →
  chunkLoop fuel env chunkSize i allTasks st
  = Some (foldl (runTask env 100) st (drop i allTasks)).
Proof.
  intros Hpos. revert i st. induction fuel as [|fuel IH]; intros i st Hfuel; [lia|].
  simpl. destruct (decide (i < length allTasks)%nat) as [Hi|Hi].
  - rewrite IH by lia. f_equal. unfold JS.slice.
    replace (i + chunkSize - i)%nat with chunkSize by lia.
    rewrite <- foldl_app. f_equal.
    rewrite <- (take_drop chunkSize (drop i allTasks)) at 2.
    by rewrite drop_drop.
  - by rewrite drop_ge by lia.
Qed.

End runs.

(** ** The three paths end in the same ranking pass *)

Section paths.
Import Orchestrator Runs.
Variable env : Env.

(** The ranking pass reads and writes the evaluations and the store only. *)
Lemma rankWithinGroups_eq all w :
  rankWithinGroups (all, w)
  = let st := foldl (fun st group => rankGroup group.2 st) (all, heap w)
                (evaluationsByTranscript all) in
    (st.1, {| heap := st.2; calls := calls w; trace := trace w |}).
Proof.
  unfold rankWithinGroups.
  by destruct (foldl _ (all, heap w) (evaluationsByTranscript all)).
Qed.

Lemma inMemory_eq batchData w :
  evaluateBatchInMemory env batchData w
  = rankWithinGroups (foldl (runTask env 1000) ([], w) (collectTasks batchData)).
Proof.
  unfold evaluateBatchInMemory. by rewrite inMemory_run, collectTasks_flat.
Qed.

Lemma inChunks_eq batchData chunkSize w :
  (0 < chunkSize)%nat →
  evaluateBatchInChunks env batchData chunkSize w
  = Some (rankWithinGroups (foldl (runTask env 100) ([], w) (collectTasks batchData))).
Proof.
  intros Hpos. unfold evaluateBatchInChunks.
  rewrite (chunkLoop_run env _ chunkSize 0) by (done || lia). done.
Qed.

(** The evaluations collected by a run from an empty [allEvaluations] refer
    to distinct records, all in the store. *)
Lemma run_results_NoDup n hl tasks :
  NoDup (results <$> newEvaluations env n hl tasks).
Proof. rewrite newEvaluations_results. apply NoDup_seq. Qed.

Lemma run_results_alloc n (h : list EvaluationResults) tasks e :
  e ∈ newEvaluations env n (length h) tasks →
  (results e < length (h ++ newRecords env n tasks))%nat.
Proof.
  intros He. apply (list_elem_of_fmap_2 results) in He.
  rewrite newEvaluations_results in He. apply list_elem_of_lookup_1 in He as [i Hi].
  apply lookup_seq in Hi as [-> Hi]. rewrite length_app. lia.
Qed.

Lemma succeeded_one_failure tasks n K :
  (K < length tasks)%nat →
  (∀ k task, tasks !! k = Some task →
     (∃ message, judge env (n + k) (promptOf task) = Threw message) ↔ k = K) →
  succeeded env n tasks = delete K tasks.
Proof.
  revert n K. induction tasks as [|task tasks IH]; intros n K HK H; [simpl in HK; lia|].
  simpl. pose proof (H 0%nat task eq_refl) as H0. rewrite Nat.add_0_r in H0.
  assert (∀ K', (∀ k task',
             tasks !! k = Some task' →
             (∃ message, judge env (S n + k) (promptOf task') = Threw message)
             ↔ S k = K') →
          ∀ k task', tasks !! k = Some task' →
             (∃ message, judge env (n + S k) (promptOf task') = Threw message)
             ↔ S k = K') as Hshift.
  { intros K' H' k task' Hk. replace (n + S k)%nat with (S n + k)%nat by lia. by apply H'. }
  destruct (judge env n (promptOf task)) as [m|r] eqn:E.
  - assert (K = 0)%nat as -> by (symmetry; apply H0; eauto).
    simpl. clear IH H0 HK E.
    assert (∀ k task', tasks !! k = Some task' →
              ∀ message, judge env (S n + k) (promptOf task') ≠ Threw message) as Hok.
    { intros k task' Hk message Hm.
      assert (S k = 0)%nat; [|lia]. apply (H (S k) task' Hk).
      exists message. by replace (n + S k)%nat with (S n + k)%nat by lia. }
    clear H Hshift. revert Hok. generalize (S n). intros n'.
    revert n'. induction tasks as [|task' tasks IH]; intros n' Hok; simpl; [done|].
    destruct (judge env n' (promptOf task')) as [m'|r'] eqn:E'.
    + exfalso. apply (Hok 0%nat task' eq_refl m'). by rewrite Nat.add_0_r.
    + f_equal. apply IH. intros k t Hk message.
      replace (S n' + k)%nat with (n' + S k)%nat by lia. by apply (Hok (S k) t).
  - destruct K as [|K].
    + exfalso. destruct H0 as [_ H0]. destruct (H0 eq_refl) as [m Hm]. congruence.
    + simpl. f_equal. apply IH; [simpl in HK; lia|].
      intros k task' Hk. replace (S n + k)%nat with (n + S k)%nat by lia.
      rewrite (H (S k) task' Hk). lia.
Qed.

Lemma taskOf_group_length (evs : list Evaluation) (tasks : list Task) g :
  taskOf <$> evs = Some <$> tasks →
  length (locsOf g evs) = length (filter (fun t => task_transcriptName t = g) tasks).
Proof.
  unfold locsOf. rewrite length_fmap. revert tasks.
  induction evs as [|e evs IH]; intros [|t tasks] H; try done.
  rewrite !fmap_cons in H. injection H as Ht H.
  rewrite !filter_cons. specialize (IH tasks H).
  assert (transcriptName e = task_transcriptName t) as <-.
  { unfold taskOf in Ht. destruct (transcriptContent e), (noteContent e); simpl in Ht;
      try done. by injection Ht as <-. }
  destruct (decide (transcriptName e = g)); simpl; by rewrite IH.
Qed.

Lemma filter_delete_length {A} (P : A → Prop) `{∀ x, Decision (P x)} (l : list A) K x :
  l !! K = Some x →
  length (filter P (delete K l))
  = (length (filter P l) - (if decide (P x) then 1 else 0))%nat.
Proof.
  revert K. induction l as [|y l IH]; intros K HK; [done|].
  destruct K as [|K]; simpl in HK.
  - injection HK as ->. simpl. rewrite filter_cons.
    destruct (decide (P x)); simpl; lia.
  - simpl. rewrite !filter_cons. specialize (IH K HK).
    destruct (decide (P y)); simpl; [|done]. rewrite IH.
    destruct (decide (P x)); [|lia].
    assert (0 < length (filter P l))%nat; [|lia].
    assert (x ∈ filter P l) as Hin.
    { apply list_elem_of_filter. split; [done|]. by eapply list_elem_of_lookup_2. }
    destruct (filter P l); [by apply elem_of_nil in Hin|simpl; lia].
Qed.

End paths.

(** C9. With the judge's outcomes, the clock and the identifiers fixed call
    by call, the chunked path (for any chunk size it ends with) and the
    in-memory path return the same evaluations in the same order and leave
    the same store, rankings included; they send the same prompts in the
    same order.  Only the delays differ. *)
Theorem chunks_agree_with_in_memory
    (env : Orchestrator.Env) (batchData : Orchestrator.BatchData)
    (chunkSize : nat) (w : Orchestrator.World) :
  (0 < chunkSize)%nat →
  ∃ evaluations wc wm,
    Orchestrator.evaluateBatchInChunks env batchData chunkSize w = Some (evaluations, wc)
    ∧ Orchestrator.evaluateBatchInMemory env batchData w = (evaluations, wm)
    ∧ Orchestrator.heap wc = Orchestrator.heap wm
    ∧ Orchestrator.calls wc = Orchestrator.calls wm
    ∧ Orchestrator.judged (Orchestrator.trace wc)
      = Orchestrator.judged (Orchestrator.trace wm).
Proof.
  intros Hpos. rewrite (inChunks_eq env batchData chunkSize w Hpos), inMemory_eq.
  rewrite !run_spec, !rankWithinGroups_eq. cbn [Orchestrator.heap Orchestrator.calls Orchestrator.trace].
  eexists _, _, _. split; [reflexivity|]. split; [reflexivity|].
  cbn [Orchestrator.heap Orchestrator.calls Orchestrator.trace].
  split; [done|]. split; [done|].
  by rewrite !judged_app, !newTrace_judged.
Qed.

Lemma chunks_agree_with_in_memory_witness :
  (0 < 2)%nat
  ∧ ∃ evaluations wc wm,
      Orchestrator.evaluateBatchInChunks sampleEnv sampleBatch 2 Orchestrator.emptyWorld
      = Some (evaluations, wc)
      ∧ Orchestrator.evaluateBatchInMemory sampleEnv sampleBatch Orchestrator.emptyWorld
        = (evaluations, wm)
      ∧ Orchestrator.heap wc = Orchestrator.heap wm.
Proof.
  split; [lia|].
  destruct (chunks_agree_with_in_memory sampleEnv sampleBatch 2 Orchestrator.emptyWorld)
    as (evaluations & wc & wm & H1 & H2 & H3 & _); [lia|].
  exists evaluations, wc, wm. split; [exact H1|]. split; [exact H2|exact H3].
Defined.


(** ** The partial path *)

Section partial.
Import Orchestrator Runs.
Variable env : Env.
Variable maxFiles : nat.

Lemma cappedStep_run task st :
  run (cappedStep env task st) = runTask env 100 (run st) task.
Proof.
  unfold cappedStep, runTask.
  by destruct (attempt env 100 _ _ _ (run st)).
Qed.

Lemma cappedStep_filesProcessed task st :
  filesProcessed (cappedStep env task st)
  = match judge env (calls (run st).2) (promptOf task) with
    | Threw _ => filesProcessed st
    | Returned _ => S (filesProcessed st)
    end.
Proof.
  unfold cappedStep. destruct st as [[evs w] fp]. cbn [run].
  rewrite attempt_eq. cbn [snd]. by destruct (judge env (calls w) (promptOf task)).
Qed.

Lemma cappedStep_calls task st :
  calls (run (cappedStep env task st)).2 = S (calls (run st).2).
Proof.
  rewrite cappedStep_run. destruct st as [[evs w] fp]. cbn [run].
  unfold runTask. rewrite attempt_eq. cbn [snd].
  by destruct (judge env (calls w) (promptOf task)).
Qed.

Lemma capped_done tasks st :
  (maxFiles ≤ filesProcessed st)%nat → cappedRun env maxFiles tasks st = st.
Proof. intros H. destruct tasks; simpl; [done|]. by rewrite decide_True. Qed.

Lemma cappedStep_mono task st :
  (filesProcessed st ≤ filesProcessed (cappedStep env task st))%nat.
Proof.
  rewrite cappedStep_filesProcessed. destruct (judge env _ _); lia.
Qed.

Lemma cappedRun_mono tasks st :
  (filesProcessed st ≤ filesProcessed (cappedRun env maxFiles tasks st))%nat.
Proof.
  revert st. induction tasks as [|task tasks IH]; intros st; simpl; [done|].
  destruct (decide (maxFiles ≤ filesProcessed st)%nat); [done|].
  etrans; [apply (cappedStep_mono task)|apply IH].
Qed.

Lemma cappedRun_app tasks1 tasks2 st :
  cappedRun env maxFiles (tasks1 ++ tasks2) st
  = cappedRun env maxFiles tasks2 (cappedRun env maxFiles tasks1 st).
Proof.
  revert st. induction tasks1 as [|task tasks1 IH]; intros st; simpl; [done|].
  destruct (decide (maxFiles ≤ filesProcessed st)%nat); [|apply IH].
  by rewrite capped_done.
Qed.

Lemma partialNotes_capped transcriptName transcriptContent noteFiles st :
  partialNotes env maxFiles transcriptName transcriptContent noteFiles st
  = cappedRun env maxFiles
      ((fun noteFile => {| task_transcriptName := transcriptName;
                           task_transcriptContent := transcriptContent;
                           task_noteFile := noteFile |}) <$> noteFiles) st.
Proof.
  revert st. induction noteFiles as [|noteFile rest IH]; intros st; simpl; [done|].
  destruct (decide (maxFiles ≤ filesProcessed st)%nat); [done|].
  rewrite <- IH. unfold cappedStep. simpl.
  by destruct (attempt env 100 _ _ _ (run st)).
Qed.

Lemma partialGroups_capped entries st :
  partialGroups env maxFiles entries st
  = cappedRun env maxFiles (entries ≫= tasksOf) st.
Proof.
  revert st. induction entries as [|[transcriptName group] entries IH]; intros st;
    [done|].
  rewrite bind_cons, cappedRun_app. cbn [partialGroups].
  destruct (decide (maxFiles ≤ filesProcessed st)%nat) as [Hcap|Hcap].
  { rewrite (capped_done (tasksOf _) st Hcap). by rewrite (capped_done _ st Hcap). }
  rewrite <- IH. unfold tasksOf. cbn [fst snd].
  destruct (transcript group) as [c|]; [|done].
  by rewrite partialNotes_capped.
Qed.

(** A capped run is a run over the tasks it attempts, a prefix of the
    enumeration. *)
Lemma cappedRun_prefix tasks st :
  let m := attempted env maxFiles (calls (run st).2) (filesProcessed st) tasks in
  cappedRun env maxFiles tasks st
  = {| run := foldl (runTask env 100) (run st) (take m tasks);
       filesProcessed :=
         filesProcessed st + length (newRecords env (calls (run st).2) (take m tasks)) |}.
Proof.
  revert st. induction tasks as [|task tasks IH]; intros st m; subst m.
  { cbn [attempted take foldl cappedRun newRecords length].
    rewrite Nat.add_0_r. by destruct st. }
  cbn [cappedRun attempted].
  destruct (decide (maxFiles ≤ filesProcessed st)%nat).
  { cbn [take foldl newRecords length]. rewrite Nat.add_0_r. by destruct st. }
  pose proof (IH (cappedStep env task st)) as IH'. cbv zeta in IH'. rewrite IH'.
  rewrite !cappedStep_calls, cappedStep_filesProcessed, cappedStep_run.
  destruct (judge env (calls (run st).2) (promptOf task)) as [msg|r] eqn:E;
    cbn [take foldl newRecords length]; rewrite E; [done|].
  f_equal. cbn [length]. lia.
Qed.

Lemma attempted_le n fp tasks : (attempted env maxFiles n fp tasks ≤ length tasks)%nat.
Proof.
  revert n fp. induction tasks as [|task tasks IH]; intros n fp; simpl; [done|].
  destruct (decide (maxFiles ≤ fp)%nat); [lia|].
  destruct (judge env n (promptOf task)); specialize (IH (S n)); [specialize (IH fp)|specialize (IH (S fp))]; lia.
Qed.

Lemma attempted_cap n fp tasks :
  (fp ≤ maxFiles)%nat →
  let m := attempted env maxFiles n fp tasks in
  let pushed := length (newRecords env n (take m tasks)) in
  (fp + pushed ≤ maxFiles)%nat ∧ (m = length tasks ∨ (fp + pushed)%nat = maxFiles).
Proof.
  revert n fp. induction tasks as [|task tasks IH]; intros n fp Hfp; simpl.
  { split; [lia|by left]. }
  destruct (decide (maxFiles ≤ fp)%nat); simpl.
  { split; [lia|right; lia]. }
  destruct (judge env n (promptOf task)) eqn:E; simpl; rewrite E.
  - destruct (IH (S n) fp Hfp) as [H1 H2]. split; [done|]. destruct H2; [left|right]; lia.
  - destruct (IH (S n) (S fp)) as [H1 H2]; [lia|]. simpl.
    split; [lia|]. destruct H2; [left|right]; lia.
Qed.

Lemma attempted_all_succeed n fp tasks :
  (∀ k task, tasks !! k = Some task → (fp + k < maxFiles)%nat →
     ∃ r, judge env (n + k) (promptOf task) = Returned r) →
  attempted env maxFiles n fp tasks = ((maxFiles - fp) `min` length tasks)%nat.
Proof.
  revert n fp. induction tasks as [|task tasks IH]; intros n fp H; simpl; [lia|].
  destruct (decide (maxFiles ≤ fp)%nat); [lia|].
  destruct (H 0%nat task eq_refl) as [r Hr]; [lia|]. rewrite Nat.add_0_r in Hr.
  rewrite Hr, IH; [lia|].
  intros k t Hk Hlt. replace (S n + k)%nat with (n + S k)%nat by lia.
  apply (H (S k) t Hk). lia.
Qed.

End partial.

Section post.
Import Orchestrator Runs.
Variable env : Env.

Lemma partial_eq batchData maxFiles w :
  let tasks := collectTasks batchData in
  let m := attempted env maxFiles (calls w) 0 tasks in
  evaluatePartialBatch env batchData maxFiles w
  = rankWithinGroups (foldl (runTask env 100) ([], w) (take m tasks)).
Proof.
  unfold evaluatePartialBatch.
  rewrite partialGroups_capped, cappedRun_prefix, <- collectTasks_flat. done.
Qed.

End post.

Section post_runs.
Import Orchestrator Runs.
Variable env : Env.

(** What a path returns, as a run over the tasks it attempts followed by the
    ranking pass. *)
Lemma ranked_run delay tasks w :
  ∃ h', rankWithinGroups (foldl (runTask env delay) ([], w) tasks)
        = (newEvaluations env (calls w) (length (heap w)) tasks,
           {| heap := h'; calls := calls w + length tasks;
              trace := trace w ++ newTrace env delay (calls w) tasks |}).
Proof.
  rewrite run_spec, app_nil_l.
  destruct (rankWithinGroups_spec
              (newEvaluations env (calls w) (length (heap w)) tasks)
              {| heap := heap w ++ newRecords env (calls w) tasks;
                 calls := calls w + length tasks;
                 trace := trace w ++ newTrace env delay (calls w) tasks |})
    as (h' & Hr & _).
  - apply run_results_NoDup.
  - intros e He. by apply run_results_alloc.
  - exists h'. exact Hr.
Qed.

End post_runs.

(** The partial path of [POST], as the code has it.  When the notes of the
    structure number more than 100, [POST] answers with [isPartial: true],
    [totalFiles] and [processedFiles], the latter being the number of
    evaluations returned and at most 50.  The tasks sent to the judge are a prefix of the
    enumeration; the run goes on until 50 evaluations have succeeded or the
    tasks are exhausted, failed calls not counting towards the 50; when none
    of the first 50 tasks fails, the tasks sent are exactly the first
    min(50, number of tasks). *)
Theorem partial_cap
    (env : Orchestrator.Env) (batchData : Orchestrator.BatchData) (w : Orchestrator.World) :
  (100 < Orchestrator.totalFilesOf batchData)%nat →
  ∃ evaluations w' message m,
    Orchestrator.POST env batchData w
    = Some (Orchestrator.PartialResponse true evaluations true
              (Orchestrator.totalFilesOf batchData) (length evaluations) message, w')
    ∧ (length evaluations ≤ 50)%nat
    ∧ Orchestrator.judged (Orchestrator.trace w')
      = Orchestrator.judged (Orchestrator.trace w)
        ++ (Orchestrator.promptOf <$> take m (Orchestrator.collectTasks batchData))
    ∧ Runs.taskOf <$> evaluations
      = Some <$> Runs.succeeded env (Orchestrator.calls w)
                   (take m (Orchestrator.collectTasks batchData))
    ∧ (m ≤ length (Orchestrator.collectTasks batchData))%nat
    ∧ (m = length (Orchestrator.collectTasks batchData) ∨ length evaluations = 50%nat)
    ∧ ((∀ k task, Orchestrator.collectTasks batchData !! k = Some task → (k < 50)%nat →
          ∃ r, Orchestrator.judge env (Orchestrator.calls w + k) (Orchestrator.promptOf task)
               = Orchestrator.Returned r) →
       m = (50 `min` length (Orchestrator.collectTasks batchData))%nat).
Proof.
  intros Hbig. unfold Orchestrator.POST. rewrite decide_True by done.
  rewrite partial_eq.
  set (tasks := Orchestrator.collectTasks batchData).
  set (m := Runs.attempted env 50 (Orchestrator.calls w) 0 tasks).
  destruct (ranked_run env 100 (take m tasks) w) as (h' & ->).
  eexists _, _, _, m. split; [reflexivity|].
  destruct (attempted_cap env 50 (Orchestrator.calls w) 0 tasks) as [Hcap Hstop]; [lia|].
  fold m in Hcap, Hstop. simpl in Hcap, Hstop.
  rewrite newEvaluations_length.
  split; [done|]. cbn [Orchestrator.trace].
  split; [by rewrite judged_app, newTrace_judged|].
  split; [apply newEvaluations_tasks|].
  split; [apply attempted_le|]. split; [done|].
  intros Hok. unfold m. rewrite attempted_all_succeed; [done|].
  intros k task Hk Hlt. apply Hok; [done|lia].
Qed.

Lemma partial_cap_witness :
  (100 < Orchestrator.totalFilesOf sampleBigBatch)%nat
  ∧ ∃ evaluations w' message,
      Orchestrator.POST sampleEnvFirstFails sampleBigBatch Orchestrator.emptyWorld
      = Some (Orchestrator.PartialResponse true evaluations true 101
                (length evaluations) message, w')
      ∧ (length evaluations ≤ 50)%nat.
Proof.
  assert (100 < Orchestrator.totalFilesOf sampleBigBatch)%nat as Hbig.
  { vm_compute. lia. }
  split; [exact Hbig|].
  destruct (partial_cap sampleEnvFirstFails sampleBigBatch Orchestrator.emptyWorld Hbig)
    as (evaluations & w' & message & m & Hr & Hle & _).
  exists evaluations, w', message. split; [exact Hr|exact Hle].
Defined.

(** C2. The code at the failing input: with 101 tasks of which the first
    fails, the orchestrator sends 51 tasks to the judge, not the first
    min(50, 101), although its comments and its message speak of the first
    50 files: the counter of processed files moves on a success only. *)
Lemma partial_cap_counts_successes :
  Orchestrator.totalFilesOf sampleBigBatch = 101%nat
  ∧ length (Orchestrator.collectTasks sampleBigBatch) = 101%nat
  ∧ ∃ response w',
      Orchestrator.POST sampleEnvFirstFails sampleBigBatch Orchestrator.emptyWorld
      = Some (response, w')
      ∧ length (Orchestrator.judged (Orchestrator.trace w')) = 51%nat
      ∧ Orchestrator.judged (Orchestrator.trace w')
        = Orchestrator.promptOf <$> take 51 (Orchestrator.collectTasks sampleBigBatch)
      ∧ Runs.taskOf <$> evaluationsOf response
        = Some <$> drop 1 (take 51 (Orchestrator.collectTasks sampleBigBatch))
      ∧ ∃ message,
          response
          = Orchestrator.PartialResponse true (evaluationsOf response) true 101 50 message.
Proof.
  split; [reflexivity|]. split; [reflexivity|].
  eexists _, _. split; [vm_compute; reflexivity|]. split; [reflexivity|].
  split; [vm_compute; reflexivity|]. split; [vm_compute; reflexivity|].
  eexists. reflexivity.
Qed.

(** C4, as the code has it.  The strategy is chosen from [totalFiles], the
    number of note files of all the entries of the structure, those of
    entries without a transcript included, although the enumeration skips
    them.  Up to 5 files: the in-memory path, every task in turn, 1000 ms
    after each evaluation; more than 5 and up to 100: the chunked path with
    chunks of 5, every task in turn, 100 ms after each evaluation; more than
    100: the partial path capped at 50. *)
Theorem strategy_by_total_files
    (env : Orchestrator.Env) (batchData : Orchestrator.BatchData) (w : Orchestrator.World) :
  Orchestrator.totalFilesOf batchData
  = sum_list ((fun entry : string * Orchestrator.Group =>
                 length (Orchestrator.notes entry.2))
              <$> Orchestrator.structure batchData)
  ∧ (length (Orchestrator.collectTasks batchData)
     ≤ Orchestrator.totalFilesOf batchData)%nat
  ∧ ((Orchestrator.totalFilesOf batchData ≤ 5)%nat →
     ∃ evaluations w',
       Orchestrator.evaluateBatchInMemory env batchData w = (evaluations, w')
       ∧ Orchestrator.POST env batchData w
         = Some (Orchestrator.BatchResponse true evaluations, w')
       ∧ Orchestrator.judged (Orchestrator.trace w')
         = Orchestrator.judged (Orchestrator.trace w)
           ++ (Orchestrator.promptOf <$> Orchestrator.collectTasks batchData)
       ∧ Orchestrator.delays (Orchestrator.trace w')
         = Orchestrator.delays (Orchestrator.trace w)
           ++ replicate (length evaluations) 1000)
  ∧ ((5 < Orchestrator.totalFilesOf batchData ≤ 100)%nat →
     ∃ evaluations w',
       Orchestrator.evaluateBatchInChunks env batchData 5 w = Some (evaluations, w')
       ∧ Orchestrator.POST env batchData w
         = Some (Orchestrator.BatchResponse true evaluations, w')
       ∧ Orchestrator.judged (Orchestrator.trace w')
         = Orchestrator.judged (Orchestrator.trace w)
           ++ (Orchestrator.promptOf <$> Orchestrator.collectTasks batchData)
       ∧ Orchestrator.delays (Orchestrator.trace w')
         = Orchestrator.delays (Orchestrator.trace w)
           ++ replicate (length evaluations) 100)
  ∧ ((100 < Orchestrator.totalFilesOf batchData)%nat →
     ∃ evaluations w' message,
       Orchestrator.evaluatePartialBatch env batchData 50 w = (evaluations, w')
       ∧ Orchestrator.POST env batchData w
         = Some (Orchestrator.PartialResponse true evaluations true
                   (Orchestrator.totalFilesOf batchData) (length evaluations) message,
                 w')).
Proof.
  split; [apply totalFilesOf_sum|]. split; [apply collectTasks_le|].
  split; [|split].
  - intros Hsmall. unfold Orchestrator.POST.
    rewrite decide_False by lia. rewrite decide_False by lia.
    rewrite inMemory_eq.
    destruct (ranked_run env 1000 (Orchestrator.collectTasks batchData) w) as (h' & ->).
    eexists _, _. split; [reflexivity|]. split; [reflexivity|].
    cbn [Orchestrator.trace].
    rewrite judged_app, delays_app, newTrace_judged, newTrace_delays,
      newEvaluations_length. done.
  - intros Hmedium. unfold Orchestrator.POST.
    rewrite decide_False by lia. rewrite decide_True by lia.
    rewrite inChunks_eq by lia.
    destruct (ranked_run env 100 (Orchestrator.collectTasks batchData) w) as (h' & ->).
    eexists _, _. split; [reflexivity|]. split; [reflexivity|].
    cbn [Orchestrator.trace].
    rewrite judged_app, delays_app, newTrace_judged, newTrace_delays,
      newEvaluations_length. done.
  - intros Hbig. unfold Orchestrator.POST. rewrite decide_True by done.
    destruct (Orchestrator.evaluatePartialBatch env batchData 50 w) as [evaluations w'].
    by eexists _, _, _.
Qed.

(** C4, as stated, fails: three tasks are enumerated, the three notes of
    the entry without a transcript being skipped, yet the six files select
    the chunked path, which sleeps 100 ms after each evaluation. *)
Lemma strategy_counts_skipped_files :
  length (Orchestrator.collectTasks sampleBatchWithoutTranscript) = 3%nat
  ∧ ∃ response w',
      Orchestrator.POST sampleEnvAllSucceed sampleBatchWithoutTranscript
        Orchestrator.emptyWorld = Some (response, w')
      ∧ Orchestrator.delays (Orchestrator.trace w') = [100; 100; 100].
Proof.
  split; [reflexivity|].
  eexists _, _. split; [vm_compute; reflexivity|]. reflexivity.
Qed.

(** ** The judge client *)

Section judge.
Import Judge.
Variable JSON_parse : string → string + jsval.
Variable now : nat → Z.

Lemma prop_defined v key :
  v ≠ VNull → v ≠ VUndefined → ∃ x, prop v key = inr x.
Proof. intros H1 H2. destruct v; simpl; eauto; done. Qed.

Lemma convertFalsehood_defined index f :
  f ≠ VNull → f ≠ VUndefined →
  ∃ r, convertFalsehood now index f = inr r
       ∧ prop f "description" = inr (description r)
       ∧ prop f "severity" = inr (severity r)
       ∧ prop f "location" = inr (location r)
       ∧ prop f "correction" = inr (correction r).
Proof.
  intros H1 H2. unfold convertFalsehood.
  destruct (prop_defined f "description" H1 H2) as [d ->].
  destruct (prop_defined f "severity" H1 H2) as [s ->].
  destruct (prop_defined f "location" H1 H2) as [l ->].
  destruct (prop_defined f "correction" H1 H2) as [c ->].
  simpl. eexists. split; [reflexivity|]. by repeat split.
Qed.

Lemma mapFrom_defined index elements :
  Forall (fun f => f ≠ VNull ∧ f ≠ VUndefined) elements →
  ∃ fs, mapFrom index (convertFalsehood now) elements = inr fs
        ∧ length fs = length elements.
Proof.
  intros H. revert index. induction H as [|f elements [H1 H2] _ IH]; intros index; simpl.
  { by exists []. }
  destruct (convertFalsehood_defined index f H1 H2) as (r & -> & _).
  destruct (IH (S index)) as (fs & -> & Hlen). simpl.
  exists (r :: fs). split; [done|]. simpl. by rewrite Hlen.
Qed.

Lemma mapFalsehoods_not_array v :
  (∀ elements, v ≠ VArray elements) → ∃ cause, mapFalsehoods now v = inl cause.
Proof. intros H. destruct v; simpl; eauto. by destruct (H elements). Qed.

Lemma evaluate_error completion message :
  evaluateDentalNotes JSON_parse now completion = inl message →
  ∃ cause, message = "OpenAI-eval-error: " +:+ cause.
Proof.
  unfold evaluateDentalNotes. destruct completion as [m|response].
  - intros [= <-]. eauto.
  - destruct (convert JSON_parse now response) as [m|r]; [|done].
    intros [= <-]. eauto.
Qed.

Lemma evaluate_object text properties :
  text ≠ EmptyString →
  JSON_parse text = inr (VObject properties) →
  evaluateDentalNotes JSON_parse now (Completed (Some text))
  = match mapFalsehoods now (assoc "falsehoods" properties) with
    | inl cause => inl ("OpenAI-eval-error: " +:+ cause)
    | inr fs =>
        inr {| detailScore :=
                 {| score := assoc "detailScore" properties;
                    explanation := assoc "detailExplanation" properties;
                    examples := assoc "detailExamples" properties |};
               truthfulnessScore :=
                 {| score := assoc "truthfulnessScore" properties;
                    explanation := assoc "truthfulnessExplanation" properties;
                    examples := assoc "truthfulnessExamples" properties |};
               falsehoods := fs;
               summary := assoc "summary" properties;
               overallRanking := 0 |}
    end.
Proof.
  intros Hne Hparse. unfold evaluateDentalNotes, convert.
  rewrite decide_False by done. rewrite Hparse. simpl.
  by destruct (mapFalsehoods now (assoc "falsehoods" properties)).
Qed.

(** A property read fails on [null] and [undefined] only. *)
Lemma prop_error v key cause :
  prop v key = inl cause → v = VNull ∨ v = VUndefined.
Proof. destruct v; simpl; intros H; try discriminate H; auto. Qed.

Lemma convertFalsehood_success index f r :
  convertFalsehood now index f = inr r →
  f ≠ VNull ∧ f ≠ VUndefined
  ∧ prop f "description" = inr (description r)
  ∧ prop f "severity" = inr (severity r)
  ∧ prop f "location" = inr (location r)
  ∧ prop f "correction" = inr (correction r).
Proof.
  unfold convertFalsehood. intros H.
  destruct (prop f "description") as [m|d] eqn:Ed; [done|].
  destruct (prop f "severity") as [m|s] eqn:Es; [done|].
  destruct (prop f "location") as [m|l] eqn:El; [done|].
  destruct (prop f "correction") as [m|c] eqn:Ec; [done|].
  cbn [bind] in H. injection H as <-. cbn.
  split; [by intros ->|]. split; [by intros ->|]. done.
Qed.

(** The array of falsehoods is converted exactly when none of its
    elements is [null] or [undefined]; the converted falsehoods hold what
    the elements held, field by field. *)
Lemma mapFrom_success index elements fs :
  mapFrom index (convertFalsehood now) elements = inr fs →
  Forall (fun f => f ≠ VNull ∧ f ≠ VUndefined) elements
  ∧ length fs = length elements
  ∧ ∀ i f element, fs !! i = Some f → elements !! i = Some element →
      prop element "description" = inr (description f)
      ∧ prop element "severity" = inr (severity f)
      ∧ prop element "location" = inr (location f)
      ∧ prop element "correction" = inr (correction f).
Proof.
  revert index fs. induction elements as [|e elements IH]; intros index fs H.
  { injection H as <-. split; [constructor|]. split; [done|]. by intros i f element. }
  cbn [mapFrom] in H.
  destruct (convertFalsehood now index e) as [m|r] eqn:Er; [done|]. cbn [bind] in H.
  destruct (mapFrom (S index) (convertFalsehood now) elements) as [m|fs'] eqn:Efs; [done|].
  cbn [bind] in H. injection H as <-.
  apply convertFalsehood_success in Er as (H1 & H2 & Hfields).
  destruct (IH _ _ Efs) as (Hall & Hlen & Hrest).
  split; [by constructor|]. split; [simpl; by rewrite Hlen|].
  intros [|i] f element Hf He; simpl in Hf, He.
  - injection Hf as <-. by injection He as <-.
  - by apply (Hrest i).
Qed.

(** A parsed value that is not an object with an array of falsehoods
    free of [null] is not converted. *)
Lemma convert_shape text parsed results :
  text ≠ EmptyString → JSON_parse text = inr parsed →
  evaluateDentalNotes JSON_parse now (Completed (Some text)) = inr results →
  ∃ properties elements,
    parsed = VObject properties
    ∧ assoc "falsehoods" properties = VArray elements
    ∧ Forall (fun f => f ≠ VNull ∧ f ≠ VUndefined) elements.
Proof.
  intros Hne Hparse. unfold evaluateDentalNotes, convert.
  rewrite decide_False by done. rewrite Hparse. cbn [bind].
  destruct parsed as [| |b|n|str|elements|properties]; cbn; try discriminate.
  destruct (assoc "falsehoods" properties) as [| |b|n|str|elements|ps] eqn:Ef;
    cbn; try discriminate.
  destruct (mapFrom 0 (convertFalsehood now) elements) as [m|fs] eqn:Efs;
    cbn; [discriminate|].
  intros _. exists properties, elements. split; [done|]. split; [done|].
  by apply mapFrom_success in Efs as [H _].
Qed.

End judge.

(** C6, as the code has it.  Every failure of [evaluateDentalNotes] is one
    and the same kind of error, an [Error] whose message is
    "OpenAI-eval-error: " followed by the cause: a rejected call, an absent
    or empty response and text that does not parse fail that way, and so
    does every parsed value that is not an object holding an array of
    falsehoods none of which is [null]: [null], a number, a string, an
    array, an object without such an array.  They cannot be told apart but
    by the message.  Nothing else is checked: such an object is converted
    into a record whatever else it holds or lacks, the fields of the record
    being what the response held, [undefined] included. *)
Theorem judge_failures_share_one_error
    (JSON_parse : string → string + Judge.jsval) (now : nat → Z) :
  (∀ completion message,
     Judge.evaluateDentalNotes JSON_parse now completion = inl message →
     ∃ cause, message = "OpenAI-eval-error: " +:+ cause)
  ∧ Judge.evaluateDentalNotes JSON_parse now (Judge.Completed None)
    = inl "OpenAI-eval-error: No response from OpenAI"
  ∧ Judge.evaluateDentalNotes JSON_parse now (Judge.Completed (Some EmptyString))
    = inl "OpenAI-eval-error: No response from OpenAI"
  ∧ (∀ cause,
       Judge.evaluateDentalNotes JSON_parse now (Judge.Rejected cause)
       = inl ("OpenAI-eval-error: " +:+ cause))
  ∧ (∀ text cause, text ≠ EmptyString → JSON_parse text = inl cause →
       Judge.evaluateDentalNotes JSON_parse now (Judge.Completed (Some text))
       = inl ("OpenAI-eval-error: " +:+ cause))
  ∧ (∀ text parsed, text ≠ EmptyString → JSON_parse text = inr parsed →
       ¬ (∃ properties elements,
            parsed = Judge.VObject properties
            ∧ Judge.assoc "falsehoods" properties = Judge.VArray elements
            ∧ Forall (fun f => f ≠ Judge.VNull ∧ f ≠ Judge.VUndefined) elements) →
       ∃ cause,
         Judge.evaluateDentalNotes JSON_parse now (Judge.Completed (Some text))
         = inl ("OpenAI-eval-error: " +:+ cause))
  ∧ (∀ text properties elements, text ≠ EmptyString →
       JSON_parse text = inr (Judge.VObject properties) →
       Judge.assoc "falsehoods" properties = Judge.VArray elements →
       Forall (fun f => f ≠ Judge.VNull ∧ f ≠ Judge.VUndefined) elements →
       ∃ results,
         Judge.evaluateDentalNotes JSON_parse now (Judge.Completed (Some text))
         = inr results
         ∧ Judge.detailScore results
           = {| Judge.score := Judge.assoc "detailScore" properties;
                Judge.explanation := Judge.assoc "detailExplanation" properties;
                Judge.examples := Judge.assoc "detailExamples" properties |}
         ∧ Judge.truthfulnessScore results
           = {| Judge.score := Judge.assoc "truthfulnessScore" properties;
                Judge.explanation := Judge.assoc "truthfulnessExplanation" properties;
                Judge.examples := Judge.assoc "truthfulnessExamples" properties |}
         ∧ Judge.summary results = Judge.assoc "summary" properties
         ∧ Judge.overallRanking results = 0
         ∧ length (Judge.falsehoods results) = length elements
         ∧ (∀ i f element,
              Judge.falsehoods results !! i = Some f → elements !! i = Some element →
              Judge.prop element "description" = inr (Judge.description f)
              ∧ Judge.prop element "severity" = inr (Judge.severity f)
              ∧ Judge.prop element "location" = inr (Judge.location f)
              ∧ Judge.prop element "correction" = inr (Judge.correction f))).
Proof.
  split; [apply evaluate_error|]. split; [reflexivity|]. split; [reflexivity|].
  split; [reflexivity|]. split; [|split].
  - intros text cause Hne Hparse. unfold Judge.evaluateDentalNotes, Judge.convert.
    rewrite decide_False by done. by rewrite Hparse.
  - intros text parsed Hne Hparse Hshape.
    destruct (Judge.evaluateDentalNotes JSON_parse now (Judge.Completed (Some text)))
      as [message|results] eqn:E.
    + destruct (evaluate_error JSON_parse now _ _ E) as [cause ->]. by exists cause.
    + destruct Hshape. by eapply convert_shape.
  - intros text properties elements Hne Hparse Hfs Helem.
    rewrite (evaluate_object JSON_parse now text properties Hne Hparse), Hfs.
    destruct (mapFrom_defined now 0 elements Helem) as (fs & Hmap & Hlen).
    unfold Judge.mapFalsehoods. rewrite Hmap. eexists. split; [reflexivity|].
    cbn. do 5 (split; [done|]).
    by apply (mapFrom_success now 0 elements fs Hmap).
Qed.

(** C6, as stated, fails: the off-schema response above is turned into a
    score record, its scores [undefined]; and the failure on an absent
    response is the very error of a rejected call with that message. *)
Lemma judge_accepts_off_schema_response :
  Judge.matchesSchema sampleOffSchemaValue = false
  ∧ Judge.evaluateDentalNotes sampleParse (fun _ => 0)
      (Judge.Completed (Some sampleOffSchemaText))
    = inr {| Judge.detailScore :=
               {| Judge.score := Judge.VUndefined;
                  Judge.explanation := Judge.VUndefined;
                  Judge.examples := Judge.VUndefined |};
             Judge.truthfulnessScore :=
               {| Judge.score := Judge.VUndefined;
                  Judge.explanation := Judge.VUndefined;
                  Judge.examples := Judge.VUndefined |};
             Judge.falsehoods := [];
             Judge.summary := Judge.VUndefined;
             Judge.overallRanking := 0 |}
  ∧ Judge.evaluateDentalNotes sampleParse (fun _ => 0) (Judge.Completed None)
    = Judge.evaluateDentalNotes sampleParse (fun _ => 0)
        (Judge.Rejected "No response from OpenAI").
Proof. split; [reflexivity|]. split; reflexivity. Qed.

(** ** A sorted array, position by position *)

Section sort_stable.
Context {A : Type} (cmp : A → A → Q) (rk : A → Q).
Hypothesis cmp_rk : ∀ a b, JS.positive (cmp a b) = true ↔ (rk a < rk b)%Q.

Let tagged (l : list A) : list (nat * A) := imap pair l.
Let cmp' (a b : nat * A) : Q := cmp a.2 b.2.

Lemma tagged_lookup l i : tagged l !! i = pair i <$> l !! i.
Proof. apply list_lookup_imap. Qed.

Lemma tagged_snd l : snd <$> tagged l = l.
Proof.
  apply list_eq. intros i. rewrite list_lookup_fmap, tagged_lookup.
  by destruct (l !! i).
Qed.

Lemma tagged_sort l : snd <$> JS.sort cmp' (tagged l) = JS.sort cmp l.
Proof. unfold cmp'. by rewrite (sort_map cmp snd), tagged_snd. Qed.

Lemma tagged_sorted l :
  StronglySorted (lexlt (fun a => rk a.2) fst) (JS.sort cmp' (tagged l)).
Proof.
  apply (sort_sorted cmp' (fun a => rk a.2) fst).
  - intros a b. apply cmp_rk.
  - apply lookup_StronglySorted. intros i j x y Hi Hj Hij.
    rewrite tagged_lookup in Hi, Hj.
    destruct (l !! i); [|done]. destruct (l !! j); [|done].
    simpl in *. by simplify_eq.
Qed.

(** Larger keys come first. *)
Lemma sort_descending l p q a b :
  JS.sort cmp l !! p = Some a → JS.sort cmp l !! q = Some b → (p < q)%nat →
  (rk b <= rk a)%Q.
Proof.
  rewrite <- tagged_sort, !list_lookup_fmap. intros Hp Hq Hpq.
  destruct (JS.sort cmp' (tagged l) !! p) as [[i a']|] eqn:Ep; [|done].
  destruct (JS.sort cmp' (tagged l) !! q) as [[j b']|] eqn:Eq; [|done].
  simpl in Hp, Hq. simplify_eq.
  apply (lexlt_key (fun x : nat * A => rk x.2) fst (i, a) (j, b)).
  eapply StronglySorted_lookup; [apply tagged_sorted|exact Ep|exact Eq|done].
Qed.

(** Elements with equal keys keep the order they had. *)
Lemma sort_stable l i j a b :
  l !! i = Some a → l !! j = Some b → (i < j)%nat → (rk a == rk b)%Q →
  ∃ p q, (p < q)%nat ∧ JS.sort cmp l !! p = Some a ∧ JS.sort cmp l !! q = Some b.
Proof.
  intros Hi Hj Hij Heq.
  assert ((i, a) ∈ JS.sort cmp' (tagged l)) as Ha.
  { apply elem_of_sort. apply list_elem_of_lookup. exists i.
    by rewrite tagged_lookup, Hi. }
  assert ((j, b) ∈ JS.sort cmp' (tagged l)) as Hb.
  { apply elem_of_sort. apply list_elem_of_lookup. exists j.
    by rewrite tagged_lookup, Hj. }
  apply list_elem_of_lookup_1 in Ha as [p Hp].
  apply list_elem_of_lookup_1 in Hb as [q Hq].
  exists p, q. split; [|split].
  - eapply (sorted_positions (fun x : nat * A => rk x.2) fst); eauto using tagged_sorted.
    + simpl. lia.
    + right. by split.
  - by rewrite <- tagged_sort, list_lookup_fmap, Hp.
  - by rewrite <- tagged_sort, list_lookup_fmap, Hq.
Qed.

Lemma sort_head l :
  l ≠ [] → ∃ x, JS.sort cmp l !! 0%nat = Some x ∧ x ∈ l ∧ ∀ y, y ∈ l → (rk y <= rk x)%Q.
Proof.
  intros Hne.
  destruct (JS.sort cmp l) as [|x s] eqn:E.
  { apply (f_equal length) in E. rewrite sort_length in E. by destruct l. }
  exists x. split; [done|]. split.
  - apply (elem_of_sort cmp). rewrite E. by left.
  - intros y Hy. apply (elem_of_sort cmp) in Hy.
    apply list_elem_of_lookup_1 in Hy as [q Hq].
    destruct q as [|q].
    + rewrite E in Hq. injection Hq as ->. apply Qle_refl.
    + apply (sort_descending l 0 (S q) x y); [by rewrite E|done|lia].
Qed.
End sort_stable.

(** ** The summary *)

Lemma gt_spec x y : JS.gt x y = true ↔ (y < x)%Q.
Proof.
  unfold JS.gt. rewrite negb_true_iff. split.
  - intros H. apply Qnot_le_lt. intros Hle. apply Qle_bool_iff in Hle. congruence.
  - intros H. destruct (Qle_bool x y) eqn:E; [|done].
    apply Qle_bool_iff in E. exfalso. eapply Qlt_not_le; eauto.
Qed.

Lemma descending_rk (key : Q) (key' : Q) :
  JS.positive (key' - key) = true ↔ (key < key')%Q.
Proof. rewrite positive_spec. by rewrite <- (Qlt_minus_iff key key'). Qed.

Section grouping_names.
Context {V : Type}.

Lemma groupPush_fst key (v : V) m :
  (JS.groupPush key v m).*1 = if decide (key ∈ m.*1) then m.*1 else m.*1 ++ [key].
Proof.
  induction m as [|[k members] m IH]; [done|].
  cbn [JS.groupPush]. destruct (decide (k = key)) as [->|Hne].
  - rewrite !fmap_cons. cbn [fst]. rewrite decide_True; [done|by left].
  - rewrite !fmap_cons, IH. cbn [fst].
    destruct (decide (key ∈ m.*1)) as [Hin|Hin].
    + rewrite decide_True; [done|by right].
    + rewrite decide_False; [done|].
      intros Hin'. apply elem_of_cons in Hin' as [->|?]; done.
Qed.
End grouping_names.

Section summary.
Import Summary.

Lemma groups_names m evs :
  (foldl (fun acc evaluation => JS.groupPush (noteFileName evaluation) evaluation acc)
     m evs).*1
  = foldl (fun seen x => if decide (x ∈ seen) then seen else seen ++ [x]) (m.*1)
      (noteFileName <$> evs).
Proof.
  revert m. induction evs as [|e evs IH]; intros m; simpl; [done|].
  by rewrite IH, groupPush_fst.
Qed.

Lemma groups_members m evs g :
  lookupGroup g
    (foldl (fun acc evaluation => JS.groupPush (noteFileName evaluation) evaluation acc)
       m evs)
  = lookupGroup g m ++ filter (fun e => noteFileName e = g) evs.
Proof.
  revert m. induction evs as [|e evs IH]; intros m; simpl.
  - by rewrite app_nil_r.
  - rewrite IH, lookupGroup_groupPush, filter_cons.
    destruct (decide (noteFileName e = g)); simpl; by rewrite <- app_assoc.
Qed.

Lemma groups_names_NoDup m evs :
  NoDup (m.*1) →
  NoDup ((foldl (fun acc evaluation =>
                   JS.groupPush (noteFileName evaluation) evaluation acc) m evs).*1).
Proof.
  revert m. induction evs as [|e evs IH]; intros m Hnd; simpl; [done|].
  apply IH. by apply groupPush_keys.
Qed.

Lemma noteTypeStats_names evs :
  filename <$> noteTypeStats evs = firstSeen (noteFileName <$> evs).
Proof.
  unfold noteTypeStats, firstSeen, noteTypeGroups.
  pose proof (groups_names [] evs) as H. rewrite fmap_nil in H.
  rewrite <- H, <- list_fmap_compose.
  apply list_fmap_ext. by intros i [f evals] _.
Qed.

Lemma noteTypeStats_elem evs s :
  s ∈ noteTypeStats evs →
  evaluations s = filter (fun e => noteFileName e = filename s) evs
  ∧ avgCompositeScore s = round1 (meanComposite (evaluations s)).
Proof.
  unfold noteTypeStats. intros Hs.
  apply list_elem_of_fmap in Hs as ([f evals] & -> & Hin). simpl. split; [|done].
  rewrite <- (lookupGroup_elem f evals _ (groups_names_NoDup [] evs (NoDup_nil_2)) Hin).
  by rewrite groups_members.
Qed.

Lemma byAvgComposite_rk a b :
  JS.positive (byAvgComposite a b) = true ↔ (avgCompositeScore a < avgCompositeScore b)%Q.
Proof. apply descending_rk. Qed.

End summary.


(** On the same input the component lists "notes-claude" first: the sorts
    of [generateCommentary] have reordered [rankedNoteTypes] by then. *)
Lemma reported_order_follows_commentary :
  let evs :=
    [Summary.mkEvaluation "transcript1" "notes-gpt4o" 8 8;
     Summary.mkEvaluation "transcript2" "notes-gpt4o" 8 9;
     Summary.mkEvaluation "transcript1" "notes-claude" 8 9;
     Summary.mkEvaluation "transcript2" "notes-claude" 8 9;
     Summary.mkEvaluation "transcript3" "notes-claude" 8 8] in
  Summary.filename <$> Summary.rankedNoteTypes evs = ["notes-gpt4o"; "notes-claude"]
  ∧ ∃ v, Summary.BatchSummary evs = Summary.Shows v
         ∧ Summary.filename <$> Summary.rankings v = ["notes-claude"; "notes-gpt4o"].
Proof.
  intros evs. split; [vm_compute; reflexivity|].
  eexists. split; [vm_compute; reflexivity|]. reflexivity.
Qed.

Section commentary.
Import Summary.

Lemma sort_head_Some {A} (cmp : A → A → Q) l :
  l ≠ [] → ∃ x, JS.sort cmp l !! 0%nat = Some x.
Proof.
  intros Hne. apply lookup_lt_is_Some. rewrite sort_length.
  destruct l; [done|simpl; lia].
Qed.

Lemma sort_nonempty {A} (cmp : A → A → Q) l : l ≠ [] → JS.sort cmp l ≠ [].
Proof.
  intros Hne E. apply (f_equal length) in E. rewrite sort_length in E. by destruct l.
Qed.

Lemma ascending_rk (a b : Consistency) :
  JS.positive (variance a - variance b) = true ↔ (- variance a < - variance b)%Q.
Proof.
  rewrite descending_rk. split; intros H.
  - by apply Qopp_lt_compat.
  - apply Qopp_lt_compat in H. by rewrite !Qopp_involutive in H.
Qed.

(** The consistency analysis names a note type of smallest variance, and
    calls it exceptional when that variance is below one half. *)
Lemma generateCommentary_consistency (r : list NoteTypeStats) :
  r ≠ [] →
  ∃ c mc,
    generateCommentary r = Some c
    ∧ mostConsistent c = Some mc
    ∧ mc ∈ consistency <$> r
    ∧ (∀ x, x ∈ r → (variance mc <= variance (consistency x))%Q)
    ∧ ((variance mc < 1 # 2)%Q → ExceptionalConsistency (c_filename mc) ∈ comments c).
Proof.
  intros Hne. unfold generateCommentary.
  rewrite decide_False by (by destruct r).
  destruct (lookup_lt_is_Some_2 r 0) as [best Hbest]; [destruct r; [done|simpl; lia]|].
  destruct (lookup_lt_is_Some_2 r (length r - 1)) as [worst Hworst];
    [destruct r; [done|simpl; lia]|].
  rewrite Hbest, Hworst. cbn [mbind option_bind].
  set (r1 := JS.sort byAvgDetail r).
  assert (r1 ≠ []) as Hr1 by by apply sort_nonempty.
  destruct (sort_head_Some byAvgTruthfulness r1 Hr1) as [mt Hmt].
  destruct (sort_head_Some byAvgDetail r Hne) as [md Hmd]. fold r1 in Hmd.
  rewrite Hmd. cbn [mbind option_bind]. rewrite Hmt. cbn [mbind option_bind].
  set (r2 := JS.sort byAvgTruthfulness r1).
  assert (r2 ≡ₚ r) as Hperm by (unfold r2, r1; by rewrite !sort_Permutation).
  assert (consistency <$> r2 ≠ []) as Hcs.
  { intros E. apply fmap_nil_inv in E. by apply (sort_nonempty byAvgTruthfulness r1). }
  destruct (sort_head (fun a b => variance a - variance b)%Q
              (fun c => - variance c)%Q ascending_rk (consistency <$> r2) Hcs)
    as (mc & Hmc & Hin & Hmin).
  rewrite Hmc. cbn [mbind option_bind].
  set (asc := JS.sort (fun a b => variance a - variance b)%Q (consistency <$> r2)).
  assert (asc ≠ []) as Hasc by by apply sort_nonempty.
  destruct (sort_head_Some (fun a b => variance b - variance a)%Q asc Hasc) as [lc Hlc].
  rewrite Hlc. cbn [mbind option_bind].
  assert (falsehoodRate <$> r2 ≠ []) as Hfr.
  { intros E. apply fmap_nil_inv in E. by apply (sort_nonempty byAvgTruthfulness r1). }
  destruct (sort_head_Some (fun a b => avgFalsehoods a - avgFalsehoods b)%Q _ Hfr)
    as [safest Hsafest].
  rewrite Hsafest. cbn [mbind option_bind].
  set (fasc := JS.sort (fun a b => avgFalsehoods a - avgFalsehoods b)%Q
                 (falsehoodRate <$> r2)).
  assert (fasc ≠ []) as Hfasc by by apply sort_nonempty.
  destruct (sort_head_Some (fun a b => avgFalsehoods b - avgFalsehoods a)%Q fasc Hfasc)
    as [riskiest Hriskiest].
  rewrite Hriskiest. cbn [mbind option_bind].
  eexists _, mc. split; [reflexivity|]. cbn [mostConsistent comments].
  split; [done|]. split; [by rewrite <- Hperm|]. split.
  - intros x Hx.
    assert (consistency x ∈ consistency <$> r2) as Hx'.
    { apply list_elem_of_fmap_2. by rewrite Hperm. }
    specialize (Hmin _ Hx'). apply Qopp_le_compat in Hmin.
    by rewrite !Qopp_involutive in Hmin.
  - intros Hlt. apply (gt_spec (1 # 2) (variance mc)) in Hlt.
    unfold JS.lt. rewrite Hlt.
    rewrite !elem_of_app. right. right. left. by left.
Qed.

End commentary.

Section scenario.
Import Summary.

Lemma composite_mkResults d t :
  Ranker.composite (mkResults d t) = (inject_Z (d + t) / 2)%Q.
Proof. reflexivity. Qed.

Lemma meanComposite_pair t1 t2 n1 n2 d1 a1 d2 a2 s :
  d1 + a1 = s → d2 + a2 = 2 * 8 * 2 - s →
  (meanComposite [mkEvaluation t1 n1 d1 a1; mkEvaluation t2 n2 d2 a2] == 8)%Q.
Proof.
  intros H1 H2.
  assert (a1 = s - d1) as -> by lia. assert (a2 = 32 - s - d2) as -> by lia.
  unfold meanComposite, meanDetail, meanTruthfulness, sumOf, detailOf, truthfulnessOf,
    ofnat. cbn [foldl results mkEvaluation mkResults score detailScore
                truthfulnessScore length].
  change (inject_Z (Z.of_nat 2)) with (2 : Q).
  unfold Z.sub. rewrite !inject_Z_plus, !inject_Z_opp.
  change (inject_Z 32) with (32 : Q). field.
Qed.

End scenario.

(** C8. In the scenario of two transcripts, "notes-gpt4o" scoring composite
    9 and 7 and "notes-claude" 8 and 8, the summary finds mean 8 and
    variance 1 for the first, mean 8 and variance 0 for the second, picks
    "notes-claude" as the most consistent note type and says so in the
    commentary. *)
Theorem consistency_scenario
    (gptFirst1 gptFirst2 : bool) (d1 t1 d2 t2 d3 t3 d4 t4 : Z) :
  d1 + t1 = 18 → d2 + t2 = 14 → d3 + t3 = 16 → d4 + t4 = 16 →
  ∃ gpt claude c,
    Summary.noteTypeStats (scenario gptFirst1 gptFirst2 d1 t1 d2 t2 d3 t3 d4 t4)
    ≡ₚ [gpt; claude]
    ∧ Summary.filename gpt = "notes-gpt4o"
    ∧ Summary.filename claude = "notes-claude"
    ∧ Forall2 Qeq (Summary.scores (Summary.consistency gpt)) [9; 7]%Q
    ∧ Forall2 Qeq (Summary.scores (Summary.consistency claude)) [8; 8]%Q
    ∧ (Summary.meanComposite (Summary.evaluations gpt) == 8)%Q
    ∧ (Summary.average (Summary.scores (Summary.consistency gpt)) == 8)%Q
    ∧ (Summary.variance (Summary.consistency gpt) == 1)%Q
    ∧ (Summary.meanComposite (Summary.evaluations claude) == 8)%Q
    ∧ (Summary.average (Summary.scores (Summary.consistency claude)) == 8)%Q
    ∧ (Summary.variance (Summary.consistency claude) == 0)%Q
    ∧ Summary.generateCommentary
        (Summary.rankedNoteTypes (scenario gptFirst1 gptFirst2 d1 t1 d2 t2 d3 t3 d4 t4))
      = Some c
    ∧ Summary.c_filename <$> Summary.mostConsistent c = Some "notes-claude"
    ∧ Summary.ExceptionalConsistency "notes-claude" ∈ Summary.comments c.
Proof.
  intros H1 H2 H3 H4.
  set (evs := scenario gptFirst1 gptFirst2 d1 t1 d2 t2 d3 t3 d4 t4).
  set (gpt := Summary.stats
                ("notes-gpt4o",
                 [Summary.mkEvaluation "transcript1" "notes-gpt4o" d1 t1;
                  Summary.mkEvaluation "transcript2" "notes-gpt4o" d2 t2])).
  set (claude := Summary.stats
                   ("notes-claude",
                    [Summary.mkEvaluation "transcript1" "notes-claude" d3 t3;
                     Summary.mkEvaluation "transcript2" "notes-claude" d4 t4])).
  assert (Summary.noteTypeStats evs ≡ₚ [gpt; claude]) as Hstats.
  { subst evs. destruct gptFirst1, gptFirst2;
      (change (Summary.noteTypeStats _) with [gpt; claude]
       || change (Summary.noteTypeStats _) with [claude; gpt]);
      [done|done|apply Permutation_swap|apply Permutation_swap]. }
  assert (Summary.scores (Summary.consistency gpt)
          = [inject_Z 18 / 2; inject_Z 14 / 2]%Q) as Hsg.
  { unfold Summary.consistency, gpt. cbn [Summary.scores Summary.stats Summary.evaluations].
    rewrite !fmap_cons, fmap_nil. unfold Summary.compositeOf. cbn [Summary.results Summary.mkEvaluation].
    by rewrite !composite_mkResults, H1, H2. }
  assert (Summary.scores (Summary.consistency claude)
          = [inject_Z 16 / 2; inject_Z 16 / 2]%Q) as Hsc.
  { unfold Summary.consistency, claude. cbn [Summary.scores Summary.stats Summary.evaluations].
    rewrite !fmap_cons, fmap_nil. unfold Summary.compositeOf. cbn [Summary.results Summary.mkEvaluation].
    by rewrite !composite_mkResults, H3, H4. }
  assert (Summary.variance (Summary.consistency gpt) == 1)%Q as Hvg.
  { change (Summary.variance (Summary.consistency gpt))
      with (Summary.varianceOf (Summary.scores (Summary.consistency gpt))).
    rewrite Hsg. reflexivity. }
  assert (Summary.variance (Summary.consistency claude) == 0)%Q as Hvc.
  { change (Summary.variance (Summary.consistency claude))
      with (Summary.varianceOf (Summary.scores (Summary.consistency claude))).
    rewrite Hsc. reflexivity. }
  destruct (generateCommentary_consistency (Summary.rankedNoteTypes evs))
    as (c & mc & Hc & Hmc & Hin & Hmin & Hex).
  { intros E. apply (f_equal length) in E. unfold Summary.rankedNoteTypes in E.
    rewrite sort_length, Hstats in E. done. }
  assert (mc = Summary.consistency claude) as ->.
  { unfold Summary.rankedNoteTypes in Hin. rewrite sort_Permutation, Hstats in Hin.
    rewrite !fmap_cons, fmap_nil in Hin.
    apply elem_of_cons in Hin as [->|Hin].
    - exfalso. assert (claude ∈ Summary.rankedNoteTypes evs) as Hcl.
      { unfold Summary.rankedNoteTypes. rewrite sort_Permutation, Hstats.
        right. by left. }
      specialize (Hmin claude Hcl). rewrite Hvg, Hvc in Hmin. by apply Hmin.
    - apply elem_of_cons in Hin as [->|Hin]; [done|by apply elem_of_nil in Hin]. }
  exists gpt, claude, c.
  split; [done|]. split; [done|]. split; [done|].
  split; [rewrite Hsg; by repeat constructor|].
  split; [rewrite Hsc; by repeat constructor|].
  split; [by apply (meanComposite_pair _ _ _ _ d1 t1 d2 t2 18)|].
  split; [rewrite Hsg; reflexivity|]. split; [done|].
  split; [by apply (meanComposite_pair _ _ _ _ d3 t3 d4 t4 16)|].
  split; [rewrite Hsc; reflexivity|]. split; [done|].
  split; [done|]. split; [by rewrite Hmc|].
  apply Hex. rewrite Hvc. reflexivity.
Qed.

Lemma consistency_scenario_witness :
  ∃ c,
    Summary.generateCommentary
      (Summary.rankedNoteTypes (scenario true true 9 9 7 7 8 8 8 8)) = Some c
    ∧ Summary.c_filename <$> Summary.mostConsistent c = Some "notes-claude".
Proof.
  destruct (consistency_scenario true true 9 9 7 7 8 8 8 8)
    as (gpt & claude & c & H); [reflexivity..|].
  exists c. split; [apply H|apply H].
Defined.

(** * Further properties of the code *)

(** ** Rankings across the groups of a batch *)

Lemma sameButRanking_composite e e' :
  sameButRanking e e' → Ranker.composite e' = Ranker.composite e.
Proof. intros (Hd & Ht & _). unfold Ranker.composite. by rewrite Hd, Ht. Qed.

Lemma sameButRanking_set_overallRanking r e : sameButRanking e (set_overallRanking r e).
Proof. by repeat split. Qed.

Lemma sameButRanking_trans e1 e2 e3 :
  sameButRanking e1 e2 → sameButRanking e2 e3 → sameButRanking e1 e3.
Proof. intros (?&?&?&?) (?&?&?&?). repeat split; congruence. Qed.

Lemma rewritten_compositeAt evaluations (h h' : list EvaluationResults) l :
  rewritten evaluations h h' → (l < length h)%nat →
  Ranker.compositeAt h' l = Ranker.compositeAt h l.
Proof.
  intros (_ & _ & Hs) Hl. destruct (lookup_lt_is_Some_2 h l Hl) as [e He].
  destruct (Hs l e He) as (e' & He' & Hsame). unfold Ranker.compositeAt.
  rewrite (list_lookup_total_correct _ _ _ He), (list_lookup_total_correct _ _ _ He').
  by apply sameButRanking_composite.
Qed.

(** Two elements that pass a filter keep their relative order. *)
Lemma filter_lookup_order {A} (P : A → Prop) `{∀ x, Decision (P x)} (l : list A) i j x y :
  l !! i = Some x → l !! j = Some y → (i < j)%nat → P x → P y →
  ∃ i' j', (i' < j')%nat ∧ filter P l !! i' = Some x ∧ filter P l !! j' = Some y.
Proof.
  revert i j. induction l as [|z l IH]; intros i j Hi Hj Hij Hx Hy; [done|].
  destruct j as [|j]; [lia|]. simpl in Hj. rewrite filter_cons.
  destruct i as [|i]; simpl in Hi.
  - injection Hi as ->. rewrite decide_True by done.
    assert (y ∈ filter P l) as Hin.
    { apply list_elem_of_filter. split; [done|]. by eapply list_elem_of_lookup_2. }
    apply list_elem_of_lookup_1 in Hin as [j' Hj'].
    exists 0%nat, (S j'). split; [lia|]. by split.
  - destruct (IH i j Hi Hj) as (i' & j' & Hlt & Hi' & Hj'); [lia|done..|].
    destruct (decide (P z)).
    + exists (S i'), (S j'). split; [lia|]. by split.
    + exists i', j'. by split.
Qed.

Section rank_all_order.
Import Orchestrator.

Variable all : list Evaluation.
Hypothesis results_NoDup : NoDup (results <$> all).

(** Within a group the rankings follow the composite scores, the earlier
    evaluation first on a tie; the passes over the other groups do not
    disturb them. *)
Lemma rankAll_ordered gs (h : list EvaluationResults) :
  NoDup gs →
  (∀ e, e ∈ all → (results e < length h)%nat) →
  ∀ g, g ∈ gs → ∀ i j li lj,
    locsOf g all !! i = Some li → locsOf g all !! j = Some lj → (i < j)%nat →
    Ranker.rankAt (rankAll all h gs) li < Ranker.rankAt (rankAll all h gs) lj
    ↔ (Ranker.compositeAt h lj <= Ranker.compositeAt h li)%Q.
Proof.
  revert h. induction gs as [|g0 gs IH]; intros h Hnd Halloc g Hg i j li lj Hi Hj Hij.
  { by apply elem_of_nil in Hg. }
  apply NoDup_cons in Hnd as [Hg0 Hnd].
  destruct (rankEvaluations_rewritten (locsOf g0 all) h) as (h1 & Hr & Hrw).
  assert (rankAll all h (g0 :: gs) = rankAll all h1 gs) as ->.
  { unfold rankAll. cbn [foldl]. by rewrite Hr. }
  assert (∀ e, e ∈ all → (results e < length h1)%nat) as Halloc1.
  { intros e He. destruct Hrw as (-> & _). by apply Halloc. }
  assert (∀ l, l ∈ locsOf g all → (l < length h)%nat) as Hin_alloc.
  { intros l Hl. apply (locsOf_elem all) in Hl as (e & He & _ & <-). by apply Halloc. }
  apply elem_of_cons in Hg as [->|Hg].
  - destruct (rankAll_spec all results_NoDup gs h1 Hnd Halloc1) as (_ & Ho & _ & _).
    assert (∀ l, l ∈ locsOf g0 all →
              Ranker.rankAt (rankAll all h1 gs) l = Ranker.rankAt h1 l) as Hsame.
    { intros l Hin. unfold Ranker.rankAt. rewrite !list_lookup_total_alt, Ho; [done|].
      intros g' Hg' Hin'. apply Hg0.
      by rewrite (locsOf_disjoint all results_NoDup g0 g' l Hin Hin'). }
    rewrite !Hsame by (eapply list_elem_of_lookup_2; eauto).
    rewrite rankEvaluations_eq in Hr. injection Hr as <-.
    apply (ranks_ordered h (locsOf g0 all) (locsOf_NoDup all results_NoDup g0)
             Hin_alloc i j); done.
  - rewrite (IH h1 Hnd Halloc1 g Hg i j li lj Hi Hj Hij).
    rewrite !(rewritten_compositeAt _ h h1 _ Hrw); [done|..];
      apply Hin_alloc; by eapply list_elem_of_lookup_2.
Qed.

End rank_all_order.

(** ** What a run leaves in the store *)

Section pipeline.
Import Orchestrator Runs.
Variable env : Env.

(** Every evaluation pushed by a run answers one successful call. *)
Lemma newEvaluations_origin n hl tasks i e :
  newEvaluations env n hl tasks !! i = Some e →
  ∃ k task r, tasks !! k = Some task
    ∧ judge env (n + k) (promptOf task) = Returned r
    ∧ newRecords env n tasks !! i = Some (set_overallRanking 0 r)
    ∧ e = evaluationOf env (n + k) task (hl + i).
Proof.
  revert n hl i. induction tasks as [|task tasks IH]; intros n hl i Hi; [done|].
  simpl in Hi |- *. destruct (judge env n (promptOf task)) as [msg|r] eqn:E.
  - destruct (IH (S n) hl i Hi) as (k & t & r & Hk & Hj & Hr & He).
    exists (S k), t, r. by replace (n + S k)%nat with (S n + k)%nat by lia.
  - destruct i as [|i]; simpl in Hi.
    + injection Hi as <-. exists 0%nat, task, r. by rewrite !Nat.add_0_r.
    + destruct (IH (S n) (S hl) i Hi) as (k & t & r' & Hk & Hj & Hr & He).
      exists (S k), t, r'. replace (n + S k)%nat with (S n + k)%nat by lia.
      by replace (hl + S i)%nat with (S hl + i)%nat by lia.
Qed.

Lemma ranked_run_full delay tasks w :
  let evs := newEvaluations env (calls w) (length (heap w)) tasks in
  ∃ h', rankWithinGroups (foldl (runTask env delay) ([], w) tasks)
        = (evs, {| heap := h'; calls := calls w + length tasks;
                   trace := trace w ++ newTrace env delay (calls w) tasks |})
    ∧ length h' = (length (heap w) + length evs)%nat
    ∧ (∀ l, (l < length (heap w))%nat → h' !! l = heap w !! l)
    ∧ (∀ i r, newRecords env (calls w) tasks !! i = Some r →
         ∃ e', h' !! (length (heap w) + i)%nat = Some e' ∧ sameButRanking r e')
    ∧ (∀ g, Ranker.rankAt h' <$> locsOf g evs
            ≡ₚ seqZ 1 (Z.of_nat (length (locsOf g evs))))
    ∧ (∀ i j ei ej, evs !! i = Some ei → evs !! j = Some ej → (i < j)%nat →
         transcriptName ei = transcriptName ej →
         Ranker.rankAt h' (results ei) < Ranker.rankAt h' (results ej)
         ↔ (Ranker.compositeAt h' (results ej)
            <= Ranker.compositeAt h' (results ei))%Q).
Proof.
  intros evs. rewrite run_spec, app_nil_l. fold evs.
  set (w1 := {| heap := _; calls := _; trace := _ |}).
  assert (NoDup (results <$> evs)) as Hnd by apply run_results_NoDup.
  assert (∀ e, e ∈ evs → (results e < length (heap w1))%nat) as Halloc.
  { intros e He. by apply run_results_alloc. }
  assert (∀ e, e ∈ evs → (length (heap w) ≤ results e)%nat) as Hfresh.
  { intros e He. apply (list_elem_of_fmap_2 results) in He. unfold evs in He.
    rewrite newEvaluations_results in He. apply list_elem_of_lookup_1 in He as [i Hi].
    apply lookup_seq in Hi as [-> _]. lia. }
  destruct (rankWithinGroups_spec evs w1 Hnd Halloc) as (h' & Hr & Hh' & Hlen & Hs & Hp).
  pose proof (rankAll_spec evs Hnd _ (heap w1) (evaluationsByTranscript_keys evs) Halloc)
    as (_ & Ho & _ & _).
  rewrite <- Hh' in Ho.
  assert (∀ l, (l < length (heap w1))%nat →
            Ranker.compositeAt h' l = Ranker.compositeAt (heap w1) l) as Hcomp.
  { intros l Hl. destruct (lookup_lt_is_Some_2 _ l Hl) as [e He].
    destruct (Hs l e He) as (e' & He' & Hsame). unfold Ranker.compositeAt.
    rewrite (list_lookup_total_correct _ _ _ He), (list_lookup_total_correct _ _ _ He').
    by apply sameButRanking_composite. }
  exists h'. split; [exact Hr|]. split; [|split; [|split; [|split; [exact Hp|]]]].
  - rewrite Hlen. unfold w1. cbn [heap]. rewrite length_app. unfold evs.
    by rewrite newEvaluations_length.
  - intros l Hl. rewrite Ho.
    + unfold w1. cbn [heap]. by apply lookup_app_l.
    + intros g _ Hin. apply (locsOf_elem evs) in Hin as (e & He & _ & <-).
      specialize (Hfresh e He). lia.
  - intros i r Hi. apply Hs. unfold w1. cbn [heap].
    rewrite lookup_app_r by lia. by replace (length (heap w) + i - length (heap w))%nat with i by lia.
  - intros i j ei ej Hi Hj Hij Hg.
    destruct (filter_lookup_order (fun e => transcriptName e = transcriptName ei)
                evs i j ei ej Hi Hj Hij eq_refl (eq_sym Hg)) as (i' & j' & Hlt & Hi' & Hj').
    assert (locsOf (transcriptName ei) evs !! i' = Some (results ei)) as Hli.
    { unfold locsOf. by rewrite list_lookup_fmap, Hi'. }
    assert (locsOf (transcriptName ei) evs !! j' = Some (results ej)) as Hlj.
    { unfold locsOf. by rewrite list_lookup_fmap, Hj'. }
    rewrite !Hcomp by (apply Halloc; by eapply list_elem_of_lookup_2).
    rewrite Hh'.
    apply (rankAll_ordered evs Hnd _ (heap w1) (evaluationsByTranscript_keys evs) Halloc
             (transcriptName ei)) with i' j'; [|done..].
    destruct (decide (transcriptName ei ∈ (evaluationsByTranscript evs).*1)) as [|Hout];
      [done|].
    by rewrite (absent_group_empty evs _ Hout) in Hli.
Qed.

End pipeline.

(** ** The response of [POST] to a batch *)

Section post_paths.
Import Orchestrator Runs.
Variable env : Env.

(** Whatever the strategy, the handler runs a prefix of the enumeration and
    then the ranking pass. *)
Lemma POST_run batchData w :
  ∃ response w' delay m,
    POST env batchData w = Some (response, w')
    ∧ rankWithinGroups
        (foldl (runTask env delay) ([], w) (take m (collectTasks batchData)))
      = (evaluationsOf response, w')
    ∧ (m ≤ length (collectTasks batchData))%nat.
Proof.
  unfold POST. destruct (decide (100 < totalFilesOf batchData)%nat).
  - rewrite partial_eq.
    set (m := attempted env 50 (calls w) 0 (collectTasks batchData)).
    destruct (rankWithinGroups _) as [evs w'] eqn:E.
    eexists _, w', 100, m. split; [reflexivity|]. split; [exact E|apply attempted_le].
  - destruct (decide (5 < totalFilesOf batchData)%nat).
    + rewrite inChunks_eq by lia.
      destruct (rankWithinGroups _) as [evs w'] eqn:E.
      exists (BatchResponse true evs), w', 100, (length (collectTasks batchData)).
      split; [reflexivity|]. split; [by rewrite firstn_all|done].
    + rewrite inMemory_eq.
      destruct (rankWithinGroups _) as [evs w'] eqn:E.
      exists (BatchResponse true evs), w', 1000, (length (collectTasks batchData)).
      split; [reflexivity|]. split; [by rewrite firstn_all|done].
Qed.

Lemma taskOf_evaluationOf n task l : taskOf (evaluationOf env n task l) = Some task.
Proof. by destruct task as [? ? []]. Qed.

Lemma elem_of_collectTasks batchData task :
  task ∈ collectTasks batchData →
  ∃ group, (task_transcriptName task, group) ∈ structure batchData
    ∧ transcript group = Some (task_transcriptContent task)
    ∧ task_noteFile task ∈ notes group.
Proof.
  rewrite collectTasks_flat. intros Hin.
  apply list_elem_of_bind in Hin as ([transcriptName group] & Hin & Hentry).
  unfold tasksOf in Hin. cbn [fst snd] in Hin.
  destruct (transcript group) as [c|] eqn:E; [|by apply elem_of_nil in Hin].
  apply list_elem_of_fmap in Hin as (noteFile & -> & Hnote).
  exists group. by repeat split.
Qed.

Lemma succeeded_attempted maxFiles n fp tasks :
  succeeded env n (take (attempted env maxFiles n fp tasks) tasks)
  = take (maxFiles - fp) (succeeded env n tasks).
Proof.
  revert n fp. induction tasks as [|task tasks IH]; intros n fp.
  { cbn [attempted take succeeded]. by rewrite take_nil. }
  cbn [attempted]. destruct (decide (maxFiles ≤ fp)%nat).
  { replace (maxFiles - fp)%nat with 0%nat by lia. done. }
  destruct (judge env n (promptOf task)) as [msg|r] eqn:E;
    cbn [take succeeded]; rewrite E.
  - apply IH.
  - rewrite IH. replace (maxFiles - fp)%nat with (S (maxFiles - S fp)) by lia. done.
Qed.

Lemma attempted_zero n fp tasks : attempted env 0 n fp tasks = 0%nat.
Proof.
  destruct tasks; [done|]. cbn [attempted].
  destruct (decide (0 ≤ fp)%nat); [done|lia].
Qed.

Lemma run_all_fail n hl delay tasks :
  (∀ n p, ∃ message, judge env n p = Threw message) →
  newEvaluations env n hl tasks = []
  ∧ newRecords env n tasks = []
  ∧ delays (newTrace env delay n tasks) = [].
Proof.
  intros Hfail. revert n. induction tasks as [|task tasks IH]; intros n; [done|].
  simpl. destruct (Hfail n (promptOf task)) as [message ->].
  destruct (IH (S n)) as (-> & -> & H). by repeat split.
Qed.

Lemma attempted_all_fail maxFiles n fp tasks :
  (fp < maxFiles)%nat →
  (∀ n p, ∃ message, judge env n p = Threw message) →
  attempted env maxFiles n fp tasks = length tasks.
Proof.
  intros Hfp Hfail. revert n. induction tasks as [|task tasks IH]; intros n; [done|].
  simpl. rewrite decide_False by lia.
  destruct (Hfail n (promptOf task)) as [message ->]. by rewrite IH.
Qed.

Lemma chunkLoop_zero fuel i allTasks st :
  (i < length allTasks)%nat → chunkLoop fuel env 0 i allTasks st = None.
Proof.
  intros Hi. induction fuel as [|fuel IH]; [done|].
  simpl. rewrite decide_True by done. rewrite Nat.add_0_r.
  unfold JS.slice. replace (i - i)%nat with 0%nat by lia. exact IH.
Qed.

End post_paths.

(** C5. When exactly task [K] of the enumeration fails in the chunked path,
    the function still returns: every task has been sent to the judge, the
    evaluations returned are those of all the other tasks in enumeration
    order, the record of each of them holds what the judge returned for
    its task, the ranking apart, within every transcript the rankings are a
    permutation of 1..(number of its evaluations), and the transcript of
    task [K] has one evaluation less than it has tasks. *)
Theorem chunked_failure_isolation
    (env : Orchestrator.Env) (batchData : Orchestrator.BatchData)
    (chunkSize : nat) (w : Orchestrator.World) (K : nat) (taskK : Orchestrator.Task) :
  (0 < chunkSize)%nat →
  Orchestrator.collectTasks batchData !! K = Some taskK →
  (∀ k task, Orchestrator.collectTasks batchData !! k = Some task →
     (∃ message,
        Orchestrator.judge env (Orchestrator.calls w + k) (Orchestrator.promptOf task)
        = Orchestrator.Threw message) ↔ k = K) →
  ∃ evaluations w',
    Orchestrator.evaluateBatchInChunks env batchData chunkSize w = Some (evaluations, w')
    ∧ Orchestrator.judged (Orchestrator.trace w')
      = Orchestrator.judged (Orchestrator.trace w)
        ++ (Orchestrator.promptOf <$> Orchestrator.collectTasks batchData)
    ∧ Runs.taskOf <$> evaluations = Some <$> delete K (Orchestrator.collectTasks batchData)
    ∧ (∀ g, Ranker.rankAt (Orchestrator.heap w') <$> locsOf g evaluations
            ≡ₚ seqZ 1 (Z.of_nat (length (locsOf g evaluations))))
    ∧ (∀ g, length (locsOf g evaluations)
            = (length (filter (fun t => Orchestrator.task_transcriptName t = g)
                         (Orchestrator.collectTasks batchData))
               - (if decide (Orchestrator.task_transcriptName taskK = g) then 1 else 0))%nat)
    ∧ (∀ e, e ∈ evaluations →
         ∃ k task r e',
           Orchestrator.collectTasks batchData !! k = Some task
           ∧ k ≠ K
           ∧ Runs.taskOf e = Some task
           ∧ Orchestrator.judge env (Orchestrator.calls w + k) (Orchestrator.promptOf task)
             = Orchestrator.Returned r
           ∧ Orchestrator.heap w' !! Orchestrator.results e = Some e'
           ∧ sameButRanking r e')
    ∧ (∀ l, (l < length (Orchestrator.heap w))%nat →
         Orchestrator.heap w' !! l = Orchestrator.heap w !! l).
Proof.
  intros Hpos HK Hfail.
  rewrite (inChunks_eq env batchData chunkSize w Hpos).
  set (tasks := Orchestrator.collectTasks batchData) in *.
  destruct (ranked_run_full env 100 tasks w) as (h' & Hr & _ & Hold & Hnew & Hp & _).
  set (evs := Runs.newEvaluations env (Orchestrator.calls w)
                (length (Orchestrator.heap w)) tasks) in *.
  assert (Runs.taskOf <$> evs = Some <$> delete K tasks) as Htasks.
  { unfold evs. rewrite newEvaluations_tasks. f_equal.
    apply succeeded_one_failure; [by eapply lookup_lt_Some|done]. }
  eexists _, _. split; [by rewrite Hr|].
  cbn [Orchestrator.heap Orchestrator.trace].
  split; [by rewrite judged_app, newTrace_judged|].
  split; [done|]. split; [exact Hp|]. split; [|split; [|exact Hold]].
  - intros g. rewrite (taskOf_group_length evs _ g Htasks).
    by rewrite (filter_delete_length _ tasks K taskK HK).
  - intros e He. apply list_elem_of_lookup_1 in He as [i Hi].
    pose proof Hi as Hi'.
    apply newEvaluations_origin in Hi' as (k & task & r & Hk & Hj & Hrec & ->).
    destruct (Hnew i _ Hrec) as (e' & He' & Hsame).
    exists k, task, r, e'. split; [exact Hk|]. split.
    { intros ->. destruct (proj2 (Hfail K task Hk) eq_refl) as [message Hm].
      rewrite Hm in Hj. discriminate Hj. }
    split; [apply taskOf_evaluationOf|]. split; [exact Hj|]. split; [exact He'|].
    eapply sameButRanking_trans; [apply (sameButRanking_set_overallRanking 0)|exact Hsame].
Qed.

Lemma chunked_failure_isolation_witness :
  ∃ evaluations w',
    Orchestrator.evaluateBatchInChunks sampleEnv sampleBatch 5 Orchestrator.emptyWorld
    = Some (evaluations, w')
    ∧ Ranker.rankAt (Orchestrator.heap w') <$> locsOf "t1" evaluations ≡ₚ seqZ 1 2
    ∧ Ranker.rankAt (Orchestrator.heap w') <$> locsOf "t2" evaluations ≡ₚ seqZ 1 4.
Proof.
  destruct (chunked_failure_isolation sampleEnv sampleBatch 5 Orchestrator.emptyWorld 1
              {| Orchestrator.task_transcriptName := "t1";
                 Orchestrator.task_transcriptContent := "T1";
                 Orchestrator.task_noteFile :=
                   {| Orchestrator.name := "1"; Orchestrator.content := "c" |} |})
    as (evaluations & w' & Hr & _ & _ & Hp & Hl & _).
  - lia.
  - reflexivity.
  - intros k task Hk. simpl. split.
    + intros [message Hm]. by destruct (decide (k = 1%nat)).
    + intros ->. by exists "quota".
  - exists evaluations, w'. split; [exact Hr|].
    pose proof (Hp "t1") as H1. pose proof (Hp "t2") as H2.
    rewrite (Hl "t1") in H1. rewrite (Hl "t2") in H2. split; [exact H1|exact H2].
Defined.

(** X1. [evaluateBatchInMemory], whatever calls of the judge fail: every
    task of the enumeration is sent to the judge once, in enumeration order;
    the evaluations returned are those of the tasks whose call succeeded, in
    that order; the run sleeps 1000 ms once for each of them; and within
    every transcript the rankings are a permutation of 1..(number of its
    evaluations). *)
Theorem in_memory_returns_the_successes
    (env : Orchestrator.Env) (batchData : Orchestrator.BatchData) (w : Orchestrator.World) :
  ∃ evaluations w',
    Orchestrator.evaluateBatchInMemory env batchData w = (evaluations, w')
    ∧ Orchestrator.calls w'
      = (Orchestrator.calls w + length (Orchestrator.collectTasks batchData))%nat
    ∧ Orchestrator.judged (Orchestrator.trace w')
      = Orchestrator.judged (Orchestrator.trace w)
        ++ (Orchestrator.promptOf <$> Orchestrator.collectTasks batchData)
    ∧ Runs.taskOf <$> evaluations
      = Some <$> Runs.succeeded env (Orchestrator.calls w)
                   (Orchestrator.collectTasks batchData)
    ∧ Orchestrator.delays (Orchestrator.trace w')
      = Orchestrator.delays (Orchestrator.trace w) ++ replicate (length evaluations) 1000
    ∧ (∀ g, Ranker.rankAt (Orchestrator.heap w') <$> locsOf g evaluations
            ≡ₚ seqZ 1 (Z.of_nat (length (locsOf g evaluations)))).
Proof.
  rewrite inMemory_eq.
  destruct (ranked_run_full env 1000 (Orchestrator.collectTasks batchData) w)
    as (h' & -> & _ & _ & _ & Hp & _).
  eexists _, _. split; [reflexivity|].
  cbn [Orchestrator.calls Orchestrator.trace Orchestrator.heap].
  split; [done|]. split; [by rewrite judged_app, newTrace_judged|].
  split; [apply newEvaluations_tasks|].
  split; [by rewrite delays_app, newTrace_delays, newEvaluations_length|exact Hp].
Qed.

(** X2. [evaluatePartialBatch] returns the evaluations of the first
    [maxFiles] tasks that succeed, in enumeration order: the tasks sent to
    the judge are a prefix of the enumeration, the run sleeps 100 ms after
    each evaluation, and with [maxFiles] 0 the judge is not called. *)
Theorem partial_returns_first_successes
    (env : Orchestrator.Env) (batchData : Orchestrator.BatchData) (maxFiles : nat)
    (w : Orchestrator.World) :
  ∃ evaluations w' m,
    Orchestrator.evaluatePartialBatch env batchData maxFiles w = (evaluations, w')
    ∧ Runs.taskOf <$> evaluations
      = Some <$> take maxFiles
                   (Runs.succeeded env (Orchestrator.calls w)
                      (Orchestrator.collectTasks batchData))
    ∧ (length evaluations ≤ maxFiles)%nat
    ∧ Orchestrator.judged (Orchestrator.trace w')
      = Orchestrator.judged (Orchestrator.trace w)
        ++ (Orchestrator.promptOf <$> take m (Orchestrator.collectTasks batchData))
    ∧ Orchestrator.delays (Orchestrator.trace w')
      = Orchestrator.delays (Orchestrator.trace w) ++ replicate (length evaluations) 100
    ∧ (maxFiles = 0%nat → m = 0%nat).
Proof.
  rewrite partial_eq.
  set (tasks := Orchestrator.collectTasks batchData).
  set (m := Runs.attempted env maxFiles (Orchestrator.calls w) 0 tasks).
  destruct (ranked_run_full env 100 (take m tasks) w) as (h' & -> & _).
  assert (Runs.taskOf <$> Runs.newEvaluations env (Orchestrator.calls w)
                            (length (Orchestrator.heap w)) (take m tasks)
          = Some <$> take maxFiles (Runs.succeeded env (Orchestrator.calls w) tasks))
    as Htasks.
  { rewrite newEvaluations_tasks. unfold m. rewrite succeeded_attempted.
    by rewrite Nat.sub_0_r. }
  eexists _, _, m. split; [reflexivity|]. cbn [Orchestrator.trace].
  split; [exact Htasks|]. split; [|split; [|split]].
  - rewrite <- (length_fmap Runs.taskOf), Htasks, length_fmap, length_take. lia.
  - by rewrite judged_app, newTrace_judged.
  - by rewrite delays_app, newTrace_delays, newEvaluations_length.
  - intros ->. apply attempted_zero.
Qed.

(** X3. The store after [POST], whatever the strategy: the records that
    were in the store before the request are untouched; one record is added
    for each evaluation returned, at consecutive new addresses in the order
    of the evaluations; and the record of an evaluation holds what the
    judge returned for its note file, scores, falsehoods and summary
    unchanged, the ranking apart. *)
Theorem post_store_frame
    (env : Orchestrator.Env) (batchData : Orchestrator.BatchData) (w : Orchestrator.World) :
  ∃ response w',
    Orchestrator.POST env batchData w = Some (response, w')
    ∧ Orchestrator.results <$> evaluationsOf response
      = seq (length (Orchestrator.heap w)) (length (evaluationsOf response))
    ∧ length (Orchestrator.heap w')
      = (length (Orchestrator.heap w) + length (evaluationsOf response))%nat
    ∧ (∀ l, (l < length (Orchestrator.heap w))%nat →
         Orchestrator.heap w' !! l = Orchestrator.heap w !! l)
    ∧ (∀ e, e ∈ evaluationsOf response →
         ∃ n task r e',
           (Orchestrator.calls w ≤ n < Orchestrator.calls w')%nat
           ∧ Runs.taskOf e = Some task
           ∧ Orchestrator.judge env n (Orchestrator.promptOf task) = Orchestrator.Returned r
           ∧ Orchestrator.heap w' !! Orchestrator.results e = Some e'
           ∧ sameButRanking r e').
Proof.
  destruct (POST_run env batchData w) as (response & w' & delay & m & HP & Hrun & Hm).
  destruct (ranked_run_full env delay (take m (Orchestrator.collectTasks batchData)) w)
    as (h' & Hr & Hlen & Hold & Hnew & _).
  rewrite Hrun in Hr. injection Hr as Hevs ->.
  eexists response, _. split; [exact HP|].
  cbn [Orchestrator.heap Orchestrator.calls]. rewrite Hevs.
  split; [|split; [exact Hlen|split; [exact Hold|]]].
  - by rewrite newEvaluations_results, newEvaluations_length.
  - intros e He. apply list_elem_of_lookup_1 in He as [i Hi].
    pose proof Hi as Hi'. apply newEvaluations_origin in Hi' as (k & task & r & Hk & Hj & Hrec & ->).
    destruct (Hnew i _ Hrec) as (e' & He' & Hsame).
    exists (Orchestrator.calls w + k)%nat, task, r, e'.
    split; [apply lookup_lt_Some in Hk; lia|].
    split; [apply taskOf_evaluationOf|]. split; [exact Hj|]. split; [exact He'|].
    eapply sameButRanking_trans; [apply (sameButRanking_set_overallRanking 0)|exact Hsame].
Qed.

(** X4. Every evaluation [POST] returns, whatever the strategy, is that of
    a note file of an entry of the structure that has a transcript: it
    carries the name of the entry, the transcript of the entry, and the
    name and the content of the note file.  The notes of an entry without a
    transcript are never evaluated, and no more evaluations are returned
    than the structure has note files. *)
Theorem post_evaluations_from_structure
    (env : Orchestrator.Env) (batchData : Orchestrator.BatchData) (w : Orchestrator.World) :
  ∃ response w',
    Orchestrator.POST env batchData w = Some (response, w')
    ∧ (length (evaluationsOf response) ≤ Orchestrator.totalFilesOf batchData)%nat
    ∧ (∀ e, e ∈ evaluationsOf response →
         ∃ group noteFile text,
           (Orchestrator.transcriptName e, group) ∈ Orchestrator.structure batchData
           ∧ Orchestrator.transcript group = Some text
           ∧ Orchestrator.transcriptContent e = Some text
           ∧ noteFile ∈ Orchestrator.notes group
           ∧ Orchestrator.noteFileName e = Orchestrator.name noteFile
           ∧ Orchestrator.noteContent e = Some (Orchestrator.content noteFile)).
Proof.
  destruct (POST_run env batchData w) as (response & w' & delay & m & HP & Hrun & Hm).
  destruct (ranked_run_full env delay (take m (Orchestrator.collectTasks batchData)) w)
    as (h' & Hr & _).
  rewrite Hrun in Hr. injection Hr as Hevs _.
  exists response, w'. split; [exact HP|]. rewrite Hevs. split.
  - rewrite newEvaluations_length.
    etrans; [|apply collectTasks_le].
    etrans; [|exact Hm].
    rewrite <- (length_take_le _ m Hm) at 2.
    generalize (take m (Orchestrator.collectTasks batchData)), (Orchestrator.calls w).
    intros tasks. induction tasks as [|task tasks IH]; intros n; simpl; [done|].
    destruct (Orchestrator.judge env n _); simpl; specialize (IH (S n)); lia.
  - intros e He. apply list_elem_of_lookup_1 in He as [i Hi].
    apply newEvaluations_origin in Hi as (k & task & r & Hk & _ & _ & ->).
    apply lookup_take_Some in Hk as [Hk _].
    apply list_elem_of_lookup_2, elem_of_collectTasks in Hk as (group & Hg & Ht & Hn).
    exists group, (Orchestrator.task_noteFile task), (Orchestrator.task_transcriptContent task).
    by repeat split.
Qed.

Lemma fmap_inj_on {A B} (f : A → B) (l : list A) x y :
  NoDup (f <$> l) → x ∈ l → y ∈ l → f x = f y → x = y.
Proof.
  intros Hnd Hx Hy Heq.
  apply list_elem_of_lookup_1 in Hx as [i Hi].
  apply list_elem_of_lookup_1 in Hy as [j Hj].
  assert (i = j) as ->; [|congruence].
  apply (NoDup_lookup (f <$> l) i j (f x)); [done|..].
  - by rewrite list_lookup_fmap, Hi.
  - by rewrite list_lookup_fmap, Hj, Heq.
Qed.

(** X5. The rankings [POST] returns, whatever the strategy, whatever calls
    of the judge fail and whatever the records hold: within every
    transcript of the response they are a permutation of 1..(number of its
    evaluations), so that every ranking lies between 1 and that number and
    no two evaluations of one transcript share a ranking. *)
Theorem post_ranks_dense_per_transcript
    (env : Orchestrator.Env) (batchData : Orchestrator.BatchData) (w : Orchestrator.World) :
  ∃ response w',
    Orchestrator.POST env batchData w = Some (response, w')
    ∧ (∀ g, Ranker.rankAt (Orchestrator.heap w') <$> locsOf g (evaluationsOf response)
            ≡ₚ seqZ 1 (Z.of_nat (length (locsOf g (evaluationsOf response)))))
    ∧ (∀ e, e ∈ evaluationsOf response →
         1 ≤ Ranker.rankAt (Orchestrator.heap w') (Orchestrator.results e)
           ≤ Z.of_nat (length (locsOf (Orchestrator.transcriptName e)
                                 (evaluationsOf response))))
    ∧ (∀ i j ei ej,
         evaluationsOf response !! i = Some ei →
         evaluationsOf response !! j = Some ej → i ≠ j →
         Orchestrator.transcriptName ei = Orchestrator.transcriptName ej →
         Ranker.rankAt (Orchestrator.heap w') (Orchestrator.results ei)
         ≠ Ranker.rankAt (Orchestrator.heap w') (Orchestrator.results ej)).
Proof.
  destruct (POST_run env batchData w) as (response & w' & delay & m & HP & Hrun & Hm).
  destruct (ranked_run_full env delay (take m (Orchestrator.collectTasks batchData)) w)
    as (h' & Hr & _ & _ & _ & Hp & _).
  rewrite Hrun in Hr. injection Hr as Hevs ->.
  eexists response, _. split; [exact HP|].
  cbn [Orchestrator.heap]. rewrite <- Hevs in Hp.
  set (evs := evaluationsOf response) in *.
  assert (NoDup (Orchestrator.results <$> evs)) as Hnd.
  { rewrite Hevs, newEvaluations_results. apply NoDup_seq. }
  split; [exact Hp|]. split.
  - intros e He.
    assert (Ranker.rankAt h' (Orchestrator.results e)
            ∈ Ranker.rankAt h' <$> locsOf (Orchestrator.transcriptName e) evs) as Hin.
    { apply list_elem_of_fmap_2, list_elem_of_fmap. exists e. split; [done|].
      by apply list_elem_of_filter. }
    rewrite (Hp (Orchestrator.transcriptName e)) in Hin.
    apply elem_of_seqZ in Hin. lia.
  - intros i j ei ej Hi Hj Hij Hg Heq.
    set (g := Orchestrator.transcriptName ei) in *.
    assert (NoDup (Ranker.rankAt h' <$> locsOf g evs)) as Hranks.
    { rewrite (Hp g). apply NoDup_seqZ. }
    assert (Orchestrator.results ei ∈ locsOf g evs) as Hei.
    { apply list_elem_of_fmap. exists ei. split; [done|].
      apply list_elem_of_filter. split; [done|by eapply list_elem_of_lookup_2]. }
    assert (Orchestrator.results ej ∈ locsOf g evs) as Hej.
    { apply list_elem_of_fmap. exists ej. split; [done|].
      apply list_elem_of_filter. split; [done|by eapply list_elem_of_lookup_2]. }
    assert (Orchestrator.results ei = Orchestrator.results ej) as Hres.
    { by apply (fmap_inj_on (Ranker.rankAt h') (locsOf g evs)). }
    apply Hij. apply (NoDup_lookup (Orchestrator.results <$> evs) i j
                        (Orchestrator.results ei)); [done|..].
    + by rewrite list_lookup_fmap, Hi.
    + by rewrite list_lookup_fmap, Hj, Hres.
Qed.

(** X6. When every call of the judge fails, [POST] still answers with
    [success: true], whatever the strategy: the evaluations are empty,
    every task of the enumeration has been sent to the judge, the run has
    not slept, and the store is as it was. *)
Theorem post_all_calls_fail
    (env : Orchestrator.Env) (batchData : Orchestrator.BatchData) (w : Orchestrator.World) :
  (∀ n p, ∃ message, Orchestrator.judge env n p = Orchestrator.Threw message) →
  ∃ response w',
    Orchestrator.POST env batchData w = Some (response, w')
    ∧ (response = Orchestrator.BatchResponse true []
       ∨ ∃ message, response
           = Orchestrator.PartialResponse true [] true
               (Orchestrator.totalFilesOf batchData) 0 message)
    ∧ Orchestrator.heap w' = Orchestrator.heap w
    ∧ Orchestrator.judged (Orchestrator.trace w')
      = Orchestrator.judged (Orchestrator.trace w)
        ++ (Orchestrator.promptOf <$> Orchestrator.collectTasks batchData)
    ∧ Orchestrator.delays (Orchestrator.trace w') = Orchestrator.delays (Orchestrator.trace w).
Proof.
  intros Hfail.
  assert (∀ delay,
            Orchestrator.rankWithinGroups
              (foldl (Orchestrator.runTask env delay) ([], w)
                 (Orchestrator.collectTasks batchData))
            = ([], {| Orchestrator.heap := Orchestrator.heap w;
                      Orchestrator.calls :=
                        Orchestrator.calls w + length (Orchestrator.collectTasks batchData);
                      Orchestrator.trace :=
                        Orchestrator.trace w
                        ++ Runs.newTrace env delay (Orchestrator.calls w)
                             (Orchestrator.collectTasks batchData) |})) as Hrun.
  { intros delay. rewrite run_spec, app_nil_l.
    destruct (run_all_fail env (Orchestrator.calls w) (length (Orchestrator.heap w)) delay
                (Orchestrator.collectTasks batchData) Hfail) as (-> & -> & _).
    by rewrite app_nil_r. }
  assert (∀ delay,
            Orchestrator.delays
              (Orchestrator.trace w
               ++ Runs.newTrace env delay (Orchestrator.calls w)
                    (Orchestrator.collectTasks batchData))
            = Orchestrator.delays (Orchestrator.trace w)) as Hdelays.
  { intros delay. rewrite delays_app.
    destruct (run_all_fail env (Orchestrator.calls w) (length (Orchestrator.heap w)) delay
                (Orchestrator.collectTasks batchData) Hfail) as (_ & _ & ->).
    by rewrite app_nil_r. }
  unfold Orchestrator.POST.
  destruct (decide (100 < Orchestrator.totalFilesOf batchData)%nat).
  - rewrite partial_eq, attempted_all_fail by (done || lia).
    rewrite firstn_all, Hrun.
    eexists _, _. split; [reflexivity|]. cbn [Orchestrator.heap Orchestrator.trace].
    split; [right; by eexists|]. split; [done|].
    split; [by rewrite judged_app, newTrace_judged|apply Hdelays].
  - destruct (decide (5 < Orchestrator.totalFilesOf batchData)%nat).
    + rewrite inChunks_eq by lia. rewrite Hrun.
      eexists _, _. split; [reflexivity|]. cbn [Orchestrator.heap Orchestrator.trace].
      split; [by left|]. split; [done|].
      split; [by rewrite judged_app, newTrace_judged|apply Hdelays].
    + rewrite inMemory_eq, Hrun.
      eexists _, _. split; [reflexivity|]. cbn [Orchestrator.heap Orchestrator.trace].
      split; [by left|]. split; [done|].
      split; [by rewrite judged_app, newTrace_judged|apply Hdelays].
Qed.

Lemma post_all_calls_fail_witness :
  ∃ w',
    Orchestrator.POST sampleEnvAllFail sampleBatch Orchestrator.emptyWorld
    = Some (Orchestrator.BatchResponse true [], w')
    ∧ Orchestrator.heap w' = [].
Proof.
  destruct (post_all_calls_fail sampleEnvAllFail sampleBatch Orchestrator.emptyWorld)
    as (response & w' & HP & Hresp & Hheap & _).
  - intros n p. by exists "quota".
  - exists w'. destruct Hresp as [->|[message ->]].
    + split; [exact HP|exact Hheap].
    + vm_compute in HP. discriminate HP.
Defined.

(** X7. With a chunk size of 0 the loop of [evaluateBatchInChunks] does not
    advance: as soon as the enumeration holds a task the function does not
    return, however long it runs. *)
Theorem chunk_size_zero_never_returns
    (env : Orchestrator.Env) (batchData : Orchestrator.BatchData) (w : Orchestrator.World) :
  Orchestrator.collectTasks batchData ≠ [] →
  Orchestrator.evaluateBatchInChunks env batchData 0 w = None
  ∧ ∀ fuel, Orchestrator.chunkLoop fuel env 0 0 (Orchestrator.collectTasks batchData)
              ([], w) = None.
Proof.
  intros Htasks.
  assert (0 < length (Orchestrator.collectTasks batchData))%nat as Hlen.
  { destruct (Orchestrator.collectTasks batchData); [done|simpl; lia]. }
  split.
  - unfold Orchestrator.evaluateBatchInChunks. by rewrite chunkLoop_zero.
  - intros fuel. by apply chunkLoop_zero.
Qed.

Lemma chunk_size_zero_never_returns_witness :
  Orchestrator.collectTasks sampleBatch ≠ []
  ∧ Orchestrator.evaluateBatchInChunks sampleEnv sampleBatch 0 Orchestrator.emptyWorld = None.
Proof.
  assert (Orchestrator.collectTasks sampleBatch ≠ []) as Htasks by done.
  split; [exact Htasks|].
  exact (proj1 (chunk_size_zero_never_returns sampleEnv sampleBatch
                  Orchestrator.emptyWorld Htasks)).
Defined.

(** ** The ranker reads the scores only *)

Section ranker_scores_only.
Import Ranker.
Variables (h1 h2 : list EvaluationResults) (evaluations : list nat).
Hypothesis evaluations_NoDup : NoDup evaluations.
Hypothesis alloc1 : ∀ l, l ∈ evaluations → (l < length h1)%nat.
Hypothesis alloc2 : ∀ l, l ∈ evaluations → (l < length h2)%nat.
Hypothesis same_scores : ∀ l, l ∈ evaluations → sameButRanking (h1 !!! l) (h2 !!! l).

Let key (a : WithComposite) : Q * nat := (compositeScore a, originalIndex a).
Let byKey (x y : Q * nat) : Q := (y.1 - x.1)%Q.

Lemma sorted_keys :
  key <$> JS.sort byComposite (imap (withComposite h1) evaluations)
  = key <$> JS.sort byComposite (imap (withComposite h2) evaluations).
Proof.
  change byComposite with (fun a b => byKey (key a) (key b)).
  rewrite !(sort_map byKey key). f_equal.
  apply list_eq. intros k. rewrite !list_lookup_fmap, !lookup_withComposite.
  destruct (evaluations !! k) as [l|] eqn:E; [|done]. simpl. unfold key. simpl.
  do 2 f_equal. symmetry. apply sameButRanking_composite, same_scores.
  by eapply list_elem_of_lookup_2.
Qed.

Lemma ranks_agree l :
  l ∈ evaluations →
  rankAt (rankEvaluations h2 evaluations).1 l = rankAt (rankEvaluations h1 evaluations).1 l.
Proof.
  intros Hl. apply list_elem_of_lookup_1 in Hl as [k Hk].
  rewrite !rankEvaluations_eq. cbn [fst].
  destruct (position_of_input h1 evaluations evaluations_NoDup alloc1 k l Hk)
    as (p & Hp & Hr1).
  destruct (position_of_input h2 evaluations evaluations_NoDup alloc2 k l Hk)
    as (q & Hq & Hr2).
  unfold rankAt. rewrite Hr1, Hr2. simpl.
  assert (p = q) as ->; [|done].
  pose proof sorted_keys as Hkeys.
  apply (f_equal (fmap snd)) in Hkeys. rewrite <- !list_fmap_compose in Hkeys.
  apply (NoDup_lookup
           (originalIndex <$> JS.sort byComposite (imap (withComposite h1) evaluations))
           p q k).
  - apply sorted_tags_NoDup.
  - by rewrite list_lookup_fmap, Hp.
  - change originalIndex with (snd ∘ key). rewrite Hkeys.
    by rewrite list_lookup_fmap, Hq.
Qed.

End ranker_scores_only.

(** X8. The rankings [rankEvaluations] writes depend on the scores only:
    on two stores whose records differ at most in the rankings they hold,
    it writes the same rankings.  Rankings left by an earlier pass are
    ignored. *)
Theorem rankEvaluations_reads_scores_only
    (h1 h2 : list EvaluationResults) (evaluations : list nat) :
  NoDup evaluations →
  (∀ l, l ∈ evaluations → (l < length h1)%nat) →
  (∀ l, l ∈ evaluations → (l < length h2)%nat) →
  (∀ l, l ∈ evaluations → sameButRanking (h1 !!! l) (h2 !!! l)) →
  Ranker.rankAt (Ranker.rankEvaluations h2 evaluations).1 <$> evaluations
  = Ranker.rankAt (Ranker.rankEvaluations h1 evaluations).1 <$> evaluations.
Proof.
  intros Hnd H1 H2 Hsame. apply Forall_fmap_ext_1, Forall_forall. intros l Hl.
  by apply ranks_agree.
Qed.

Lemma rankEvaluations_reads_scores_only_witness :
  let h1 := [mkResults 5 6; mkResults 9 9; mkResults 7 8] in
  let h2 := set_overallRanking 3 <$> h1 in
  Ranker.rankAt (Ranker.rankEvaluations h2 [2; 0; 1]%nat).1 <$> [2; 0; 1]%nat
  = Ranker.rankAt (Ranker.rankEvaluations h1 [2; 0; 1]%nat).1 <$> [2; 0; 1]%nat.
Proof.
  intros h1 h2. apply rankEvaluations_reads_scores_only.
  - apply (bool_decide_unpack _). vm_compute. reflexivity.
  - apply Forall_forall. apply (bool_decide_unpack _). vm_compute. reflexivity.
  - apply Forall_forall. apply (bool_decide_unpack _). vm_compute. reflexivity.
  - intros l Hl. apply elem_of_cons in Hl as [->|Hl]; [by repeat split|].
    apply elem_of_cons in Hl as [->|Hl]; [by repeat split|].
    apply elem_of_cons in Hl as [->|Hl]; [by repeat split|].
    by apply elem_of_nil in Hl.
Defined.

(** X9. [rankEvaluations] is idempotent: ranking an array a second time
    leaves the store as the first pass left it. *)
Theorem rankEvaluations_idempotent
    (h : list EvaluationResults) (evaluations : list nat) :
  NoDup evaluations →
  (∀ l, l ∈ evaluations → (l < length h)%nat) →
  ∃ h', Ranker.rankEvaluations h evaluations = (h', evaluations)
    ∧ Ranker.rankEvaluations h' evaluations = (h', evaluations).
Proof.
  intros Hnd Halloc.
  destruct (rankEvaluations_rewritten evaluations h) as (h' & Hr & Hlen & Hout & Hs).
  assert (∀ l, l ∈ evaluations → (l < length h')%nat) as Halloc'.
  { intros l Hl. rewrite Hlen. by apply Halloc. }
  assert (∀ l, l ∈ evaluations → sameButRanking (h !!! l) (h' !!! l)) as Hsame.
  { intros l Hl. destruct (lookup_lt_is_Some_2 h l (Halloc l Hl)) as [e He].
    destruct (Hs l e He) as (e' & He' & H).
    by rewrite (list_lookup_total_correct _ _ _ He), (list_lookup_total_correct _ _ _ He'). }
  destruct (rankEvaluations_rewritten evaluations h') as (h'' & Hr' & Hlen' & Hout' & _).
  exists h'. split; [exact Hr|]. rewrite Hr'. f_equal.
  apply list_eq. intros l.
  destruct (decide (l ∈ evaluations)) as [Hl|Hl]; [|by apply Hout'].
  pose proof (ranks_agree h h' evaluations Hnd Halloc Halloc' Hsame l Hl) as Hrank.
  rewrite Hr, Hr' in Hrank. cbn [fst] in Hrank.
  pose proof Hl as Hk. apply list_elem_of_lookup_1 in Hk as [k Hk].
  destruct (position_of_input h' evaluations Hnd Halloc' k l Hk) as (q & _ & Hq).
  destruct (position_of_input h evaluations Hnd Halloc k l Hk) as (p & _ & Hp).
  rewrite rankEvaluations_eq in Hr, Hr'. injection Hr as Hr. injection Hr' as Hr'.
  rewrite Hr' in Hq. rewrite Hr in Hp.
  unfold Ranker.rankAt in Hrank. rewrite Hq, Hp in Hrank. simpl in Hrank.
  rewrite (list_lookup_lookup_total_lt h'' l), (list_lookup_lookup_total_lt h' l)
    by (rewrite ?Hlen'; by apply Halloc').
  f_equal. rewrite Hq, Hp, Hrank. reflexivity.
Qed.

Lemma rankEvaluations_idempotent_witness :
  let h := [mkResults 5 6; mkResults 9 9; mkResults 7 8] in
  ∃ h', Ranker.rankEvaluations h [2; 0; 1]%nat = (h', [2; 0; 1]%nat)
    ∧ Ranker.rankEvaluations h' [2; 0; 1]%nat = (h', [2; 0; 1]%nat).
Proof.
  intros h. apply rankEvaluations_idempotent.
  - apply (bool_decide_unpack _). vm_compute. reflexivity.
  - apply Forall_forall. apply (bool_decide_unpack _). vm_compute. reflexivity.
Defined.

(** ** [batchEvaluateNotes] *)

Section batch_notes.
Import Orchestrator Runs.
Variable env : Env.

Let taskFor (transcript transcriptName : string) (noteFile : Batch.NoteFile) : Task :=
  {| task_transcriptName := transcriptName;
     task_transcriptContent := transcript;
     task_noteFile := {| name := Batch.filename noteFile;
                         content := Batch.content noteFile |} |}.

Lemma tasksOf_entryOf t tn noteFiles :
  tasksOf (Batch.entryOf t tn noteFiles)
  = taskFor t tn <$> noteFiles.
Proof. unfold tasksOf, Batch.entryOf. cbn. by rewrite <- list_fmap_compose. Qed.

Lemma evaluateNote_run t tn noteFiles evs w :
  foldl (Batch.evaluateNote env t) (results <$> evs, w) noteFiles
  = (results <$> (foldl (runTask env 1000) (evs, w)
                    (taskFor t tn <$> noteFiles)).1,
     (foldl (runTask env 1000) (evs, w)
        (taskFor t tn <$> noteFiles)).2).
Proof.
  revert evs w. induction noteFiles as [|nf nfs IH]; intros evs w; [done|].
  rewrite fmap_cons. cbn [foldl]. unfold runTask at 2 4. rewrite attempt_eq.
  unfold Batch.evaluateNote at 2. unfold evaluateDentalNotes.
  change {| prompt_transcript := t; prompt_notes := Batch.content nf;
            prompt_noteFileName := Batch.filename nf |}
    with (promptOf (taskFor t tn nf)).
  destruct (judge env (calls w) (promptOf (taskFor t tn nf)))
    as [message|r]; cbn [snd alloc heap calls trace emit].
  - apply IH.
  - rewrite <- IH. f_equal. f_equal. by rewrite fmap_app.
Qed.

Lemma locsOf_all tn (evs : list Evaluation) :
  (∀ e, e ∈ evs → transcriptName e = tn) → locsOf tn evs = results <$> evs.
Proof.
  intros H. unfold locsOf. f_equal. induction evs as [|e evs IH]; [done|].
  rewrite filter_cons, decide_True by (apply H; by left).
  f_equal. apply IH. intros e' He'. apply H. by right.
Qed.

Lemma locsOf_other tn g (evs : list Evaluation) :
  (∀ e, e ∈ evs → transcriptName e = tn) → g ≠ tn → locsOf g evs = [].
Proof.
  intros H Hg. unfold locsOf. induction evs as [|e evs IH]; [done|].
  rewrite filter_cons, decide_False by (rewrite (H e) by (by left); done).
  apply IH. intros e' He'. apply H. by right.
Qed.

Lemma rankAll_single (evs : list Evaluation) h gs tn :
  (∀ e, e ∈ evs → transcriptName e = tn) → NoDup gs → (tn ∉ gs → evs = []) →
  rankAll evs h gs = (Ranker.rankEvaluations h (results <$> evs)).1.
Proof.
  intros Hall. revert h. induction gs as [|g gs IH]; intros h Hnd Hne.
  { rewrite Hne; [done|]. apply not_elem_of_nil. }
  apply NoDup_cons in Hnd as [Hg Hnd]. unfold rankAll. cbn [foldl].
  fold (rankAll evs (Ranker.rankEvaluations h (locsOf g evs)).1 gs).
  destruct (decide (g = tn)) as [->|Hgtn].
  - rewrite (locsOf_all tn evs Hall).
    generalize (Ranker.rankEvaluations h (results <$> evs)).1. intros h1.
    clear IH Hne Hnd. induction gs as [|g gs IH]; [done|].
    unfold rankAll. cbn [foldl].
    rewrite (locsOf_other tn g evs Hall).
    + apply IH. intros Hin. apply Hg. by right.
    + intros ->. apply Hg. by left.
  - rewrite (locsOf_other tn g evs Hall Hgtn). cbn [Ranker.rankEvaluations fst].
    apply IH; [done|]. intros Hout. apply Hne.
    intros Hin. apply elem_of_cons in Hin as [?|?]; done.
Qed.

Lemma batchEvaluateNotes_run t tn noteFiles w :
  Batch.batchEvaluateNotes env t tn noteFiles w
  = (results <$> (rankWithinGroups
                    (foldl (runTask env 1000) ([], w) (taskFor t tn <$> noteFiles))).1,
     (rankWithinGroups
        (foldl (runTask env 1000) ([], w) (taskFor t tn <$> noteFiles))).2).
Proof.
  unfold Batch.batchEvaluateNotes.
  set (tasks := taskFor t tn <$> noteFiles).
  pose proof (evaluateNote_run t tn noteFiles [] w) as Hrun.
  rewrite fmap_nil in Hrun. rewrite Hrun. fold tasks. clear Hrun.
  rewrite run_spec, app_nil_l. cbn [fst snd].
  set (evs := newEvaluations env (calls w) (length (heap w)) tasks).
  set (w1 := {| heap := _; calls := _; trace := _ |}).
  assert (∀ e, e ∈ evs → transcriptName e = tn) as Hall.
  { intros e He. apply list_elem_of_lookup_1 in He as [i Hi].
    apply newEvaluations_origin in Hi as (k & task & r & Hk & _ & _ & ->).
    apply list_elem_of_lookup_2 in Hk. unfold tasks in Hk.
    by apply list_elem_of_fmap in Hk as (nf & -> & _). }
  destruct (rankWithinGroups_spec evs w1) as (h' & -> & Hh' & _).
  { apply run_results_NoDup. }
  { intros e He. by apply run_results_alloc. }
  cbn [fst snd].
  rewrite (rankAll_single evs (heap w1) _ tn Hall
             (evaluationsByTranscript_keys evs)) in Hh'.
  - destruct (rankEvaluations_rewritten (results <$> evs) (heap w1)) as (h'' & Hr & _).
    rewrite Hr in Hh' |- *. cbn [fst] in Hh'. by subst h''.
  - intros Hout. apply absent_group_empty in Hout.
    rewrite (locsOf_all _ evs Hall) in Hout. by apply fmap_nil_inv in Hout.
Qed.

Lemma batchEvaluateNotes_eq batchId t tn noteFiles w :
  Batch.batchEvaluateNotes env t tn noteFiles w
  = (results <$> (evaluateBatchInMemory env
                    {| batchId := batchId;
                       structure := [Batch.entryOf t tn noteFiles] |} w).1,
     (evaluateBatchInMemory env
        {| batchId := batchId;
           structure := [Batch.entryOf t tn noteFiles] |} w).2).
Proof.
  rewrite inMemory_eq, collectTasks_flat. cbn [structure].
  rewrite bind_cons. cbn [mbind list_bind]. rewrite app_nil_r.
  rewrite tasksOf_entryOf. apply batchEvaluateNotes_run.
Qed.

Lemma batchEvaluateNotes_names t tn noteFiles n hl e :
  e ∈ newEvaluations env n hl (taskFor t tn <$> noteFiles) → transcriptName e = tn.
Proof.
  intros He. apply list_elem_of_lookup_1 in He as [i Hi].
  apply newEvaluations_origin in Hi as (k & task & r & Hk & _ & _ & ->).
  apply list_elem_of_lookup_2 in Hk.
  by apply list_elem_of_fmap in Hk as (nf & -> & _).
Qed.

Lemma newEvaluations_le n hl tasks :
  (length (newEvaluations env n hl tasks) ≤ length tasks)%nat.
Proof.
  revert n hl. induction tasks as [|task tasks IH]; intros n hl; simpl; [done|].
  destruct (judge env n (promptOf task)); simpl.
  - specialize (IH (S n) hl). lia.
  - specialize (IH (S n) (S hl)). lia.
Qed.

End batch_notes.

(** X10. [batchEvaluateNotes] does for the note files of one transcript
    what [evaluateBatchInMemory] does for a batch of that single entry: the
    same calls of the judge, the same delays, the same store, and the
    array it returns holds the records of the evaluations the in-memory
    path returns, in the same order. *)
Theorem batchEvaluateNotes_agrees_with_in_memory
    (env : Orchestrator.Env) (batchId t tn : string)
    (noteFiles : list Batch.NoteFile) (w : Orchestrator.World) :
  ∃ evaluations w',
    Orchestrator.evaluateBatchInMemory env
      {| Orchestrator.batchId := batchId;
         Orchestrator.structure := [Batch.entryOf t tn noteFiles] |} w
    = (evaluations, w')
    ∧ Batch.batchEvaluateNotes env t tn noteFiles w
      = (Orchestrator.results <$> evaluations, w').
Proof.
  rewrite (batchEvaluateNotes_eq env batchId).
  destruct (Orchestrator.evaluateBatchInMemory env _ w) as [evaluations w'].
  by exists evaluations, w'.
Qed.

(** X11. [batchEvaluateNotes], whatever calls of the judge fail: the judge
    is called once for each note file, in order, with the transcript, the
    content and the name of the file; a failed call is skipped; the array
    returned holds one new record for each call that succeeded, in order;
    the run sleeps 1000 ms for each; records that were in the store are
    untouched; and the rankings written are a permutation of 1..(length of
    the array), whatever the records hold. *)
Theorem batchEvaluateNotes_ranks_the_successes
    (env : Orchestrator.Env) (t tn : string)
    (noteFiles : list Batch.NoteFile) (w : Orchestrator.World) :
  ∃ ranked w',
    Batch.batchEvaluateNotes env t tn noteFiles w = (ranked, w')
    ∧ Orchestrator.judged (Orchestrator.trace w')
      = Orchestrator.judged (Orchestrator.trace w)
        ++ ((fun noteFile =>
               {| Orchestrator.prompt_transcript := t;
                  Orchestrator.prompt_notes := Batch.content noteFile;
                  Orchestrator.prompt_noteFileName := Batch.filename noteFile |})
            <$> noteFiles)
    ∧ Orchestrator.delays (Orchestrator.trace w')
      = Orchestrator.delays (Orchestrator.trace w) ++ replicate (length ranked) 1000
    ∧ (length ranked ≤ length noteFiles)%nat
    ∧ ranked = seq (length (Orchestrator.heap w)) (length ranked)
    ∧ (∀ l, (l < length (Orchestrator.heap w))%nat →
         Orchestrator.heap w' !! l = Orchestrator.heap w !! l)
    ∧ Ranker.rankAt (Orchestrator.heap w') <$> ranked
      ≡ₚ seqZ 1 (Z.of_nat (length ranked)).
Proof.
  rewrite batchEvaluateNotes_run.
  match goal with
  | |- context [foldl _ _ (?f <$> noteFiles)] => set (tasks := f <$> noteFiles)
  end.
  destruct (ranked_run_full env 1000 tasks w) as (h' & -> & _ & Hold & _ & Hp & _).
  set (evs := Runs.newEvaluations env (Orchestrator.calls w)
                (length (Orchestrator.heap w)) tasks) in *.
  assert (∀ e, e ∈ evs → Orchestrator.transcriptName e = tn) as Hall.
  { intros e He. by apply batchEvaluateNotes_names in He. }
  eexists _, _. split; [reflexivity|].
  cbn [fst snd Orchestrator.trace Orchestrator.heap]. rewrite length_fmap.
  split; [|split; [|split; [|split; [|split; [exact Hold|]]]]].
  - rewrite judged_app, newTrace_judged. unfold tasks.
    by rewrite <- list_fmap_compose.
  - unfold evs. by rewrite delays_app, newTrace_delays, newEvaluations_length.
  - etrans; [apply newEvaluations_le|]. unfold tasks. by rewrite length_fmap.
  - unfold evs. by rewrite newEvaluations_results, newEvaluations_length.
  - specialize (Hp tn). rewrite (locsOf_all tn evs Hall) in Hp.
    by rewrite length_fmap in Hp.
Qed.

(** ** The commentary, block by block *)

Section commentary_anatomy.
Import Summary.
Variable r : list NoteTypeStats.
Hypothesis r_nonempty : r ≠ [].

Let r1 := JS.sort byAvgDetail r.
Let r2 := JS.sort byAvgTruthfulness r1.
Let asc := JS.sort (fun a b => variance a - variance b)%Q (consistency <$> r2).
Let desc := JS.sort (fun a b => variance b - variance a)%Q asc.
Let fasc :=
  JS.sort (fun a b => avgFalsehoods a - avgFalsehoods b)%Q (falsehoodRate <$> r2).
Let fdesc := JS.sort (fun a b => avgFalsehoods b - avgFalsehoods a)%Q fasc.

(** On a non-empty array every read of [generateCommentary] finds its
    element, and the commentary is made of five blocks. *)
Lemma commentary_anatomy :
  ∃ best worst md mt mc lc safest riskiest,
    r !! 0%nat = Some best ∧ r !! (length r - 1)%nat = Some worst
    ∧ r1 !! 0%nat = Some md ∧ r2 !! 0%nat = Some mt
    ∧ asc !! 0%nat = Some mc ∧ desc !! 0%nat = Some lc
    ∧ fasc !! 0%nat = Some safest ∧ fdesc !! 0%nat = Some riskiest
    ∧ generateCommentary r
      = Some
          {| comments :=
               (if JS.gt (avgCompositeScore best - avgCompositeScore worst) 2
                then [SignificantGap (filename best) (filename worst)
                        (avgCompositeScore best - avgCompositeScore worst)]
                else if JS.gt (avgCompositeScore best - avgCompositeScore worst) 1
                then [ModeratelyBetter (filename best)
                        (avgCompositeScore best - avgCompositeScore worst)]
                else [QuiteConsistent (avgCompositeScore best - avgCompositeScore worst)])
               ++ (if bool_decide (filename md = filename mt)
                      && bool_decide (filename md = filename best)
                   then [ClearWinner (filename best)]
                   else if negb (bool_decide (filename md = filename mt))
                   then [DifferentStrengths (filename md) (filename mt)]
                   else [])
               ++ (if JS.lt (variance mc) (1 # 2)
                   then [ExceptionalConsistency (c_filename mc)]
                   else if JS.gt (variance lc) 2
                   then [SignificantVariation (c_filename lc)]
                   else [])
               ++ (if JS.eq (avgFalsehoods safest) 0
                   then [PerfectAccuracy (f_filename safest)]
                   else if JS.ge (avgFalsehoods riskiest) 2
                   then [RequiresAttention (f_filename riskiest) (avgFalsehoods riskiest)]
                   else [])
               ++ (if decide (length (filter (fun nt => JS.ge (avgCompositeScore nt) 8 = true) r2)
                              = length r2)
                   then [AllHighQuality]
                   else if decide (0 < length (filter (fun nt => JS.lt (avgCompositeScore nt) 6 = true) r2))%nat
                   then [BelowThreshold
                           (filename <$> filter (fun nt => JS.lt (avgCompositeScore nt) 6 = true) r2)]
                   else []);
             mostConsistent := Some mc;
             leastConsistent := Some lc;
             arrayAfter := r2 |}.
Proof.
  unfold generateCommentary.
  rewrite decide_False by (by destruct r).
  destruct (lookup_lt_is_Some_2 r 0) as [best Hbest]; [destruct r; [done|simpl; lia]|].
  destruct (lookup_lt_is_Some_2 r (length r - 1)) as [worst Hworst];
    [destruct r; [done|simpl; lia]|].
  rewrite Hbest, Hworst. cbn [mbind option_bind].
  assert (r1 ≠ []) as Hr1 by by apply sort_nonempty.
  assert (r2 ≠ []) as Hr2 by by apply sort_nonempty.
  destruct (sort_head_Some byAvgDetail r r_nonempty) as [md Hmd].
  destruct (sort_head_Some byAvgTruthfulness r1 Hr1) as [mt Hmt].
  fold r1 in Hmd |- *. rewrite Hmd. cbn [mbind option_bind].
  fold r2 in Hmt |- *. rewrite Hmt. cbn [mbind option_bind].
  assert (consistency <$> r2 ≠ []) as Hcs.
  { intros E. by apply fmap_nil_inv in E. }
  destruct (sort_head_Some (fun a b => variance a - variance b)%Q _ Hcs) as [mc Hmc].
  fold asc in Hmc |- *. rewrite Hmc. cbn [mbind option_bind].
  assert (asc ≠ []) as Hasc by by apply sort_nonempty.
  destruct (sort_head_Some (fun a b => variance b - variance a)%Q asc Hasc) as [lc Hlc].
  fold desc in Hlc |- *. rewrite Hlc. cbn [mbind option_bind].
  assert (falsehoodRate <$> r2 ≠ []) as Hfr.
  { intros E. by apply fmap_nil_inv in E. }
  destruct (sort_head_Some (fun a b => avgFalsehoods a - avgFalsehoods b)%Q _ Hfr)
    as [safest Hsafest].
  fold fasc in Hsafest |- *. rewrite Hsafest. cbn [mbind option_bind].
  assert (fasc ≠ []) as Hfasc by by apply sort_nonempty.
  destruct (sort_head_Some (fun a b => avgFalsehoods b - avgFalsehoods a)%Q fasc Hfasc)
    as [riskiest Hriskiest].
  fold fdesc in Hriskiest |- *. rewrite Hriskiest. cbn [mbind option_bind].
  exists best, worst, md, mt, mc, lc, safest, riskiest.
  by repeat (split; [done|]).
Qed.

End commentary_anatomy.

(** ** More on sorted arrays *)

Section sort_more.
Context {A : Type} (cmp : A → A → Q) (rk : A → Q).
Hypothesis cmp_rk : ∀ a b, JS.positive (cmp a b) = true ↔ (rk a < rk b)%Q.

(** The last element has the smallest key. *)
Lemma sort_last l x :
  JS.sort cmp l !! (length l - 1)%nat = Some x → ∀ y, y ∈ l → (rk x <= rk y)%Q.
Proof.
  intros Hx y Hy. apply (elem_of_sort cmp) in Hy.
  apply list_elem_of_lookup_1 in Hy as [q Hq].
  pose proof (lookup_lt_Some _ _ _ Hq) as Hlt. rewrite sort_length in Hlt.
  destruct (decide (q = length l - 1)%nat) as [->|Hne].
  - rewrite Hx in Hq. injection Hq as ->. apply Qle_refl.
  - apply (sort_descending cmp rk cmp_rk l q (length l - 1) y x); [done..|lia].
Qed.

(** Elements with equal keys stand in the sorted array as they stood
    before. *)
Lemma sort_stable_inv l p q a b :
  JS.sort cmp l !! p = Some a → JS.sort cmp l !! q = Some b → (p < q)%nat →
  (rk a == rk b)%Q →
  ∃ i j, (i < j)%nat ∧ l !! i = Some a ∧ l !! j = Some b.
Proof.
  set (tagged := imap pair l).
  set (cmp' := fun x y : nat * A => cmp x.2 y.2).
  assert (snd <$> JS.sort cmp' tagged = JS.sort cmp l) as Hsort.
  { unfold cmp'. rewrite (sort_map cmp snd). f_equal.
    apply list_eq. intros i. unfold tagged. rewrite list_lookup_fmap, list_lookup_imap.
    by destruct (l !! i). }
  assert (StronglySorted (lexlt (fun x : nat * A => rk x.2) fst) (JS.sort cmp' tagged))
    as Hsorted.
  { apply (sort_sorted cmp' (fun x => rk x.2) fst).
    - intros x y. apply cmp_rk.
    - apply lookup_StronglySorted. intros i j x y Hi Hj Hij.
      unfold tagged in Hi, Hj. rewrite list_lookup_imap in Hi, Hj.
      destruct (l !! i); [|done]. destruct (l !! j); [|done].
      simpl in *. by simplify_eq. }
  rewrite <- Hsort, !list_lookup_fmap. intros Hp Hq Hpq Heq.
  destruct (JS.sort cmp' tagged !! p) as [[i a']|] eqn:Ep; [|done].
  destruct (JS.sort cmp' tagged !! q) as [[j b']|] eqn:Eq; [|done].
  simpl in Hp, Hq. simplify_eq.
  assert ((i, a) ∈ tagged) as Ha.
  { apply (elem_of_sort cmp'). by eapply list_elem_of_lookup_2. }
  assert ((j, b) ∈ tagged) as Hb.
  { apply (elem_of_sort cmp'). by eapply list_elem_of_lookup_2. }
  apply list_elem_of_lookup_1 in Ha as [i' Hi'].
  apply list_elem_of_lookup_1 in Hb as [j' Hj'].
  unfold tagged in Hi', Hj'. rewrite list_lookup_imap in Hi', Hj'.
  destruct (l !! i') as [a'|] eqn:Ea; [|done].
  destruct (l !! j') as [b'|] eqn:Eb; [|done].
  simpl in Hi', Hj'. simplify_eq.
  exists i, j. split; [|by split].
  pose proof (StronglySorted_lookup _ _ _ _ _ _ Hsorted Ep Eq Hpq) as [Hlt|[_ Hlt]];
    simpl in Hlt; [|done].
  rewrite Heq in Hlt. by apply Qlt_irrefl in Hlt.
Qed.

End sort_more.

Lemma ascending_key {A} (key : A → Q) (a b : A) :
  JS.positive (key a - key b) = true ↔ (- key a < - key b)%Q.
Proof.
  rewrite descending_rk. split; intros H.
  - by apply Qopp_lt_compat.
  - apply Qopp_lt_compat in H. by rewrite !Qopp_involutive in H.
Qed.

(** Standing before another element in an array without duplicates. *)
Lemma before_asym {A} (l : list A) i j i' j' a b :
  NoDup l → l !! i = Some a → l !! j = Some b → (i < j)%nat →
  l !! i' = Some b → l !! j' = Some a → (i' < j')%nat → False.
Proof.
  intros Hnd Hi Hj Hij Hi' Hj' Hij'.
  pose proof (NoDup_lookup l i j' a Hnd Hi Hj').
  pose proof (NoDup_lookup l j i' b Hnd Hj Hi'). lia.
Qed.

(** ** The note types of a batch *)

Section note_types.
Import Summary.

Lemma groupPush_nonempty {V} key (v : V) m : JS.groupPush key v m ≠ [].
Proof. destruct m as [|[k ms] m]; simpl; [done|]. by destruct (decide (k = key)). Qed.

Lemma noteTypeGroups_nonempty evs : evs ≠ [] → noteTypeGroups evs ≠ [].
Proof.
  unfold noteTypeGroups. intros Hne.
  destruct evs as [|e evs]; [done|]. cbn [foldl].
  assert (JS.groupPush (noteFileName e) e [] ≠ []) as H by apply groupPush_nonempty.
  revert H. generalize (JS.groupPush (noteFileName e) e []). clear Hne.
  induction evs as [|e' evs IH]; intros m Hm; [done|].
  cbn [foldl]. apply IH. apply groupPush_nonempty.
Qed.

Lemma noteTypeStats_nonempty evs : evs ≠ [] → noteTypeStats evs ≠ [].
Proof.
  intros Hne E. unfold noteTypeStats in E. apply fmap_nil_inv in E.
  by apply noteTypeGroups_nonempty in E.
Qed.

Lemma noteTypeStats_filename_NoDup evs : NoDup (filename <$> noteTypeStats evs).
Proof.
  unfold noteTypeStats, noteTypeGroups. rewrite <- list_fmap_compose.
  assert ((filename ∘ stats) <$> foldl (fun acc evaluation =>
            JS.groupPush (noteFileName evaluation) evaluation acc) [] evs
          = (foldl (fun acc evaluation =>
            JS.groupPush (noteFileName evaluation) evaluation acc) [] evs).*1) as ->.
  { apply list_fmap_ext. by intros i [f evals] _. }
  apply groups_names_NoDup. constructor.
Qed.

Lemma noteTypeStats_NoDup evs : NoDup (noteTypeStats evs).
Proof. eapply NoDup_fmap_1, noteTypeStats_filename_NoDup. Qed.

(** The groups are never empty, and together they hold every evaluation
    once. *)
Lemma groupPush_members {V} key (v : V) m :
  Forall (fun entry => entry.2 ≠ []) m →
  Forall (fun entry => entry.2 ≠ []) (JS.groupPush key v m).
Proof.
  induction m as [|[k ms] m IH]; intros H; simpl.
  { by repeat constructor. }
  apply Forall_cons in H as [Hk H]. destruct (decide (k = key)).
  - constructor; [|done]. simpl. by destruct ms.
  - constructor; [done|]. by apply IH.
Qed.

Lemma sum_list_cons (x : nat) l : sum_list (x :: l) = (x + sum_list l)%nat.
Proof. reflexivity. Qed.

Lemma groupPush_weight {V} (weight : V → nat) key (v : V) m :
  sum_list ((fun entry => sum_list (weight <$> entry.2)) <$> JS.groupPush key v m)
  = (sum_list ((fun entry => sum_list (weight <$> entry.2)) <$> m) + weight v)%nat.
Proof.
  induction m as [|[k ms] m IH].
  { cbn [JS.groupPush]. rewrite fmap_cons, fmap_nil, !sum_list_cons. cbn [snd].
    rewrite fmap_cons, fmap_nil, sum_list_cons. simpl. lia. }
  cbn [JS.groupPush]. destruct (decide (k = key)).
  - rewrite !fmap_cons, !sum_list_cons. cbn [snd].
    rewrite fmap_app, sum_list_with_app, fmap_cons, fmap_nil, sum_list_cons. simpl. lia.
  - rewrite !fmap_cons, !sum_list_cons, IH. lia.
Qed.

Lemma noteTypeGroups_weight (weight : Evaluation → nat) evs :
  sum_list ((fun entry => sum_list (weight <$> entry.2)) <$> noteTypeGroups evs)
  = sum_list (weight <$> evs).
Proof.
  unfold noteTypeGroups.
  assert (∀ m,
    sum_list ((fun entry => sum_list (weight <$> entry.2))
              <$> foldl (fun acc evaluation =>
                           JS.groupPush (noteFileName evaluation) evaluation acc) m evs)
    = (sum_list ((fun entry => sum_list (weight <$> entry.2)) <$> m)
       + sum_list (weight <$> evs))%nat) as H.
  { induction evs as [|e evs IH]; intros m.
    - cbn [foldl]. rewrite fmap_nil. simpl. lia.
    - cbn [foldl]. rewrite IH, groupPush_weight, fmap_cons, sum_list_cons. lia. }
  rewrite H, fmap_nil. simpl. lia.
Qed.

Lemma noteTypeGroups_members evs :
  Forall (fun entry => entry.2 ≠ []) (noteTypeGroups evs).
Proof.
  unfold noteTypeGroups.
  assert (∀ m, Forall (fun entry : string * list Evaluation => entry.2 ≠ []) m →
               Forall (fun entry => entry.2 ≠ [])
                 (foldl (fun acc evaluation =>
                           JS.groupPush (noteFileName evaluation) evaluation acc) m evs)) as H.
  { induction evs as [|e evs IH]; intros m Hm; simpl; [done|].
    apply IH. by apply groupPush_members. }
  apply H. constructor.
Qed.

Lemma foldl_add_sum {V} (weight : V → nat) (l : list V) n :
  foldl (fun sum x => (sum + weight x)%nat) n l = (n + sum_list (weight <$> l))%nat.
Proof.
  revert n. induction l as [|x l IH]; intros n.
  - cbn [foldl]. rewrite fmap_nil. simpl. lia.
  - cbn [foldl]. rewrite IH, fmap_cons, sum_list_cons. lia.
Qed.

End note_types.

(** ** The summary of a non-empty batch *)

Section summary_view.
Import Summary.
Variable evs : list Evaluation.
Hypothesis evs_nonempty : evs ≠ [].

Lemma ranked_perm : rankedNoteTypes evs ≡ₚ noteTypeStats evs.
Proof. apply sort_Permutation. Qed.

Lemma ranked_nonempty : rankedNoteTypes evs ≠ [].
Proof. unfold rankedNoteTypes. apply sort_nonempty. by apply noteTypeStats_nonempty. Qed.

Lemma after_perm :
  JS.sort byAvgTruthfulness (JS.sort byAvgDetail (rankedNoteTypes evs))
  ≡ₚ noteTypeStats evs.
Proof. unfold rankedNoteTypes. by rewrite !sort_Permutation. Qed.

Lemma ranked_best best :
  rankedNoteTypes evs !! 0%nat = Some best →
  best ∈ noteTypeStats evs
  ∧ ∀ s, s ∈ noteTypeStats evs → (avgCompositeScore s <= avgCompositeScore best)%Q.
Proof.
  intros Hbest.
  destruct (sort_head byAvgComposite avgCompositeScore byAvgComposite_rk
              (noteTypeStats evs) (noteTypeStats_nonempty evs evs_nonempty))
    as (x & Hx & Hin & Hmax).
  unfold rankedNoteTypes in Hbest. rewrite Hx in Hbest. by injection Hbest as <-.
Qed.

Lemma ranked_worst worst :
  rankedNoteTypes evs !! (length (rankedNoteTypes evs) - 1)%nat = Some worst →
  worst ∈ noteTypeStats evs
  ∧ ∀ s, s ∈ noteTypeStats evs → (avgCompositeScore worst <= avgCompositeScore s)%Q.
Proof.
  intros Hworst. split.
  - rewrite <- ranked_perm. by eapply list_elem_of_lookup_2.
  - unfold rankedNoteTypes in Hworst. rewrite sort_length in Hworst.
    by apply (sort_last byAvgComposite avgCompositeScore byAvgComposite_rk
                (noteTypeStats evs)).
Qed.

End summary_view.

(** X12. [BatchSummary] renders nothing exactly for an empty array of
    evaluations; otherwise [generateCommentary] finds an element at every
    position it reads, so that the component never throws: it shows every
    note type once, between one and five sentences of commentary, and the
    four quick stats. *)
Theorem BatchSummary_never_throws (evs : list Summary.Evaluation) :
  match Summary.BatchSummary evs with
  | Summary.Nothing => evs = []
  | Summary.Throws => False
  | Summary.Shows v =>
      evs ≠ []
      ∧ Summary.rankings v ≡ₚ Summary.noteTypeStats evs
      ∧ (1 ≤ length (Summary.commentary v) ≤ 5)%nat
      ∧ is_Some (Summary.bestOverall v)
      ∧ is_Some (Summary.viewMostDetailed v)
      ∧ is_Some (Summary.viewMostTruthful v)
      ∧ is_Some (Summary.fewestIssues v)
  end.
Proof.
  unfold Summary.BatchSummary.
  destruct (decide (length evs = 0%nat)) as [Hlen|Hlen]; [by apply nil_length_inv|].
  assert (evs ≠ []) as Hne by (by destruct evs).
  destruct (commentary_anatomy (Summary.rankedNoteTypes evs) (ranked_nonempty evs Hne))
    as (best & worst & md & mt & mc & lc & safest & riskiest
        & _ & _ & _ & Hmt & _ & _ & _ & _ & ->).
  cbn [Summary.arrayAfter Summary.comments Summary.rankings Summary.commentary
       Summary.bestOverall Summary.viewMostDetailed Summary.viewMostTruthful
       Summary.fewestIssues].
  set (r2 := JS.sort Summary.byAvgTruthfulness
               (JS.sort Summary.byAvgDetail (Summary.rankedNoteTypes evs))) in *.
  assert (r2 ≠ []) as Hr2 by (intros E; by rewrite E in Hmt).
  split; [done|]. split; [apply (after_perm evs)|]. split.
  { rewrite !length_app. split.
    - destruct (JS.gt _ 2); [simpl; lia|]. destruct (JS.gt _ 1); simpl; lia.
    - repeat match goal with
             | |- context [length (if ?b then _ else _)] => destruct b
             end; simpl; lia. }
  assert (∀ {A} (cmp : A → A → Q) (f : A → string) l,
            l ≠ [] → is_Some (f <$> JS.sort cmp l !! 0%nat)) as Hhead.
  { intros A cmp f l Hl. destruct (sort_head_Some cmp l Hl) as [x ->]. by eexists. }
  split; [rewrite Hmt; by eexists|].
  split; [by apply Hhead|].
  split; [by apply Hhead, sort_nonempty|].
  by apply Hhead, sort_nonempty, sort_nonempty.
Qed.


(** ** The sentences of the commentary *)

Lemma filter_length_all {A} (P : A → Prop) `{∀ x, Decision (P x)} (l : list A) :
  length (filter P l) = length l ↔ ∀ x, x ∈ l → P x.
Proof.
  induction l as [|y l IH].
  { split; [intros _ x Hx; by apply elem_of_nil in Hx|done]. }
  rewrite filter_cons. pose proof (length_filter P l) as Hle.
  destruct (decide (P y)) as [Hy|Hy]; simpl.
  - split.
    + intros Hlen x Hx. apply elem_of_cons in Hx as [->|Hx]; [done|].
      apply IH; [lia|done].
    + intros Hall. f_equal. apply IH. intros x Hx. apply Hall. by right.
  - split; [lia|]. intros Hall. destruct Hy. apply Hall. by left.
Qed.

Lemma ge_spec x y : JS.ge x y = true ↔ (y <= x)%Q.
Proof. unfold JS.ge. apply Qle_bool_iff. Qed.

Lemma lt_spec x y : JS.lt x y = true ↔ (x < y)%Q.
Proof. unfold JS.lt. apply gt_spec. Qed.

Lemma eq_spec x y : JS.eq x y = true ↔ (x == y)%Q.
Proof. unfold JS.eq. apply Qeq_bool_iff. Qed.

(** A sentence is found in the block that can hold it and in no other. *)
Ltac not_in_block H :=
  repeat match type of H with
         | _ ∈ (if ?b then _ else _) => destruct b
         end;
  repeat (apply elem_of_cons in H as [H|H]; [discriminate H|]);
  by apply elem_of_nil in H.

Lemma ofnat_div_zero t c : (0 < c)%nat → (Summary.ofnat t / Summary.ofnat c == 0)%Q ↔ t = 0%nat.
Proof.
  intros Hc. unfold Summary.ofnat.
  assert (¬ (inject_Z (Z.of_nat c) == 0)%Q) as Hc0.
  { intros E. unfold Qeq in E. simpl in E. lia. }
  split.
  - intros E.
    assert (inject_Z (Z.of_nat t) == 0)%Q as Et.
    { rewrite <- (Qmult_div_r (inject_Z (Z.of_nat t)) (inject_Z (Z.of_nat c)) Hc0).
      rewrite E. ring. }
    unfold Qeq in Et. simpl in Et. lia.
  - intros ->. simpl. unfold Qdiv. ring.
Qed.

Section sentences.
Import Summary.
Variable evs : list Evaluation.
Hypothesis evs_nonempty : evs ≠ [].

Lemma stats_count s : s ∈ noteTypeStats evs → (0 < transcriptCount s)%nat.
Proof.
  unfold noteTypeStats. intros Hs.
  apply list_elem_of_fmap in Hs as ([f evals] & -> & Hin). simpl.
  pose proof (noteTypeGroups_members evs) as Hm. rewrite Forall_forall in Hm.
  specialize (Hm _ Hin). simpl in Hm. destruct evals; [done|simpl; lia].
Qed.

Lemma stats_filename_inj a b :
  a ∈ noteTypeStats evs → b ∈ noteTypeStats evs → filename a = filename b → a = b.
Proof. apply fmap_inj_on, noteTypeStats_filename_NoDup. Qed.

End sentences.


(** ** Variance *)

Section variance.
Import Summary.

Lemma sumOf_from {A} (f : A → Q) (xs : list A) (acc : Q) :
  (foldl (fun sum x => sum + f x) acc xs == acc + sumOf f xs)%Q.
Proof.
  unfold sumOf. revert acc. induction xs as [|x xs IH]; intros acc; cbn [foldl].
  - ring.
  - rewrite IH, (IH (0 + f x)%Q). ring.
Qed.

Lemma sumOf_cons {A} (f : A → Q) x (xs : list A) :
  (sumOf f (x :: xs) == f x + sumOf f xs)%Q.
Proof. unfold sumOf at 1. cbn [foldl]. rewrite sumOf_from. ring. Qed.

Lemma sumOf_nonneg {A} (f : A → Q) (xs : list A) :
  (∀ x, x ∈ xs → 0 <= f x)%Q → (0 <= sumOf f xs)%Q.
Proof.
  induction xs as [|x xs IH]; intros H; [apply Qle_refl|].
  rewrite sumOf_cons.
  replace 0%Q with (0 + 0)%Q by reflexivity.
  apply Qplus_le_compat; [apply H; by left|]. apply IH. intros y Hy. apply H. by right.
Qed.

Lemma sumOf_zero {A} (f : A → Q) (xs : list A) :
  (∀ x, x ∈ xs → f x == 0)%Q → (sumOf f xs == 0)%Q.
Proof.
  induction xs as [|x xs IH]; intros H; [reflexivity|].
  rewrite sumOf_cons, (H x), IH; [ring| |by left].
  intros y Hy. apply H. by right.
Qed.

Lemma sumOf_const (xs : list Q) (c : Q) :
  (∀ x, x ∈ xs → x == c)%Q → (sumOf (fun score => score) xs == ofnat (length xs) * c)%Q.
Proof.
  induction xs as [|x xs IH]; intros H.
  { unfold sumOf, ofnat. simpl. ring. }
  rewrite sumOf_cons, (H x), IH; [| |by left].
  - unfold ofnat. cbn [length]. rewrite Nat2Z.inj_succ, <- Z.add_1_r, inject_Z_plus.
    change (inject_Z 1) with 1%Q. ring.
  - intros y Hy. apply H. by right.
Qed.

Lemma ofnat_nonneg n : (0 <= ofnat n)%Q.
Proof. unfold ofnat, Qle. simpl. lia. Qed.

Lemma ofnat_pos n : (0 < n)%nat → (0 < ofnat n)%Q.
Proof. unfold ofnat, Qlt. simpl. lia. Qed.

Lemma Qdiv_nonneg x y : (0 <= x)%Q → (0 <= y)%Q → (0 <= x / y)%Q.
Proof.
  intros Hx Hy. unfold Qdiv. apply Qmult_le_0_compat; [done|].
  by apply Qinv_le_0_compat.
Qed.

Lemma square_nonneg (x : Q) : (0 <= x ^ 2)%Q.
Proof. destruct x as [n d]. unfold Qle. simpl. nia. Qed.

(** The variance is never negative, and it is zero when the scores are all
    the same. *)
Lemma varianceOf_nonneg (scores : list Q) : (0 <= varianceOf scores)%Q.
Proof.
  unfold varianceOf. apply Qdiv_nonneg; [|apply ofnat_nonneg].
  apply sumOf_nonneg. intros x _. apply square_nonneg.
Qed.

Lemma varianceOf_uniform (scores : list Q) (c : Q) :
  (∀ x, x ∈ scores → x == c)%Q → (varianceOf scores == 0)%Q.
Proof.
  intros H. destruct scores as [|x0 scores'] eqn:E; [reflexivity|]. rewrite <- E in *.
  assert (average scores == c)%Q as Havg.
  { unfold average. rewrite (sumOf_const scores c H).
    assert (¬ (ofnat (length scores) == 0)%Q) as Hn.
    { rewrite E. unfold ofnat, Qeq. simpl. lia. }
    by field. }
  unfold varianceOf.
  rewrite (sumOf_zero (fun score => (score - average scores) ^ 2)%Q scores).
  - unfold Qdiv. ring.
  - intros x Hx. rewrite (H x Hx), Havg. simpl. ring.
Qed.

End variance.


(** X16. A note type whose evaluations all have the same composite score,
    in particular a note type evaluated on one transcript only, has
    variance 0: whenever the batch holds such a note type the commentary
    reports exceptional consistency, for a note type of variance 0. *)
Theorem uniform_note_type_is_exceptionally_consistent
    (evs : list Summary.Evaluation) (s : Summary.NoteTypeStats) :
  s ∈ Summary.noteTypeStats evs →
  (∀ e e', e ∈ Summary.evaluations s → e' ∈ Summary.evaluations s →
     (Summary.compositeOf e == Summary.compositeOf e')%Q) →
  (Summary.variance (Summary.consistency s) == 0)%Q
  ∧ ∃ c mc,
      Summary.generateCommentary (Summary.rankedNoteTypes evs) = Some c
      ∧ Summary.mostConsistent c = Some mc
      ∧ (Summary.variance mc == 0)%Q
      ∧ Summary.ExceptionalConsistency (Summary.c_filename mc) ∈ Summary.comments c.
Proof.
  intros Hs Hsame.
  assert (evs ≠ []) as Hne.
  { intros ->. by apply elem_of_nil in Hs. }
  assert (Summary.variance (Summary.consistency s) == 0)%Q as Hzero.
  { unfold Summary.consistency. cbn [Summary.variance].
    destruct (Summary.evaluations s) as [|e0 evals] eqn:E; [reflexivity|].
    rewrite <- E. apply (varianceOf_uniform _ (Summary.compositeOf e0)).
    intros x Hx. apply list_elem_of_fmap in Hx as (e & -> & He).
    apply Hsame; [by rewrite <- E|by left]. }
  split; [exact Hzero|].
  destruct (generateCommentary_consistency (Summary.rankedNoteTypes evs)
              (ranked_nonempty evs Hne)) as (c & mc & Hc & Hmc & Hin & Hmin & Hex).
  assert (Summary.variance mc == 0)%Q as Hmc0.
  { apply Qle_antisym.
    - rewrite <- Hzero. apply Hmin. by rewrite (ranked_perm evs).
    - apply list_elem_of_fmap in Hin as (x & -> & _). apply varianceOf_nonneg. }
  exists c, mc. split; [exact Hc|]. split; [exact Hmc|]. split; [exact Hmc0|].
  apply Hex. by rewrite Hmc0.
Qed.

Lemma uniform_note_type_is_exceptionally_consistent_witness :
  ∃ c mc,
    Summary.generateCommentary
      (Summary.rankedNoteTypes [Summary.mkEvaluation "transcript1" "notes-gpt4o" 8 9;
                                Summary.mkEvaluation "transcript1" "notes-claude" 3 4;
                                Summary.mkEvaluation "transcript2" "notes-claude" 9 9])
    = Some c
    ∧ Summary.mostConsistent c = Some mc
    ∧ Summary.ExceptionalConsistency (Summary.c_filename mc) ∈ Summary.comments c.
Proof.
  destruct (uniform_note_type_is_exceptionally_consistent
              [Summary.mkEvaluation "transcript1" "notes-gpt4o" 8 9;
               Summary.mkEvaluation "transcript1" "notes-claude" 3 4;
               Summary.mkEvaluation "transcript2" "notes-claude" 9 9]
              (Summary.stats ("notes-gpt4o",
                              [Summary.mkEvaluation "transcript1" "notes-gpt4o" 8 9])))
    as (_ & c & mc & Hc & Hmc & _ & Hin).
  - vm_compute. by left.
  - intros e e' He He'. simpl in He, He'.
    apply elem_of_cons in He as [->|He]; [|by apply elem_of_nil in He].
    apply elem_of_cons in He' as [->|He']; [|by apply elem_of_nil in He'].
    reflexivity.
  - exists c, mc. split; [exact Hc|]. split; [exact Hmc|exact Hin].
Defined.

Section falsehood_rates.
Import Summary.

Lemma avgFalsehoods_nonneg s : (0 <= avgFalsehoods (falsehoodRate s))%Q.
Proof. cbn. apply Qdiv_nonneg; apply ofnat_nonneg. Qed.

Lemma avgFalsehoods_zero evs s :
  s ∈ noteTypeStats evs →
  (avgFalsehoods (falsehoodRate s) == 0)%Q ↔ totalFalsehoods s = 0%nat.
Proof. intros Hs. cbn. apply ofnat_div_zero. by eapply stats_count. Qed.

End falsehood_rates.

(** X17. The sentence on issues: on the note types ranked by composite,
    the commentary reports perfect accuracy exactly when some note type has
    no falsehood in any of its evaluations, and names such a note type;
    otherwise it asks for attention exactly when some note type averages
    2 falsehoods or more per evaluation, and names a note type with the
    largest average together with that average. *)
Theorem commentary_issues (evs : list Summary.Evaluation) :
  evs ≠ [] →
  ∃ c,
    Summary.generateCommentary (Summary.rankedNoteTypes evs) = Some c
    ∧ ((∃ n, Summary.PerfectAccuracy n ∈ Summary.comments c)
       ↔ ∃ s, s ∈ Summary.noteTypeStats evs ∧ Summary.totalFalsehoods s = 0%nat)
    ∧ (∀ n, Summary.PerfectAccuracy n ∈ Summary.comments c →
         ∃ s, s ∈ Summary.noteTypeStats evs ∧ Summary.filename s = n
              ∧ Summary.totalFalsehoods s = 0%nat)
    ∧ ((∃ n a, Summary.RequiresAttention n a ∈ Summary.comments c)
       ↔ (∀ s, s ∈ Summary.noteTypeStats evs → Summary.totalFalsehoods s ≠ 0%nat)
         ∧ ∃ s, s ∈ Summary.noteTypeStats evs
                ∧ (2 <= Summary.avgFalsehoods (Summary.falsehoodRate s))%Q)
    ∧ (∀ n a, Summary.RequiresAttention n a ∈ Summary.comments c →
         (2 <= a)%Q
         ∧ ∃ s, s ∈ Summary.noteTypeStats evs ∧ Summary.filename s = n
                ∧ a = Summary.avgFalsehoods (Summary.falsehoodRate s)
                ∧ ∀ s', s' ∈ Summary.noteTypeStats evs →
                    (Summary.avgFalsehoods (Summary.falsehoodRate s') <= a)%Q).
Proof.
  intros Hne.
  destruct (commentary_anatomy (Summary.rankedNoteTypes evs) (ranked_nonempty evs Hne))
    as (best & worst & md & mt & mc & lc & safest & riskiest
        & _ & _ & _ & _ & _ & _ & Hsafest & Hriskiest & ->).
  set (r2 := JS.sort Summary.byAvgTruthfulness
               (JS.sort Summary.byAvgDetail (Summary.rankedNoteTypes evs))) in *.
  assert (r2 ≡ₚ Summary.noteTypeStats evs) as Hperm by apply (after_perm evs).
  assert (Summary.falsehoodRate <$> r2 ≠ []) as Hfr.
  { intros E. apply fmap_nil_inv in E. rewrite E in Hperm.
    apply Permutation_nil_l in Hperm. by apply (noteTypeStats_nonempty evs Hne). }
  set (fasc := JS.sort (fun a b => Summary.avgFalsehoods a - Summary.avgFalsehoods b)%Q
                 (Summary.falsehoodRate <$> r2)) in *.
  destruct (sort_head (fun a b => Summary.avgFalsehoods a - Summary.avgFalsehoods b)%Q
              (fun c => - Summary.avgFalsehoods c)%Q
              (ascending_key Summary.avgFalsehoods)
              (Summary.falsehoodRate <$> r2) Hfr) as (sf & Hsf & Hsfin & Hmin).
  fold fasc in Hsf. rewrite Hsafest in Hsf. injection Hsf as <-.
  assert (fasc ≠ []) as Hfasc by (intros E; by rewrite E in Hsafest).
  destruct (sort_head (fun a b => Summary.avgFalsehoods b - Summary.avgFalsehoods a)%Q
              Summary.avgFalsehoods
              (fun a b => descending_rk (Summary.avgFalsehoods a) (Summary.avgFalsehoods b))
              fasc Hfasc) as (rk & Hrk & Hrkin & Hmax).
  rewrite Hriskiest in Hrk. injection Hrk as <-.
  unfold fasc in Hrkin. apply elem_of_sort in Hrkin.
  apply list_elem_of_fmap in Hsfin as (ss & Hss & Hssin).
  apply list_elem_of_fmap in Hrkin as (sr & Hsr & Hsrin).
  rewrite Hperm in Hssin, Hsrin.
  assert (∀ s, s ∈ Summary.noteTypeStats evs →
            (Summary.avgFalsehoods safest
             <= Summary.avgFalsehoods (Summary.falsehoodRate s))%Q
            ∧ (Summary.avgFalsehoods (Summary.falsehoodRate s)
               <= Summary.avgFalsehoods riskiest)%Q) as Hext.
  { intros s Hs.
    assert (Summary.falsehoodRate s ∈ Summary.falsehoodRate <$> r2) as Hs'.
    { apply list_elem_of_fmap_2. by rewrite Hperm. }
    split.
    - specialize (Hmin _ Hs'). apply Qopp_le_compat in Hmin.
      by rewrite !Qopp_involutive in Hmin.
    - apply Hmax. unfold fasc. by apply elem_of_sort. }
  assert ((Summary.avgFalsehoods safest == 0)%Q
          ↔ ∃ s, s ∈ Summary.noteTypeStats evs ∧ Summary.totalFalsehoods s = 0%nat)
    as Hperfect.
  { split.
    - intros E. exists ss. split; [done|].
      apply (avgFalsehoods_zero evs ss Hssin). by rewrite <- Hss.
    - intros (s & Hs & Hz). apply Qle_antisym.
      + apply (avgFalsehoods_zero evs s Hs) in Hz. rewrite <- Hz. by apply Hext.
      + rewrite Hss. apply avgFalsehoods_nonneg. }
  assert ((2 <= Summary.avgFalsehoods riskiest)%Q
          ↔ ∃ s, s ∈ Summary.noteTypeStats evs
                 ∧ (2 <= Summary.avgFalsehoods (Summary.falsehoodRate s))%Q) as Hrisk.
  { split.
    - intros E. exists sr. split; [done|]. by rewrite <- Hsr.
    - intros (s & Hs & H2). eapply Qle_trans; [exact H2|]. by apply Hext. }
  eexists. split; [reflexivity|]. cbn [Summary.comments].
  split; [|split; [|split]].
  - rewrite <- Hperfect. split.
    + intros [n H]. rewrite !elem_of_app in H.
      destruct H as [H|[H|[H|[H|H]]]]; [not_in_block H..| |not_in_block H].
      destruct (JS.eq (Summary.avgFalsehoods safest) 0) eqn:E;
        [by apply eq_spec|not_in_block H].
    + intros E. apply eq_spec in E. exists (Summary.f_filename safest).
      rewrite E, !elem_of_app. do 3 right. left. by left.
  - intros n H. rewrite !elem_of_app in H.
    destruct H as [H|[H|[H|[H|H]]]]; [not_in_block H..| |not_in_block H].
    destruct (JS.eq (Summary.avgFalsehoods safest) 0) eqn:E; [|not_in_block H].
    apply elem_of_cons in H as [H|H]; [|by apply elem_of_nil in H].
    injection H as ->. exists ss. split; [done|]. split; [by rewrite Hss|].
    apply (avgFalsehoods_zero evs ss Hssin). rewrite <- Hss. by apply eq_spec.
  - rewrite <- Hrisk. split.
    + intros (n & a & H). rewrite !elem_of_app in H.
      destruct H as [H|[H|[H|[H|H]]]]; [not_in_block H..| |not_in_block H].
      destruct (JS.eq (Summary.avgFalsehoods safest) 0) eqn:E; [not_in_block H|].
      destruct (JS.ge (Summary.avgFalsehoods riskiest) 2) eqn:E2; [|not_in_block H].
      split; [|by apply ge_spec]. intros s Hs Hz.
      assert (JS.eq (Summary.avgFalsehoods safest) 0 = true); [|congruence].
      apply eq_spec, Hperfect. by exists s.
    + intros [Hnone E2].
      assert (JS.eq (Summary.avgFalsehoods safest) 0 = false) as E.
      { destruct (JS.eq _ 0) eqn:E; [|done].
        apply eq_spec, Hperfect in E as (s & Hs & Hz). by destruct (Hnone s Hs). }
      apply ge_spec in E2.
      exists (Summary.f_filename riskiest), (Summary.avgFalsehoods riskiest).
      rewrite E, E2, !elem_of_app. do 3 right. left. by left.
  - intros n a H. rewrite !elem_of_app in H.
    destruct H as [H|[H|[H|[H|H]]]]; [not_in_block H..| |not_in_block H].
    destruct (JS.eq (Summary.avgFalsehoods safest) 0) eqn:E; [not_in_block H|].
    destruct (JS.ge (Summary.avgFalsehoods riskiest) 2) eqn:E2; [|not_in_block H].
    apply elem_of_cons in H as [H|H]; [|by apply elem_of_nil in H].
    injection H as -> ->. split; [by apply ge_spec|].
    exists sr. split; [done|]. split; [by rewrite Hsr|]. split; [by rewrite Hsr|].
    intros s' Hs'. by apply Hext.
Qed.

Lemma commentary_issues_witness :
  ∃ c n,
    Summary.generateCommentary (Summary.rankedNoteTypes sampleEvaluations) = Some c
    ∧ Summary.PerfectAccuracy n ∈ Summary.comments c.
Proof.
  destruct (commentary_issues sampleEvaluations) as (c & Hc & Hperfect & _).
  - done.
  - destruct (proj2 Hperfect) as [n Hn].
    + exists (Summary.stats ("notes-gpt4o",
                             [Summary.mkEvaluation "transcript1" "notes-gpt4o" 8 8;
                              Summary.mkEvaluation "transcript2" "notes-gpt4o" 8 9])).
      split; [vm_compute; left|reflexivity].
    + exists c, n. split; [exact Hc|exact Hn].
Defined.

(** ** Sorting twice by two keys *)

Section sort_twice.
Context {A : Type} (cmpD cmpT : A → A → Q) (kD kT : A → Q).
Hypothesis cmpD_rk : ∀ a b, JS.positive (cmpD a b) = true ↔ (kD a < kD b)%Q.
Hypothesis cmpT_rk : ∀ a b, JS.positive (cmpT a b) = true ↔ (kT a < kT b)%Q.
Variable l : list A.
Hypothesis l_NoDup : NoDup l.

Let before (a b : A) : Prop :=
  ∃ i j, (i < j)%nat ∧ l !! i = Some a ∧ l !! j = Some b.

(** The order of an array sorted by [kD] and then by [kT]: the larger
    [kT] first, then the larger [kD], then the element that stood first. *)
Let R (a b : A) : Prop :=
  (kT b < kT a)%Q
  ∨ ((kT a == kT b)%Q ∧ ((kD b < kD a)%Q ∨ ((kD a == kD b)%Q ∧ before a b))).

Lemma sorted_by_both (s : list A) :
  (∀ p q a b, s !! p = Some a → s !! q = Some b → (p < q)%nat →
     (kT a == kT b)%Q → (kD a == kD b)%Q → before a b) →
  StronglySorted R (JS.sort cmpT (JS.sort cmpD s)).
Proof.
  intros Hs. apply lookup_StronglySorted. intros p q a b Hp Hq Hpq.
  pose proof (sort_descending cmpT kT cmpT_rk _ p q a b Hp Hq Hpq) as HT.
  apply Qle_lt_or_eq in HT as [HT|HT]; [by left|]. right. split; [by symmetry|].
  destruct (sort_stable_inv cmpT kT cmpT_rk _ p q a b Hp Hq Hpq) as (i & j & Hij & Hi & Hj);
    [by symmetry|].
  pose proof (sort_descending cmpD kD cmpD_rk _ i j a b Hi Hj Hij) as HD.
  apply Qle_lt_or_eq in HD as [HD|HD]; [by left|]. right. split; [by symmetry|].
  destruct (sort_stable_inv cmpD kD cmpD_rk _ i j a b Hi Hj Hij) as (i' & j' & Hij' & Hi' & Hj');
    [by symmetry|].
  apply (Hs i' j'); [done..|by symmetry|by symmetry].
Qed.

Lemma R_asym a b : R a b → R b a → False.
Proof.
  intros [H1|[E1 H1]] [H2|[E2 H2]].
  - eapply Qlt_irrefl, Qlt_trans; eauto.
  - rewrite E2 in H1. by eapply Qlt_irrefl.
  - rewrite E1 in H2. by eapply Qlt_irrefl.
  - destruct H1 as [H1|[D1 B1]], H2 as [H2|[D2 B2]].
    + eapply Qlt_irrefl, Qlt_trans; eauto.
    + rewrite D2 in H1. by eapply Qlt_irrefl.
    + rewrite D1 in H2. by eapply Qlt_irrefl.
    + destruct B1 as (i & j & Hij & Hi & Hj), B2 as (i' & j' & Hij' & Hi' & Hj').
      by eapply (before_asym l i j i' j' a b).
Qed.

(** Sorting by the two keys a second time changes nothing. *)
Lemma sort_twice :
  JS.sort cmpT (JS.sort cmpD (JS.sort cmpT (JS.sort cmpD l)))
  = JS.sort cmpT (JS.sort cmpD l).
Proof.
  apply (StronglySorted_unique_strong R).
  - intros a b _ _ Hab Hba. destruct (R_asym a b Hab Hba).
  - apply sorted_by_both. intros p q a b Hp Hq Hpq HT HD.
    destruct (sort_stable_inv cmpT kT cmpT_rk _ p q a b Hp Hq Hpq HT)
      as (i & j & Hij & Hi & Hj).
    destruct (sort_stable_inv cmpD kD cmpD_rk _ i j a b Hi Hj Hij HD)
      as (i' & j' & Hij' & Hi' & Hj').
    by exists i', j'.
  - apply sorted_by_both. intros p q a b Hp Hq Hpq _ _. by exists p, q.
  - by rewrite !sort_Permutation.
Qed.

End sort_twice.

Section superlatives.
Import Summary.

Lemma byAvgDetail_rk a b :
  JS.positive (byAvgDetail a b) = true ↔ (avgDetailScore a < avgDetailScore b)%Q.
Proof. apply descending_rk. Qed.

Lemma byAvgTruthfulness_rk a b :
  JS.positive (byAvgTruthfulness a b) = true
  ↔ (avgTruthfulnessScore a < avgTruthfulnessScore b)%Q.
Proof. apply descending_rk. Qed.

Lemma byTotalFalsehoods_rk a b :
  JS.positive (byTotalFalsehoods a b) = true
  ↔ (- ofnat (totalFalsehoods a) < - ofnat (totalFalsehoods b))%Q.
Proof. apply (ascending_key (fun s => ofnat (totalFalsehoods s))). Qed.

Lemma ofnat_le n m : (ofnat n <= ofnat m)%Q ↔ (n ≤ m)%nat.
Proof. unfold ofnat, Qle. simpl. lia. Qed.

Lemma rankedNoteTypes_NoDup evs : NoDup (rankedNoteTypes evs).
Proof.
  unfold rankedNoteTypes. rewrite sort_Permutation. apply noteTypeStats_NoDup.
Qed.

(** What the commentary has sorted stays sorted: a further pass by detail
    and then by truthfulness leaves the array as it is. *)
Lemma arrayAfter_fixed evs :
  JS.sort byAvgTruthfulness
    (JS.sort byAvgDetail
       (JS.sort byAvgTruthfulness (JS.sort byAvgDetail (rankedNoteTypes evs))))
  = JS.sort byAvgTruthfulness (JS.sort byAvgDetail (rankedNoteTypes evs)).
Proof.
  apply (sort_twice byAvgDetail byAvgTruthfulness avgDetailScore avgTruthfulnessScore
           byAvgDetail_rk byAvgTruthfulness_rk).
  apply rankedNoteTypes_NoDup.
Qed.

End superlatives.


(** X19. What [BatchSummary] shows for a non-empty batch.  The note types
    appear in the order the commentary left the array in: sorted by
    rounded mean truthfulness score, larger first, not by composite.  The
    quick stat "Best Overall" names the first of them, a note type of
    largest rounded mean truthfulness score, and is always the note type
    named "Most Truthful"; "Most Detailed" names a note type of largest
    rounded mean detail score and "Fewest Issues" one with the fewest
    falsehoods in total. *)
Theorem BatchSummary_quick_stats (evs : list Summary.Evaluation) :
  evs ≠ [] →
  ∃ v first detailed safest,
    Summary.BatchSummary evs = Summary.Shows v
    ∧ Summary.rankings v ≡ₚ Summary.noteTypeStats evs
    ∧ (∀ p q a b,
         Summary.rankings v !! p = Some a → Summary.rankings v !! q = Some b →
         (p < q)%nat →
         (Summary.avgTruthfulnessScore b <= Summary.avgTruthfulnessScore a)%Q)
    ∧ Summary.rankings v !! 0%nat = Some first
    ∧ Summary.bestOverall v = Some (Summary.filename first)
    ∧ Summary.viewMostTruthful v = Some (Summary.filename first)
    ∧ (∀ s, s ∈ Summary.noteTypeStats evs →
         (Summary.avgTruthfulnessScore s <= Summary.avgTruthfulnessScore first)%Q)
    ∧ detailed ∈ Summary.noteTypeStats evs
    ∧ Summary.viewMostDetailed v = Some (Summary.filename detailed)
    ∧ (∀ s, s ∈ Summary.noteTypeStats evs →
         (Summary.avgDetailScore s <= Summary.avgDetailScore detailed)%Q)
    ∧ safest ∈ Summary.noteTypeStats evs
    ∧ Summary.fewestIssues v = Some (Summary.filename safest)
    ∧ (∀ s, s ∈ Summary.noteTypeStats evs →
         (Summary.totalFalsehoods safest ≤ Summary.totalFalsehoods s)%nat).
Proof.
  intros Hne. unfold Summary.BatchSummary.
  rewrite decide_False by (by destruct evs).
  destruct (commentary_anatomy (Summary.rankedNoteTypes evs) (ranked_nonempty evs Hne))
    as (best & worst & md & mt & mc & lc & safest & riskiest
        & _ & _ & _ & Hmt & _ & _ & _ & _ & ->).
  cbn [Summary.arrayAfter Summary.comments].
  rewrite (arrayAfter_fixed evs).
  set (r1 := JS.sort Summary.byAvgDetail (Summary.rankedNoteTypes evs)) in *.
  set (r2 := JS.sort Summary.byAvgTruthfulness r1) in *.
  assert (r2 ≡ₚ Summary.noteTypeStats evs) as Hperm by apply (after_perm evs).
  assert (r1 ≠ []) as Hr1.
  { unfold r1. apply sort_nonempty. by apply ranked_nonempty. }
  assert (r2 ≠ []) as Hr2 by (intros E; by rewrite E in Hmt).
  destruct (sort_head Summary.byAvgTruthfulness Summary.avgTruthfulnessScore
              byAvgTruthfulness_rk r1 Hr1) as (mt' & Hmt' & Hmtin & Hmtmax).
  fold r2 in Hmt'. rewrite Hmt in Hmt'. injection Hmt' as <-.
  destruct (sort_head Summary.byAvgDetail Summary.avgDetailScore byAvgDetail_rk r2 Hr2)
    as (dt & Hdt & Hdtin & Hdtmax).
  destruct (sort_head Summary.byTotalFalsehoods
              (fun s => - Summary.ofnat (Summary.totalFalsehoods s))%Q
              byTotalFalsehoods_rk r2 Hr2) as (sf & Hsf & Hsfin & Hsfmin).
  eexists _, mt, dt, sf. split; [reflexivity|].
  cbn [Summary.rankings Summary.bestOverall Summary.viewMostDetailed
       Summary.viewMostTruthful Summary.fewestIssues].
  split; [done|]. split.
  { intros p q a b Hp Hq Hpq.
    by apply (sort_descending Summary.byAvgTruthfulness Summary.avgTruthfulnessScore
                byAvgTruthfulness_rk r1 p q a b). }
  split; [done|]. split; [by rewrite Hmt|]. split; [by rewrite Hmt|].
  split.
  { intros s Hs. apply Hmtmax. unfold r1. apply elem_of_sort.
    by rewrite (ranked_perm evs). }
  split; [by rewrite <- Hperm|]. split; [by rewrite Hdt|].
  split; [intros s Hs; apply Hdtmax; by rewrite Hperm|].
  split; [by rewrite <- Hperm|]. split; [by rewrite Hsf|].
  intros s Hs. rewrite <- Hperm in Hs. specialize (Hsfmin s Hs).
  apply Qopp_le_compat in Hsfmin. rewrite !Qopp_involutive in Hsfmin.
  by apply ofnat_le.
Qed.

Lemma BatchSummary_quick_stats_witness :
  ∃ v, Summary.BatchSummary sampleEvaluations = Summary.Shows v
       ∧ Summary.bestOverall v = Summary.viewMostTruthful v.
Proof.
  destruct (BatchSummary_quick_stats sampleEvaluations)
    as (v & first & detailed & safest & Hv & _ & _ & _ & Hbest & Htruth & _).
  - done.
  - exists v. split; [exact Hv|]. rewrite Hbest, Htruth. reflexivity.
Defined.

Section partition.
Import Summary.

Lemma elem_of_firstSeen_from (seen l : list string) x :
  x ∈ foldl (fun seen x => if decide (x ∈ seen) then seen else seen ++ [x]) seen l
  ↔ x ∈ seen ∨ x ∈ l.
Proof.
  revert seen. induction l as [|y l IH]; intros seen; cbn [foldl].
  { split; [by left|]. intros [?|H]; [done|by apply elem_of_nil in H]. }
  rewrite IH. destruct (decide (y ∈ seen)) as [Hy|Hy].
  - rewrite elem_of_cons. split; [intros [?|?]; auto|].
    intros [?|[->|?]]; auto.
  - rewrite elem_of_app, !elem_of_cons, elem_of_nil. tauto.
Qed.

Lemma elem_of_firstSeen l x : x ∈ firstSeen l ↔ x ∈ l.
Proof.
  unfold firstSeen. rewrite elem_of_firstSeen_from. split; [|by right].
  intros [H|H]; [by apply elem_of_nil in H|done].
Qed.

Lemma sum_list_ones {A} (l : list A) : sum_list ((fun _ => 1%nat) <$> l) = length l.
Proof.
  induction l as [|x l IH]; [done|]. rewrite fmap_cons, sum_list_cons, IH. done.
Qed.

Lemma sum_list_fmap_ext {A} (f g : A → nat) (l : list A) :
  (∀ x, x ∈ l → f x = g x) → sum_list (f <$> l) = sum_list (g <$> l).
Proof.
  induction l as [|x l IH]; intros H; [done|].
  rewrite !fmap_cons, !sum_list_cons, (H x) by (by left).
  f_equal. apply IH. intros y Hy. apply H. by right.
Qed.

End partition.

(** X20. The note types of [BatchSummary] partition the evaluations: the
    file names of the note types are distinct; every evaluation is counted
    under the note type of its file name and under no other; a note type
    holds at least one evaluation, so that no average divides by zero; the
    transcript counts add up to the number of evaluations, and the totals
    of falsehoods to the number of falsehoods of all the evaluations. *)
Theorem noteTypeStats_partition (evs : list Summary.Evaluation) :
  NoDup (Summary.filename <$> Summary.noteTypeStats evs)
  ∧ (∀ e, e ∈ evs →
       ∃ s, s ∈ Summary.noteTypeStats evs
            ∧ Summary.filename s = Summary.noteFileName e
            ∧ e ∈ Summary.evaluations s)
  ∧ (∀ s, s ∈ Summary.noteTypeStats evs →
       (0 < Summary.transcriptCount s)%nat
       ∧ Summary.transcriptCount s = length (Summary.evaluations s)
       ∧ Summary.evaluations s
         = filter (fun e => Summary.noteFileName e = Summary.filename s) evs)
  ∧ sum_list (Summary.transcriptCount <$> Summary.noteTypeStats evs) = length evs
  ∧ sum_list (Summary.totalFalsehoods <$> Summary.noteTypeStats evs)
    = sum_list ((fun e => length (falsehoods (Summary.results e))) <$> evs).
Proof.
  split; [apply noteTypeStats_filename_NoDup|]. split; [|split; [|split]].
  - intros e He.
    assert (Summary.noteFileName e ∈ Summary.filename <$> Summary.noteTypeStats evs) as Hin.
    { rewrite noteTypeStats_names. apply elem_of_firstSeen. by apply list_elem_of_fmap_2. }
    apply list_elem_of_fmap in Hin as (s & Hname & Hs).
    exists s. split; [done|]. split; [done|].
    destruct (noteTypeStats_elem evs s Hs) as [-> _].
    apply list_elem_of_filter. by split.
  - intros s Hs. split; [by eapply stats_count|].
    destruct (noteTypeStats_elem evs s Hs) as [Hevals _]. split; [|done].
    unfold Summary.noteTypeStats in Hs.
    by apply list_elem_of_fmap in Hs as ([f evals] & -> & _).
  - unfold Summary.noteTypeStats. rewrite <- list_fmap_compose.
    rewrite <- (sum_list_ones evs), <- (noteTypeGroups_weight (fun _ => 1%nat) evs).
    apply sum_list_fmap_ext. intros [f evals] _. cbn. by rewrite sum_list_ones.
  - unfold Summary.noteTypeStats. rewrite <- list_fmap_compose.
    rewrite <- (noteTypeGroups_weight
                  (fun e => length (falsehoods (Summary.results e))) evs).
    apply sum_list_fmap_ext. intros [f evals] _. cbn.
    by rewrite (foldl_add_sum (fun e => length (falsehoods (Summary.results e)))).
Qed.

(** ** The results page *)

Section results_page.
Import Summary.

Lemma firstSeen_from_NoDup (seen l : list string) :
  NoDup seen →
  NoDup (foldl (fun seen x => if decide (x ∈ seen) then seen else seen ++ [x]) seen l).
Proof.
  revert seen. induction l as [|y l IH]; intros seen Hnd; cbn [foldl]; [done|].
  apply IH. destruct (decide (y ∈ seen)); [done|].
  apply NoDup_app. split; [done|]. split; [|apply NoDup_singleton].
  intros x Hx Hx'. apply list_elem_of_singleton in Hx'. by subst.
Qed.

Lemma firstSeen_NoDup l : NoDup (firstSeen l).
Proof. apply firstSeen_from_NoDup. constructor. Qed.

(** A list and the names first seen in it: at most one name exactly when
    the elements of the list are all the same. *)
Lemma firstSeen_single l :
  (length (firstSeen l) ≤ 1)%nat ↔ ∀ x y, x ∈ l → y ∈ l → x = y.
Proof.
  split.
  - intros Hlen x y Hx Hy. apply elem_of_firstSeen in Hx, Hy.
    destruct (firstSeen l) as [|a [|b s]]; [by apply elem_of_nil in Hx| |simpl in Hlen; lia].
    apply list_elem_of_singleton in Hx, Hy. congruence.
  - intros Hall. pose proof (firstSeen_NoDup l) as Hnd.
    destruct (firstSeen l) as [|a [|b s]] eqn:E; [simpl; lia..|].
    exfalso. apply NoDup_cons in Hnd as [Hab _]. apply Hab.
    assert (a = b) as ->; [|by left].
    apply Hall; apply elem_of_firstSeen; rewrite E; [by left|by right; left].
Qed.

Lemma byOverallRanking_rk a b :
  JS.positive (Display.byOverallRanking a b) = true
  ↔ (- inject_Z (overallRanking (results a)) < - inject_Z (overallRanking (results b)))%Q.
Proof. apply (ascending_key (fun e => inject_Z (overallRanking (results e)))). Qed.

Lemma sortedEvaluations_ascending evs p q a b :
  Display.sortedEvaluations evs !! p = Some a →
  Display.sortedEvaluations evs !! q = Some b → (p < q)%nat →
  overallRanking (results a) ≤ overallRanking (results b).
Proof.
  intros Hp Hq Hpq.
  pose proof (sort_descending Display.byOverallRanking _ byOverallRanking_rk
                evs p q a b Hp Hq Hpq) as H.
  apply Qopp_le_compat in H. rewrite !Qopp_involutive in H.
  by rewrite Zle_Qle.
Qed.


Lemma BatchSummary_shown evs : evs ≠ [] → ∃ v, BatchSummary evs = Shows v.
Proof.
  intros Hne. unfold BatchSummary. rewrite decide_False by (by destruct evs).
  destruct (commentary_anatomy (rankedNoteTypes evs) (ranked_nonempty evs Hne))
    as (best & worst & md & mt & mc & lc & safest & riskiest
        & _ & _ & _ & _ & _ & _ & _ & _ & ->).
  by eexists.
Qed.

End results_page.

(** X21. [ResultsDisplay] shows the empty notice exactly for an empty array
    of evaluations.  Otherwise both lists of the page hold every
    evaluation once, in ascending order of [overallRanking], evaluations
    with the same ranking in the order of the response; the badge of an
    entry of the rankings overview is its position in that list, counted
    from 1; and the cross-transcript analysis is shown exactly when two
    evaluations differ in their transcript name, and then never throws. *)
Theorem ResultsDisplay_order (evs : list Summary.Evaluation) :
  match Display.ResultsDisplay evs with
  | Display.NoEvaluations => evs = []
  | Display.Results p =>
      evs ≠ []
      ∧ Display.notesEvaluated p = length evs
      ∧ Display.detailedEvaluations p ≡ₚ evs
      ∧ (Display.performanceRankings p).*2 = Display.detailedEvaluations p
      ∧ (Display.performanceRankings p).*1 = seq 1 (length evs)
      ∧ (∀ i j a b,
           Display.detailedEvaluations p !! i = Some a →
           Display.detailedEvaluations p !! j = Some b → (i < j)%nat →
           overallRanking (Summary.results a) ≤ overallRanking (Summary.results b))
      ∧ (∀ i j a b,
           evs !! i = Some a → evs !! j = Some b → (i < j)%nat →
           overallRanking (Summary.results a) = overallRanking (Summary.results b) →
           ∃ i' j', (i' < j')%nat
                    ∧ Display.detailedEvaluations p !! i' = Some a
                    ∧ Display.detailedEvaluations p !! j' = Some b)
      ∧ (Display.crossTranscriptAnalysis p = None
         ↔ ∀ a b, a ∈ evs → b ∈ evs →
                  Summary.transcriptName a = Summary.transcriptName b)
      ∧ (∀ r, Display.crossTranscriptAnalysis p = Some r → ∃ v, r = Summary.Shows v)
  end.
Proof.
  unfold Display.ResultsDisplay.
  destruct (decide (length evs = 0%nat)) as [Hlen|Hlen]; [by apply nil_length_inv|].
  assert (evs ≠ []) as Hne by (by destruct evs).
  cbn [Display.notesEvaluated Display.detailedEvaluations Display.performanceRankings
       Display.crossTranscriptAnalysis].
  split; [done|]. split; [done|].
  split; [apply sort_Permutation|]. split; [|split; [|split; [|split; [|split]]]].
  - apply list_eq. intros i. rewrite list_lookup_fmap, list_lookup_imap.
    by destruct (Display.sortedEvaluations evs !! i).
  - apply list_eq. intros i. rewrite list_lookup_fmap, list_lookup_imap.
    destruct (Display.sortedEvaluations evs !! i) as [e|] eqn:E; simpl.
    + symmetry. apply lookup_seq. split; [lia|].
      apply lookup_lt_Some in E. unfold Display.sortedEvaluations in E.
      by rewrite sort_length in E.
    + symmetry. apply lookup_seq_ge. apply lookup_ge_None in E.
      unfold Display.sortedEvaluations in E. by rewrite sort_length in E.
  - apply sortedEvaluations_ascending.
  - intros i j a b Hi Hj Hij Heq.
    apply (sort_stable Display.byOverallRanking _ byOverallRanking_rk evs i j a b);
      [done..|]. by rewrite Heq.
  - unfold Display.isBatchUpload, Display.uniqueTranscripts.
    destruct (bool_decide _) eqn:E.
    + split; [done|]. intros Hall. apply bool_decide_eq_true in E.
      assert (length (firstSeen (Summary.transcriptName <$> evs)) ≤ 1)%nat; [|lia].
      apply firstSeen_single. intros x y Hx Hy.
      apply list_elem_of_fmap in Hx as (a & -> & Ha).
      apply list_elem_of_fmap in Hy as (b & -> & Hb). by apply Hall.
    + split; [|done]. intros _ a b Ha Hb. apply bool_decide_eq_false in E.
      assert (length (firstSeen (Summary.transcriptName <$> evs)) ≤ 1)%nat as Hle by lia.
      apply (proj1 (firstSeen_single _) Hle); by apply list_elem_of_fmap_2.
  - intros r Hr. destruct (Display.isBatchUpload evs); [|done].
    injection Hr as <-. by apply BatchSummary_shown.
Qed.


(** ** Responses that match the schema *)

Section judge_conforming.
Import Judge.
Variable JSON_parse : string → string + jsval.
Variable now : nat → Z.

Lemma isFalsehood_convert index f :
  isFalsehood f = true →
  ∃ r, convertFalsehood now index f = inr r
       ∧ id r = "falsehood_" +:+ pretty (now index) +:+ "_" +:+ pretty index
       ∧ prop f "description" = inr (description r)
       ∧ prop f "severity" = inr (severity r)
       ∧ prop f "location" = inr (location r)
       ∧ prop f "correction" = inr (correction r)
       ∧ isString (description r) = true ∧ isString (severity r) = true
       ∧ isString (location r) = true ∧ isString (correction r) = true.
Proof.
  destruct f as [| | | | | |properties]; try done. cbn.
  intros H. apply andb_prop in H as [H Hc]. apply andb_prop in H as [H Hl].
  apply andb_prop in H as [Hd Hs]. eexists. split; [reflexivity|]. by repeat split.
Qed.

Lemma mapFrom_conforming index elements :
  forallb isFalsehood elements = true →
  ∃ fs, mapFrom index (convertFalsehood now) elements = inr fs
    ∧ length fs = length elements
    ∧ ∀ i f element, fs !! i = Some f → elements !! i = Some element →
        id f = "falsehood_" +:+ pretty (now (index + i)%nat) +:+ "_"
               +:+ pretty (index + i)%nat
        ∧ prop element "description" = inr (description f)
        ∧ prop element "severity" = inr (severity f)
        ∧ prop element "location" = inr (location f)
        ∧ prop element "correction" = inr (correction f)
        ∧ isString (description f) = true ∧ isString (severity f) = true
        ∧ isString (location f) = true ∧ isString (correction f) = true.
Proof.
  revert index. induction elements as [|f elements IH]; intros index H.
  { exists []. by repeat split. }
  cbn [forallb] in H. apply andb_prop in H as [Hf H].
  destruct (isFalsehood_convert index f Hf) as (r & Hr & Hid & Hfields).
  destruct (IH (S index) H) as (fs & Hfs & Hlen & Hall).
  exists (r :: fs). cbn [mapFrom]. rewrite Hr. cbn [bind]. rewrite Hfs. cbn [bind].
  split; [done|]. split; [simpl; by rewrite Hlen|].
  intros [|i] g element Hg He; simpl in Hg, He.
  - injection Hg as <-. injection He as <-. by rewrite Nat.add_0_r.
  - replace (index + S i)%nat with (S index + i)%nat by lia. by apply Hall.
Qed.

(** The identifiers given to the falsehoods of one response. *)
Lemma mapFrom_ids index elements fs :
  mapFrom index (convertFalsehood now) elements = inr fs →
  ∀ i f, fs !! i = Some f →
    id f = "falsehood_" +:+ pretty (now (index + i)%nat) +:+ "_" +:+ pretty (index + i)%nat.
Proof.
  revert index fs. induction elements as [|e elements IH]; intros index fs H i f Hf.
  { injection H as <-. done. }
  cbn [mapFrom] in H.
  destruct (convertFalsehood now index e) as [m|r] eqn:Er; [done|]. cbn [bind] in H.
  destruct (mapFrom (S index) (convertFalsehood now) elements) as [m|fs'] eqn:Efs; [done|].
  cbn [bind] in H. injection H as <-.
  destruct i as [|i]; simpl in Hf.
  - injection Hf as <-. rewrite Nat.add_0_r. unfold convertFalsehood in Er.
    destruct (prop e "description"); [done|]. destruct (prop e "severity"); [done|].
    destruct (prop e "location"); [done|]. destruct (prop e "correction"); [done|].
    cbn [bind] in Er. by injection Er as <-.
  - replace (index + S i)%nat with (S index + i)%nat by lia. by apply (IH (S index) fs').
Qed.

Lemma evaluate_falsehoods completion results :
  evaluateDentalNotes JSON_parse now completion = inr results →
  ∃ elements, mapFrom 0 (convertFalsehood now) elements = inr (falsehoods results).
Proof.
  unfold evaluateDentalNotes. destruct completion as [message|response]; [done|].
  destruct (convert JSON_parse now response) as [message|r] eqn:E; [done|].
  intros [= <-]. unfold convert in E. destruct response as [text|]; [|done].
  destruct (decide (text = EmptyString)); [done|].
  destruct (JSON_parse text) as [m|parsed]; [done|]. cbn [bind] in E.
  repeat match type of E with
         | bind ?x _ = _ => destruct x as [?|?] eqn:?; [done|]; cbn [bind] in E
         end.
  injection E as <-. cbn [falsehoods].
  match goal with
  | H : mapFalsehoods now ?v = inr _ |- _ =>
      destruct v; try done; by eexists
  end.
Qed.

End judge_conforming.

(** ** Identifiers *)

Section identifiers.

Lemma append_inj_prefix (p a b : string) : p +:+ a = p +:+ b → a = b.
Proof. induction p as [|c p IH]; simpl; intros H; [done|]. injection H. exact IH. Qed.

(** A string is cut in one way only at the first occurrence of a
    character. *)
Lemma split_at_first c (a a' x x' : string) :
  free_of c a → free_of c a' →
  a +:+ String c x = a' +:+ String c x' → a = a' ∧ x = x'.
Proof.
  revert a'. induction a as [|d a IH]; intros [|d' a']; simpl; intros Ha Ha' H.
  - by injection H.
  - injection H as -> _. by destruct Ha' as [[] _].
  - injection H as <- _. by destruct Ha as [[] _].
  - injection H as -> H. destruct Ha as [_ Ha], Ha' as [_ Ha'].
    destruct (IH a' Ha Ha' H) as [-> ->]. done.
Qed.

Lemma pretty_N_char_free x : pretty_N_char x ≠ underscore.
Proof. unfold pretty_N_char. by repeat case_match. Qed.

Lemma pretty_N_go_free x s : free_of underscore s → free_of underscore (pretty_N_go x s).
Proof.
  revert s. induction (N.lt_wf_0 x) as [x _ IH]; intros s Hs.
  assert (x = 0 ∨ 0 < x)%N as [->|Hpos] by lia.
  - by rewrite pretty_N_go_0.
  - rewrite pretty_N_go_step by done. apply IH.
    + by apply N.div_lt.
    + split; [apply pretty_N_char_free|done].
Qed.

Lemma pretty_N_free (x : N) : free_of underscore (pretty x).
Proof.
  unfold pretty, pretty_N. destruct (decide (x = 0%N)).
  - by split.
  - by apply pretty_N_go_free.
Qed.

Lemma pretty_nat_free (n : nat) : free_of underscore (pretty n).
Proof. apply pretty_N_free. Qed.

Lemma pretty_Z_free (z : Z) : free_of underscore (pretty z).
Proof.
  destruct z as [|p|p]; unfold pretty, pretty_Z.
  - by split.
  - apply pretty_N_free.
  - split; [done|]. apply pretty_N_free.
Qed.

Lemma falsehood_id_inj (z z' : Z) (i j : nat) :
  "falsehood_" +:+ pretty z +:+ "_" +:+ pretty i
  = "falsehood_" +:+ pretty z' +:+ "_" +:+ pretty j → i = j.
Proof.
  intros H. apply append_inj_prefix in H.
  apply (split_at_first underscore (pretty z) (pretty z') (pretty i) (pretty j)) in H
    as [_ H]; [|apply pretty_Z_free..].
  by apply (inj pretty) in H.
Qed.

End identifiers.

(** X23. A response of the judge that matches the schema is never
    rejected: when the text parses to an object that holds the eight fields
    with their types, [evaluateDentalNotes] returns a record that copies
    the two scores, the explanations, the examples and the summary, sets
    [overallRanking] to 0, and turns each falsehood of the response, in
    order, into a falsehood with its four texts and the identifier
    [falsehood_<time>_<index>]. *)
Theorem schema_conforming_response_accepted
    (JSON_parse : string → string + Judge.jsval) (now : nat → Z)
    (text : string) (properties : list (string * Judge.jsval)) :
  text ≠ EmptyString →
  JSON_parse text = inr (Judge.VObject properties) →
  Judge.matchesSchema (Judge.VObject properties) = true →
  ∃ results elements,
    Judge.evaluateDentalNotes JSON_parse now (Judge.Completed (Some text)) = inr results
    ∧ Judge.overallRanking results = 0
    ∧ Judge.detailScore results
      = {| Judge.score := Judge.assoc "detailScore" properties;
           Judge.explanation := Judge.assoc "detailExplanation" properties;
           Judge.examples := Judge.assoc "detailExamples" properties |}
    ∧ Judge.truthfulnessScore results
      = {| Judge.score := Judge.assoc "truthfulnessScore" properties;
           Judge.explanation := Judge.assoc "truthfulnessExplanation" properties;
           Judge.examples := Judge.assoc "truthfulnessExamples" properties |}
    ∧ Judge.summary results = Judge.assoc "summary" properties
    ∧ Judge.isInt (Judge.score (Judge.detailScore results)) = true
    ∧ Judge.isInt (Judge.score (Judge.truthfulnessScore results)) = true
    ∧ Judge.assoc "falsehoods" properties = Judge.VArray elements
    ∧ length (Judge.falsehoods results) = length elements
    ∧ (∀ i f element,
         Judge.falsehoods results !! i = Some f → elements !! i = Some element →
         Judge.id f = "falsehood_" +:+ pretty (now i) +:+ "_" +:+ pretty i
         ∧ Judge.prop element "description" = inr (Judge.description f)
         ∧ Judge.prop element "severity" = inr (Judge.severity f)
         ∧ Judge.prop element "location" = inr (Judge.location f)
         ∧ Judge.prop element "correction" = inr (Judge.correction f)
         ∧ Judge.isString (Judge.description f) = true
         ∧ Judge.isString (Judge.severity f) = true
         ∧ Judge.isString (Judge.location f) = true
         ∧ Judge.isString (Judge.correction f) = true).
Proof.
  intros Htext Hparse Hschema. cbn [Judge.matchesSchema] in Hschema.
  repeat match type of Hschema with
         | _ && _ = true => apply andb_prop in Hschema as [Hschema ?]
         end.
  destruct (Judge.assoc "falsehoods" properties) as [| | | | |elements|] eqn:Ef;
    try done.
  match goal with H : Judge.isFalsehoodArray _ = true |- _ => cbn in H; rename H into Hfs end.
  destruct (mapFrom_conforming now 0 elements Hfs) as (fs & Hmap & Hlen & Hall).
  rewrite (evaluate_object JSON_parse now text properties Htext Hparse), Ef.
  cbn [Judge.mapFalsehoods]. rewrite Hmap.
  eexists _, elements. split; [reflexivity|].
  cbn [Judge.overallRanking Judge.detailScore Judge.truthfulnessScore Judge.summary
       Judge.falsehoods Judge.score].
  repeat (split; [done|]).
  intros i f element Hf He. exact (Hall i f element Hf He).
Qed.

Lemma schema_conforming_response_accepted_witness :
  ∃ results,
    Judge.evaluateDentalNotes sampleConformingParse (fun _ => 1700000000000)
      (Judge.Completed (Some sampleConformingText)) = inr results
    ∧ length (Judge.falsehoods results) = 2%nat.
Proof.
  destruct (schema_conforming_response_accepted sampleConformingParse
              (fun _ => 1700000000000) sampleConformingText
              [("detailScore", Judge.VNumber 8);
               ("detailExplanation", Judge.VString "thorough");
               ("detailExamples", Judge.VArray [Judge.VString "probing depths"]);
               ("truthfulnessScore", Judge.VNumber 6);
               ("truthfulnessExplanation", Judge.VString "two errors");
               ("truthfulnessExamples", Judge.VArray []);
               ("falsehoods",
                Judge.VArray
                  [Judge.VObject [("description", Judge.VString "wrong tooth");
                                  ("severity", Judge.VString "high");
                                  ("location", Judge.VString "line 2");
                                  ("correction", Judge.VString "tooth 14")];
                   Judge.VObject [("description", Judge.VString "added allergy");
                                  ("severity", Judge.VString "low");
                                  ("location", Judge.VString "line 5");
                                  ("correction", Judge.VString "none reported")]]);
               ("summary", Judge.VString "usable")])
    as (results & elements & Hr & _ & _ & _ & _ & _ & _ & He & Hlen & _).
  - done.
  - reflexivity.
  - reflexivity.
  - exists results. split; [exact Hr|]. rewrite Hlen.
    cbn in He. injection He as <-. reflexivity.
Defined.

(** X24. The identifiers of the falsehoods of one record returned by
    [evaluateDentalNotes] are pairwise distinct, whatever the clock says:
    the index that ends the identifier tells them apart. *)
Theorem falsehood_ids_distinct
    (JSON_parse : string → string + Judge.jsval) (now : nat → Z)
    (completion : Judge.Completion) (results : Judge.RawResults) :
  Judge.evaluateDentalNotes JSON_parse now completion = inr results →
  NoDup (Judge.id <$> Judge.falsehoods results).
Proof.
  intros Hr. destruct (evaluate_falsehoods JSON_parse now completion results Hr)
    as [elements Hmap].
  apply NoDup_alt. intros i j x Hi Hj. rewrite list_lookup_fmap in Hi, Hj.
  destruct (Judge.falsehoods results !! i) as [fi|] eqn:Ei; [|done].
  destruct (Judge.falsehoods results !! j) as [fj|] eqn:Ej; [|done].
  injection Hi as Hi. injection Hj as Hj.
  rewrite (mapFrom_ids now 0 elements _ Hmap i fi Ei) in Hi.
  rewrite (mapFrom_ids now 0 elements _ Hmap j fj Ej) in Hj.
  rewrite <- Hj in Hi. by apply falsehood_id_inj in Hi.
Qed.

Lemma falsehood_ids_distinct_witness :
  ∃ results,
    Judge.evaluateDentalNotes sampleConformingParse (fun _ => 1700000000000)
      (Judge.Completed (Some sampleConformingText)) = inr results
    ∧ NoDup (Judge.id <$> Judge.falsehoods results).
Proof.
  eexists. split; [reflexivity|].
  apply (falsehood_ids_distinct sampleConformingParse (fun _ => 1700000000000)
           (Judge.Completed (Some sampleConformingText))).
  reflexivity.
Defined.

(** ** Stored sessions and batches *)

Section retrieval.
Import Orchestrator Retrieval.
Variable host : Host.
Variable env : Env.

(** What the loop over the note files of one directory adds. *)
Lemma evaluateNotes_spec tn tc noteFiles evs w :
  ∃ new recs t err w',
    evaluateNotes host env tn tc noteFiles (evs, w) = (err, (evs ++ new, w'))
    ∧ heap w' = heap w ++ recs
    ∧ trace w' = trace w ++ t
    ∧ (calls w ≤ calls w')%nat
    ∧ length recs = length new
    ∧ results <$> new = seq (length (heap w)) (length new)
    ∧ Forall (fun r => overallRanking r = 0) recs
    ∧ Forall (fun e => transcriptName e = tn) new
    ∧ noteFileName <$> new = take (length new) (ref_name <$> noteFiles)
    ∧ delays t = replicate (length new) 1000
    ∧ length (judged t) = (calls w' - calls w)%nat
    ∧ (err = None → length new = length noteFiles
                    ∧ calls w' = (calls w + length noteFiles)%nat).
Proof.
  revert evs w. induction noteFiles as [|noteFile rest IH]; intros evs w.
  { exists [], [], [], None, w. cbn [evaluateNotes]. rewrite !app_nil_r.
    repeat split; try done; try lia. simpl. lia. }
  cbn [evaluateNotes].
  destruct (readFile host (ref_path noteFile)) as [message|noteContent].
  { exists [], [], [], (Some message), w. rewrite !app_nil_r.
    repeat split; try done; try lia. simpl. lia. }
  unfold evaluateDentalNotes.
  set (p := {| prompt_transcript := tc; prompt_notes := noteContent;
               prompt_noteFileName := ref_name noteFile |}).
  destruct (judge env (calls w) p) as [message|r] eqn:Ej.
  { exists [], [], [Judged p], (Some message),
      {| heap := heap w; calls := S (calls w); trace := trace w ++ [Judged p] |}.
    rewrite !app_nil_r. cbn [heap trace calls].
    repeat split; try done; try lia. simpl. lia. }
  cbn [alloc heap calls trace emit].
  match goal with
  | |- context [evaluateNotes _ _ _ _ rest (evs ++ [?e], ?w1)] =>
      destruct (IH (evs ++ [e]) w1)
        as (new & recs & t & err & w' & Hrun & Hheap & Htrace & Hcalls & Hlen & Hres
            & Hzero & Hnames & Hfiles & Hdelays & Hjudged & Hok);
      exists (e :: new), (set_overallRanking 0 r :: recs)
  end.
  cbn [heap calls trace emit] in *.
  exists (Judged p :: Delayed 1000 :: t), err, w'.
  rewrite Hrun, <- app_assoc. split; [reflexivity|].
  rewrite Hheap, Htrace, <- !app_assoc. cbn [app].
  split; [done|]. split; [done|]. split; [lia|]. split; [simpl; lia|].
  split.
  { rewrite fmap_cons. cbn [results length seq]. f_equal.
    rewrite Hres, length_app. cbn [length]. by rewrite Nat.add_1_r. }
  split; [by constructor|]. split; [by constructor|].
  split; [rewrite !fmap_cons; cbn [length take noteFileName]; by rewrite Hfiles|].
  split.
  { change (delays (Judged p :: Delayed 1000 :: t)) with (1000 :: delays t).
    by rewrite Hdelays. }
  split.
  { change (judged (Judged p :: Delayed 1000 :: t)) with (p :: judged t).
    cbn [length]. rewrite Hjudged. lia. }
  intros ->. destruct (Hok eq_refl) as [Hl Hc]. cbn [length]. split; lia.
Qed.

Lemma evaluateDirectory_spec dir tn evs w :
  ∃ new recs t err w',
    evaluateDirectory host env dir tn (evs, w) = (err, (evs ++ new, w'))
    ∧ heap w' = heap w ++ recs
    ∧ trace w' = trace w ++ t
    ∧ (calls w ≤ calls w')%nat
    ∧ length recs = length new
    ∧ results <$> new = seq (length (heap w)) (length new)
    ∧ Forall (fun r => overallRanking r = 0) recs
    ∧ Forall (fun e => transcriptName e = tn) new
    ∧ noteFileName <$> new
      = take (length new)
          (match findNoteFiles host dir with
           | inr noteFiles => ref_name <$> noteFiles
           | inl _ => []
           end)
    ∧ delays t = replicate (length new) 1000
    ∧ length (judged t) = (calls w' - calls w)%nat
    ∧ (err = None →
       ∃ noteFiles, findNoteFiles host dir = inr noteFiles
                    ∧ length new = length noteFiles
                    ∧ calls w' = (calls w + length noteFiles)%nat).
Proof.
  unfold evaluateDirectory.
  assert (∀ message : string,
    ∃ new recs t err w',
      (Some message, (evs, w)) = (err, (evs ++ new, w'))
      ∧ heap w' = heap w ++ recs ∧ trace w' = trace w ++ t ∧ (calls w ≤ calls w')%nat
      ∧ length recs = length new
      ∧ results <$> new = seq (length (heap w)) (length new)
      ∧ Forall (fun r => overallRanking r = 0) recs
      ∧ Forall (fun e => transcriptName e = tn) new
      ∧ noteFileName <$> new
        = take (length new)
            (match findNoteFiles host dir with
             | inr noteFiles => ref_name <$> noteFiles
             | inl _ => []
             end)
      ∧ delays t = replicate (length new) 1000
      ∧ length (judged t) = (calls w' - calls w)%nat
      ∧ (err = None →
         ∃ noteFiles, findNoteFiles host dir = inr noteFiles
                      ∧ length new = length noteFiles
                      ∧ calls w' = (calls w + length noteFiles)%nat)) as Hfail.
  { intros message. exists [], [], [], (Some message), w. rewrite !app_nil_r.
    repeat split; try done; try lia. simpl. lia. }
  destruct (findTranscriptFile host dir) as [message|transcriptPath]; [apply Hfail|].
  destruct (readFile host transcriptPath) as [message|transcriptContent]; [apply Hfail|].
  destruct (findNoteFiles host dir) as [message|noteFiles]; [apply Hfail|].
  destruct (evaluateNotes_spec tn transcriptContent noteFiles evs w)
    as (new & recs & t & err & w' & Hrun & Hheap & Htrace & Hcalls & Hlen & Hres
        & Hzero & Hnames & Hfiles & Hdelays & Hjudged & Hok).
  exists new, recs, t, err, w'. repeat (split; [done|]).
  intros Herr. exists noteFiles. split; [done|]. by apply Hok.
Qed.


Lemma directoriesOf_sublist batchDir entries dirs :
  directoriesOf host batchDir entries = inr dirs → sublist dirs entries.
Proof.
  revert dirs. induction entries as [|entry rest IH]; intros dirs H; cbn in H.
  { by injection H as <-. }
  destruct (isDirectory host (join host batchDir entry)) as [m|isDir]; [done|].
  destruct (directoriesOf host batchDir rest) as [m|dirs']; [done|].
  injection H as <-. destruct isDir.
  - apply sublist_skip. by apply IH.
  - apply sublist_cons. by apply IH.
Qed.

(** The note files of a directory of the batch, as [findNoteFiles] lists
    them. *)
Let notesOf (dir : string) : list string :=
  match findNoteFiles host dir with
  | inr noteFiles => ref_name <$> noteFiles
  | inl _ => []
  end.

Lemma filter_names_all (P : Evaluation → Prop) `{∀ e, Decision (P e)} (l : list Evaluation) :
  Forall P l → filter P l = l.
Proof.
  induction 1 as [|e l He Hl IH]; [done|]. rewrite filter_cons, decide_True by done.
  by rewrite IH.
Qed.

Lemma filter_names_none (P : Evaluation → Prop) `{∀ e, Decision (P e)} (l : list Evaluation) :
  Forall (fun e => ¬ P e) l → filter P l = [].
Proof.
  induction 1 as [|e l He Hl IH]; [done|]. by rewrite filter_cons, decide_False.
Qed.

Lemma evaluateDirs_spec batchDir dirs evs w :
  ∃ new recs t w',
    foldl (evaluateTranscriptDir host env batchDir) (evs, w) dirs = (evs ++ new, w')
    ∧ heap w' = heap w ++ recs
    ∧ trace w' = trace w ++ t
    ∧ (calls w ≤ calls w')%nat
    ∧ length recs = length new
    ∧ results <$> new = seq (length (heap w)) (length new)
    ∧ Forall (fun e => transcriptName e ∈ dirs) new
    ∧ delays t = replicate (length new) 1000
    ∧ length (judged t) = (calls w' - calls w)%nat
    ∧ (NoDup dirs → ∀ d, d ∈ dirs →
         noteFileName <$> filter (fun e => transcriptName e = d) new
         `prefix_of` notesOf (join host batchDir d)).
Proof.
  revert evs w. induction dirs as [|d dirs IH]; intros evs w.
  { exists [], [], [], w. cbn [foldl]. rewrite !app_nil_r.
    repeat split; try done; try lia.
    - simpl. lia.
    - intros _ d Hd. by apply elem_of_nil in Hd. }
  cbn [foldl]. unfold evaluateTranscriptDir at 2.
  destruct (evaluateDirectory_spec (join host batchDir d) d evs w)
    as (new1 & recs1 & t1 & err & w1 & Hrun1 & Hheap1 & Htrace1 & Hcalls1 & Hlen1
        & Hres1 & _ & Hnames1 & Hfiles1 & Hdelays1 & Hjudged1 & _).
  rewrite Hrun1. cbn [snd].
  destruct (IH (evs ++ new1) w1)
    as (new2 & recs2 & t2 & w2 & Hrun2 & Hheap2 & Htrace2 & Hcalls2 & Hlen2 & Hres2
        & Hnames2 & Hdelays2 & Hjudged2 & Hprefix2).
  exists (new1 ++ new2), (recs1 ++ recs2), (t1 ++ t2), w2.
  rewrite Hrun2, Hheap2, Htrace2, Hheap1, Htrace1, <- !app_assoc.
  split; [done|]. split; [done|]. split; [done|]. split; [lia|].
  split; [rewrite !length_app; lia|]. split.
  { rewrite fmap_app, Hres1, Hres2, Hheap1, !length_app, seq_app.
    by rewrite Hlen1. }
  split.
  { apply Forall_app. split.
    - eapply Forall_impl; [exact Hnames1|]. intros e He. cbn beta. rewrite He. by left.
    - eapply Forall_impl; [exact Hnames2|]. intros e He. by right. }
  split; [by rewrite delays_app, Hdelays1, Hdelays2, length_app, replicate_add|].
  split; [rewrite judged_app, length_app, Hjudged1, Hjudged2; lia|].
  intros Hnd d' Hd'. apply NoDup_cons in Hnd as [Hd Hnd].
  rewrite filter_app, fmap_app.
  apply elem_of_cons in Hd' as [->|Hd'].
  - rewrite (filter_names_all _ new1 Hnames1), (filter_names_none _ new2).
    + rewrite app_nil_r, Hfiles1. apply prefix_take.
    + eapply Forall_impl; [exact Hnames2|]. intros e He Heq. cbn beta in He.
      by rewrite Heq in He.
  - rewrite (filter_names_none _ new1).
    + by apply Hprefix2.
    + eapply Forall_impl; [exact Hnames1|]. intros e He Heq. cbn beta in He.
      rewrite He in Heq. by subst d'.
Qed.

(** *** The ranking pass over the directories *)

Lemma groupResults_lookup (all : list Evaluation) m g :
  lookupGroup g
    (foldl (fun acc evaluation =>
              JS.groupPush (transcriptName evaluation) (results evaluation) acc) m all)
  = lookupGroup g m ++ locsOf g all.
Proof.
  revert m. induction all as [|e all IH]; intros m; cbn [foldl].
  - by rewrite app_nil_r.
  - rewrite IH, lookupGroup_groupPush. unfold locsOf. rewrite filter_cons.
    destruct (decide (transcriptName e = g)); simpl; by rewrite <- app_assoc.
Qed.

Lemma groupResults_keys (all : list Evaluation) m :
  NoDup (m.*1) →
  NoDup ((foldl (fun acc evaluation =>
                   JS.groupPush (transcriptName evaluation) (results evaluation) acc)
            m all).*1).
Proof.
  revert m. induction all as [|e all IH]; intros m Hnd; cbn [foldl]; [done|].
  apply IH. by apply groupPush_keys.
Qed.

Lemma lookupGroup_absent {V} g (m : list (string * list V)) :
  g ∉ m.*1 → lookupGroup g m = [].
Proof.
  induction m as [|[k ms] m IH]; intros Hg; simpl; [done|].
  destruct (decide (k = g)) as [->|]; [exfalso; apply Hg; by left|].
  apply IH. intros Hin. apply Hg. by right.
Qed.

Lemma indicesFrom_length j g (all : list Evaluation) :
  length (indicesFrom j g all) = length (locsOf g all).
Proof.
  unfold locsOf. rewrite length_fmap. revert j.
  induction all as [|e all IH]; intros j; simpl; [done|]. rewrite filter_cons.
  destruct (decide (transcriptName e = g)); simpl; by rewrite IH.
Qed.

Lemma assignRanked_id (indices : list nat) (ranked : list nat) j (all : list Evaluation) :
  (∀ k l, ranked !! k = Some l →
          ∃ i, indices !! (j + k)%nat = Some i ∧ results <$> all !! i = Some l) →
  JS.forEachFrom j (assignRanked indices) ranked (Some all) = Some all.
Proof.
  revert j. induction ranked as [|l ranked IH]; intros j H; [done|].
  cbn [JS.forEachFrom].
  destruct (H 0%nat l eq_refl) as (i & Hi & Hl). rewrite Nat.add_0_r in Hi.
  assert (assignRanked indices l j (Some all) = Some all) as ->.
  { unfold assignRanked. cbn [mbind option_bind]. rewrite Hi. cbn [mbind option_bind].
    f_equal. destruct (all !! i) as [e|] eqn:E; [|done].
    injection Hl as <-. apply list_eq. intros i'.
    destruct (decide (i' = i)) as [->|Hne].
    - rewrite list_lookup_alter_eq, E. simpl. by destruct e.
    - by rewrite list_lookup_alter_ne. }
  apply IH. intros k l' Hk. replace (S j + k)%nat with (j + S k)%nat by lia.
  by apply (H (S k)).
Qed.

Lemma rankDirectory_spec groups (all : list Evaluation) h g :
  lookupGroup g groups = locsOf g all →
  rankDirectory groups (inr (all, h)) g
  = inr (all, (Ranker.rankEvaluations h (locsOf g all)).1).
Proof.
  intros Hg. unfold rankDirectory. rewrite Hg.
  destruct (rankEvaluations_rewritten (locsOf g all) h) as (h' & -> & _).
  unfold JS.forEach. rewrite assignRanked_id; [done|].
  intros k l Hk. cbn [Nat.add].
  destruct (lookup_lt_is_Some_2 (indicesFrom 0 g all) k) as [i Hi].
  { rewrite indicesFrom_length. by eapply lookup_lt_Some. }
  exists i. split; [done|].
  pose proof (indicesFrom_lookup [] g all k i Hi) as H. cbn in H. by rewrite H.
Qed.

Lemma rankDirectories_spec groups (all : list Evaluation) h names :
  (∀ g, lookupGroup g groups = locsOf g all) →
  foldl (rankDirectory groups) (inr (all, h)) names = inr (all, rankAll all h names).
Proof.
  intros Hg. revert h. induction names as [|g names IH]; intros h; [done|].
  cbn [foldl]. rewrite rankDirectory_spec by done. apply IH.
Qed.

Lemma rankByDirectory_spec (all : list Evaluation) w :
  rankByDirectory host (all, w)
  = if existsb (inherited host) (transcriptName <$> all) then inl w
    else inr (all, {| heap := rankAll all (heap w)
                                (objectKeys host
                                   (foldl (fun acc evaluation =>
                                             JS.groupPush (transcriptName evaluation)
                                               (results evaluation) acc) [] all).*1);
                      calls := calls w; trace := trace w |}).
Proof.
  unfold rankByDirectory, groupByTranscript.
  destruct (existsb _ _); [done|].
  rewrite rankDirectories_spec; [done|].
  intros g. by rewrite groupResults_lookup.
Qed.

End retrieval.

(** X25. [GET] with a session: the session is evaluated all or nothing.
    Either the response is the error 500 "Failed to evaluate session",
    which carries no evaluation whatever had been evaluated before the
    failure, or every note file that [findNoteFiles] lists has been read
    and judged with success, in order, and the response holds one
    evaluation for each, named after the session.  These evaluations are
    not ranked: the ranking of each record is 0, however many they are. *)
Theorem stored_session_all_or_nothing
    (host : Retrieval.Host) (env : Orchestrator.Env)
    (sessionId : string) (batchId : option string) (w : Orchestrator.World) :
  sessionId ≠ EmptyString →
  match Retrieval.GET host env (Some sessionId) batchId w with
  | (Retrieval.SessionResponse success sid evaluations, w') =>
      success = true ∧ sid = sessionId
      ∧ ∃ noteFiles,
          Retrieval.findNoteFiles host
            (Retrieval.join host (Retrieval.UPLOAD_DIR host) sessionId) = inr noteFiles
          ∧ Orchestrator.noteFileName <$> evaluations
            = Retrieval.ref_name <$> noteFiles
          ∧ Forall (fun e => Orchestrator.transcriptName e = sessionId) evaluations
          ∧ Orchestrator.results <$> evaluations
            = seq (length (Orchestrator.heap w)) (length evaluations)
          ∧ (∀ e, e ∈ evaluations →
               Ranker.rankAt (Orchestrator.heap w') (Orchestrator.results e) = 0)
          ∧ Orchestrator.calls w' = (Orchestrator.calls w + length noteFiles)%nat
          ∧ Orchestrator.delays (Orchestrator.trace w')
            = Orchestrator.delays (Orchestrator.trace w)
              ++ replicate (length noteFiles) 1000
  | (Retrieval.ErrorResponse status error, _) =>
      status = 500%nat ∧ error = "Failed to evaluate session"
  | (Retrieval.BatchResponse _ _ _ _ _, _) => False
  end.
Proof.
  intros Hs. unfold Retrieval.GET, Retrieval.truthy.
  rewrite decide_False by done. unfold Retrieval.evaluateSession.
  destruct (evaluateDirectory_spec host env
              (Retrieval.join host (Retrieval.UPLOAD_DIR host) sessionId) sessionId [] w)
    as (new & recs & t & err & w' & Hrun & Hheap & Htrace & Hcalls & Hlen & Hres
        & Hzero & Hnames & Hfiles & Hdelays & Hjudged & Hok).
  rewrite Hrun, app_nil_l. destruct err as [message|]; [done|].
  destruct (Hok eq_refl) as (noteFiles & Hnf & Hlen' & Hcalls').
  split; [done|]. split; [done|]. exists noteFiles.
  split; [done|]. split.
  { rewrite Hfiles, Hnf, Hlen'. apply take_ge. by rewrite length_fmap. }
  split; [done|]. split; [done|]. split; [|split; [done|]].
  - intros e He. apply list_elem_of_lookup_1 in He as [i Hi].
    assert (Orchestrator.results e = (length (Orchestrator.heap w) + i)%nat) as ->.
    { assert ((Orchestrator.results <$> new) !! i = Some (Orchestrator.results e)) as H
        by (by rewrite list_lookup_fmap, Hi).
      rewrite Hres in H. by apply lookup_seq in H as [-> _]. }
    unfold Ranker.rankAt. rewrite Hheap.
    assert (i < length recs)%nat as Hlt by (rewrite Hlen; by eapply lookup_lt_Some).
    destruct (lookup_lt_is_Some_2 recs i Hlt) as [r Hr].
    rewrite (list_lookup_total_correct _ _ r).
    + rewrite Forall_forall in Hzero. apply Hzero. by eapply list_elem_of_lookup_2.
    + rewrite lookup_app_r by lia.
      by replace (length (Orchestrator.heap w) + i - length (Orchestrator.heap w))%nat
        with i by lia.
  - by rewrite Htrace, delays_app, Hdelays, Hlen'.
Qed.

Lemma stored_session_all_or_nothing_witness :
  ∃ evaluations w',
    Retrieval.GET sampleHost sampleEnvAllSucceed (Some "session1") None
      Orchestrator.emptyWorld
    = (Retrieval.SessionResponse true "session1" evaluations, w')
    ∧ Orchestrator.noteFileName <$> evaluations = ["notes-a.txt"; "notes-b.md"]
    ∧ ∀ e, e ∈ evaluations →
        Ranker.rankAt (Orchestrator.heap w') (Orchestrator.results e) = 0.
Proof.
  pose proof (stored_session_all_or_nothing sampleHost sampleEnvAllSucceed "session1"
                None Orchestrator.emptyWorld) as T.
  destruct (Retrieval.GET sampleHost sampleEnvAllSucceed (Some "session1") None
              Orchestrator.emptyWorld) as [[s sid evs|s bid evs n m|status err] w'] eqn:E.
  - destruct T as (-> & -> & nfs & Hnf & Hnames & _ & _ & Hrank & _); [done|].
    exists evs, w'. split; [reflexivity|]. split; [|exact Hrank].
    rewrite Hnames. vm_compute in Hnf. by injection Hnf as <-.
  - vm_compute in E. discriminate E.
  - vm_compute in E. discriminate E.
Defined.

(** X26. [GET] with a batch and no session.  Either the response is the
    error 500 "Failed to evaluate batch", or it holds the evaluations of
    the transcript directories of the batch: each is named after a
    directory, a name that an empty object does not inherit; the
    evaluations of a directory are those of an initial segment of its note
    files, in order, a failure in a directory being caught for that
    directory; one delay of 1000 ms is taken for each evaluation; the
    records are new ones and those that were in the store are untouched;
    and within every directory the rankings are a permutation of
    1..(number of its evaluations), whatever the records hold. *)
Theorem stored_batch_ranked_by_directory
    (host : Retrieval.Host) (env : Orchestrator.Env)
    (sessionId : option string) (batchId : string) (w : Orchestrator.World) :
  (∀ keys, Retrieval.objectKeys host keys ≡ₚ keys) →
  Retrieval.truthy sessionId = None →
  batchId ≠ EmptyString →
  match Retrieval.GET host env sessionId (Some batchId) w with
  | (Retrieval.BatchResponse success bid evaluations transcriptCount totalEvaluations,
     w') =>
      success = true ∧ bid = batchId ∧ totalEvaluations = length evaluations
      ∧ (∃ entries transcriptDirs,
           Retrieval.readdir host
             (Retrieval.join host (Retrieval.UPLOAD_DIR host) batchId) = inr entries
           ∧ Retrieval.directoriesOf host
               (Retrieval.join host (Retrieval.UPLOAD_DIR host) batchId) entries
             = inr transcriptDirs
           ∧ transcriptCount = length transcriptDirs
           ∧ Forall (fun e => Orchestrator.transcriptName e ∈ transcriptDirs
                              ∧ Retrieval.inherited host (Orchestrator.transcriptName e)
                                = false) evaluations
           ∧ (NoDup entries →
              ∀ d noteFiles, d ∈ transcriptDirs →
                Retrieval.findNoteFiles host
                  (Retrieval.join host
                     (Retrieval.join host (Retrieval.UPLOAD_DIR host) batchId) d)
                = inr noteFiles →
                Orchestrator.noteFileName
                  <$> filter (fun e => Orchestrator.transcriptName e = d) evaluations
                `prefix_of` Retrieval.ref_name <$> noteFiles))
      ∧ Orchestrator.results <$> evaluations
        = seq (length (Orchestrator.heap w)) (length evaluations)
      ∧ (∀ l, (l < length (Orchestrator.heap w))%nat →
           Orchestrator.heap w' !! l = Orchestrator.heap w !! l)
      ∧ (∀ g, Ranker.rankAt (Orchestrator.heap w') <$> locsOf g evaluations
              ≡ₚ seqZ 1 (Z.of_nat (length (locsOf g evaluations))))
      ∧ Orchestrator.delays (Orchestrator.trace w')
        = Orchestrator.delays (Orchestrator.trace w)
          ++ replicate (length evaluations) 1000
  | (Retrieval.ErrorResponse status error, _) =>
      status = 500%nat ∧ error = "Failed to evaluate batch"
  | (Retrieval.SessionResponse _ _ _, _) => False
  end.
Proof.
  intros Hkeys Hsid Hb. unfold Retrieval.GET. rewrite Hsid.
  unfold Retrieval.truthy. rewrite decide_False by done.
  unfold Retrieval.evaluateBatch.
  set (batchDir := Retrieval.join host (Retrieval.UPLOAD_DIR host) batchId).
  destruct (Retrieval.readdir host batchDir) as [m|entries] eqn:Er; [done|].
  destruct (Retrieval.directoriesOf host batchDir entries) as [m|dirs] eqn:Ed; [done|].
  destruct (evaluateDirs_spec host env batchDir dirs [] w)
    as (all & recs & t & w1 & Hrun & Hheap & Htrace & Hcalls & Hlen & Hres & Hnames
        & Hdelays & Hjudged & Hprefix).
  rewrite Hrun, app_nil_l, rankByDirectory_spec.
  destruct (existsb (Retrieval.inherited host) (Orchestrator.transcriptName <$> all))
    eqn:Einh; [done|].
  set (groups := foldl (fun acc evaluation =>
                          JS.groupPush (Orchestrator.transcriptName evaluation)
                            (Orchestrator.results evaluation) acc) [] all).
  set (names := Retrieval.objectKeys host groups.*1).
  cbn [Orchestrator.heap Orchestrator.trace].
  assert (NoDup (Orchestrator.results <$> all)) as Hnd.
  { rewrite Hres. apply NoDup_seq. }
  assert (∀ e, e ∈ all → (Orchestrator.results e < length (Orchestrator.heap w1))%nat
                         ∧ (length (Orchestrator.heap w) ≤ Orchestrator.results e)%nat)
    as Hbounds.
  { intros e He. apply (list_elem_of_fmap_2 Orchestrator.results) in He.
    rewrite Hres in He. apply list_elem_of_lookup_1 in He as [i Hi].
    apply lookup_seq in Hi as [-> Hi]. rewrite Hheap, length_app. lia. }
  assert (NoDup names) as Hnames_nd.
  { unfold names. rewrite Hkeys. apply groupResults_keys. constructor. }
  assert (∀ g, g ∉ names → locsOf g all = []) as Habsent.
  { intros g Hg. unfold names in Hg. rewrite Hkeys in Hg.
    pose proof (groupResults_lookup all [] g) as H. cbn [lookupGroup app] in H.
    rewrite <- H. by apply lookupGroup_absent. }
  destruct (rankAll_spec all Hnd names (Orchestrator.heap w1) Hnames_nd)
    as (Hl & Ho & Hs & Hp); [intros e He; by apply Hbounds|].
  set (h' := rankAll all (Orchestrator.heap w1) names) in *.
  split; [done|]. split; [done|]. split; [done|]. split.
  { exists entries, dirs. split; [done|]. split; [done|]. split; [done|]. split.
    - apply Forall_forall. intros e He. split.
      + rewrite Forall_forall in Hnames. by apply Hnames.
      + destruct (Retrieval.inherited host (Orchestrator.transcriptName e)) eqn:Ei;
          [|done].
        assert (existsb (Retrieval.inherited host) (Orchestrator.transcriptName <$> all)
                = true) as Hex; [|congruence].
        apply existsb_exists. exists (Orchestrator.transcriptName e).
        split; [|done]. apply list_elem_of_In. by apply list_elem_of_fmap_2.
    - intros Hentries d noteFiles Hd Hnf.
      assert (NoDup dirs) as Hdirs.
      { eapply sublist_NoDup; [exact Hentries|eapply directoriesOf_sublist; exact Ed]. }
      specialize (Hprefix Hdirs d Hd). fold batchDir in Hnf.
      by rewrite Hnf in Hprefix. }
  split; [done|]. split.
  { intros l Hlt. rewrite Ho.
    - rewrite Hheap. by apply lookup_app_l.
    - intros g _ Hin. apply (locsOf_elem all) in Hin as (e & He & _ & <-).
      destruct (Hbounds e He). lia. }
  split.
  { intros g. destruct (decide (g ∈ names)) as [Hg|Hg]; [by apply Hp|].
    by rewrite (Habsent g Hg). }
  by rewrite Htrace, delays_app, Hdelays.
Qed.

Lemma stored_batch_ranked_by_directory_witness :
  ∃ evaluations w',
    Retrieval.GET sampleHost sampleEnv None (Some "batch1") Orchestrator.emptyWorld
    = (Retrieval.BatchResponse true "batch1" evaluations 2 (length evaluations), w')
    ∧ Ranker.rankAt (Orchestrator.heap w') <$> locsOf "t2" evaluations
      ≡ₚ seqZ 1 (Z.of_nat (length (locsOf "t2" evaluations))).
Proof.
  pose proof (stored_batch_ranked_by_directory sampleHost sampleEnv None "batch1"
                Orchestrator.emptyWorld) as T.
  destruct (Retrieval.GET sampleHost sampleEnv None (Some "batch1")
              Orchestrator.emptyWorld) as [[s sid evs|s bid evs n m|status err] w'] eqn:E.
  - vm_compute in E. discriminate E.
  - destruct T as (-> & -> & -> & (entries & dirs & Hr & Hd & -> & _) & _ & _ & Hp & _);
      [done..|].
    exists evs, w'. split; [|exact (Hp "t2")].
    vm_compute in Hr. injection Hr as <-. vm_compute in Hd. injection Hd as <-.
    reflexivity.
  - vm_compute in E. discriminate E.
Defined.

(** ** Rounding keeps the sign *)

Section float64.
Import Float64.

Lemma pow2_pos e : (0 < 2 ^ e)%Q.
Proof. by apply Qpower_0_lt. Qed.

Lemma pow2_mono e e' : e ≤ e' → (2 ^ e <= 2 ^ e')%Q.
Proof. intros H. by apply Qpower_le_compat_l. Qed.

(** The leading bit of a number is not above the number. *)
Lemma exponent_le x : ¬ (x == 0)%Q → (2 ^ exponent x <= Qabs x)%Q.
Proof.
  intros Hx. unfold exponent.
  set (a := Z.log2 (Z.abs (Qnum x))). set (b := Z.log2 (Z.pos (Qden x))).
  destruct (Qle_bool (2 ^ (a - b)) (Qabs x)) eqn:E; [by apply Qle_bool_iff|].
  assert (0 < Z.abs (Qnum x)) as Hn.
  { destruct x as [n d]. unfold Qeq in Hx. simpl in *. lia. }
  pose proof (Z.log2_spec _ Hn) as [Ha _]. fold a in Ha.
  assert (0 < Z.pos (Qden x)) as Hd by lia.
  pose proof (Z.log2_spec _ Hd) as [_ Hb]. fold b in Hb.
  pose proof (Z.log2_nonneg (Z.abs (Qnum x))) as Ha0. fold a in Ha0.
  pose proof (Z.log2_nonneg (Z.pos (Qden x))) as Hb0. fold b in Hb0.
  replace (a - b - 1) with (a - (b + 1)) by lia.
  rewrite Qpower_minus by done.
  rewrite <- (Zpower_Qpower 2 a), <- (Zpower_Qpower 2 (b + 1)) by lia.
  assert (0 < 2 ^ (b + 1)) as Hp by (apply Z.pow_pos_nonneg; lia).
  assert (0 < 2 ^ a) as Hq by (apply Z.pow_pos_nonneg; lia).
  replace (Z.succ b) with (b + 1) in Hb by lia.
  apply Qle_shift_div_r; [unfold Qlt; simpl; lia|].
  destruct x as [n d]. unfold Qabs, Qle, Qmult, inject_Z. simpl in *.
  nia.
Qed.

Lemma scaled_ge_1 x : (0 < x)%Q → (1 <= x / 2 ^ (exponent x - 52))%Q.
Proof.
  intros Hx. apply Qle_shift_div_l; [apply pow2_pos|]. rewrite Qmult_1_l.
  eapply Qle_trans; [apply (pow2_mono _ (exponent x)); lia|].
  eapply Qle_trans; [apply exponent_le|].
  - intros E. rewrite E in Hx. by apply Qlt_irrefl in Hx.
  - rewrite Qabs_pos; [apply Qle_refl|by apply Qlt_le_weak].
Qed.

Lemma scaled_le_m1 x : (x < 0)%Q → (x / 2 ^ (exponent x - 52) <= -1)%Q.
Proof.
  intros Hx. apply Qle_shift_div_r; [apply pow2_pos|].
  assert (2 ^ (exponent x - 52) <= - x)%Q as H.
  { eapply Qle_trans; [apply (pow2_mono _ (exponent x)); lia|].
    eapply Qle_trans; [apply exponent_le|].
    - intros E. rewrite E in Hx. by apply Qlt_irrefl in Hx.
    - rewrite Qabs_neg; [apply Qle_refl|by apply Qlt_le_weak]. }
  apply Qopp_le_compat in H. rewrite Qopp_involutive in H.
  eapply Qle_trans; [exact H|]. ring_simplify. apply Qle_refl.
Qed.

Lemma nearest_even_pos y : (1 <= y)%Q → 0 < nearest_even y.
Proof.
  intros Hy. unfold nearest_even.
  assert (1 ≤ Qfloor y) as Hf.
  { change 1 with (Qfloor 1). by apply Qfloor_resp_le. }
  destruct (_ ?= _)%Q; [destruct (Z.even _)|..]; lia.
Qed.

Lemma nearest_even_neg y : (y <= -1)%Q → nearest_even y < 0.
Proof.
  intros Hy. unfold nearest_even.
  assert (Qfloor y ≤ -1) as Hf.
  { change (-1) with (Qfloor (-1)). by apply Qfloor_resp_le. }
  destruct (decide (Qfloor y = -1)) as [E|E].
  - assert (y == -1)%Q as Hy1.
    { apply Qle_antisym; [done|]. rewrite <- E. apply Qfloor_le. }
    rewrite E. assert ((y - inject_Z (-1) ?= 1 # 2)%Q = Lt) as ->; [|lia].
    rewrite Hy1. reflexivity.
  - destruct (_ ?= _)%Q; [destruct (Z.even _)|..]; lia.
Qed.

Lemma fl_zero x : (x == 0)%Q → fl x = 0%Q.
Proof. intros H. unfold fl. apply Qeq_bool_iff in H. by rewrite H. Qed.

Lemma fl_pos x : (0 < x)%Q → (0 < fl x)%Q.
Proof.
  intros Hx. unfold fl.
  destruct (Qeq_bool x 0) eqn:E.
  { apply Qeq_bool_iff in E. rewrite E in Hx. by apply Qlt_irrefl in Hx. }
  cbv zeta. rewrite Qred_correct.
  apply Qmult_lt_0_compat; [|apply pow2_pos].
  pose proof (nearest_even_pos _ (scaled_ge_1 x Hx)). unfold Qlt. simpl. lia.
Qed.

Lemma fl_neg x : (x < 0)%Q → (fl x < 0)%Q.
Proof.
  intros Hx. unfold fl.
  destruct (Qeq_bool x 0) eqn:E.
  { apply Qeq_bool_iff in E. rewrite E in Hx. by apply Qlt_irrefl in Hx. }
  cbv zeta. rewrite Qred_correct.
  pose proof (nearest_even_neg _ (scaled_le_m1 x Hx)) as Hn.
  pose proof (pow2_pos (exponent x - 52)) as Hu.
  set (u := (2 ^ (exponent x - 52))%Q) in *.
  set (m := nearest_even (x / u)) in *.
  assert (0 < inject_Z (- m) * u)%Q as H.
  { apply Qmult_lt_0_compat; [unfold Qlt; simpl; lia|done]. }
  rewrite inject_Z_opp in H.
  apply (Qplus_lt_l _ _ (inject_Z m * u)) in H. ring_simplify in H. exact H.
Qed.

(** The difference of two numbers is positive, zero or negative as the
    exact difference is: a comparator written as a difference orders
    numbers as they are ordered. *)
Lemma fl_positive x : JS.positive (fl x) = true ↔ (0 < x)%Q.
Proof.
  rewrite positive_spec. split; [|apply fl_pos].
  intros H. destruct (Q_dec 0 x) as [[Hlt|Hgt]|Heq]; [done|..].
  - apply fl_neg in Hgt. exfalso. eapply Qlt_irrefl, Qlt_trans; eauto.
  - rewrite fl_zero in H by (by symmetry). by apply Qlt_irrefl in H.
Qed.

Lemma sub_descending (key key' : Q) :
  JS.positive (sub key' key) = true ↔ (key < key')%Q.
Proof. unfold sub. rewrite fl_positive. by rewrite <- (Qlt_minus_iff key key'). Qed.

Lemma sub_ascending (key key' : Q) :
  JS.positive (sub key key') = true ↔ (- key < - key')%Q.
Proof.
  rewrite sub_descending. split; intros H.
  - by apply Qopp_lt_compat.
  - apply Qopp_lt_compat in H. by rewrite !Qopp_involutive in H.
Qed.

Lemma sub_nonneg x y : (y <= x)%Q → (0 <= sub x y)%Q.
Proof.
  intros H. unfold sub. apply Qle_lt_or_eq in H as [H|H].
  - apply Qlt_le_weak, fl_pos. by rewrite <- (Qlt_minus_iff y x).
  - rewrite fl_zero; [apply Qle_refl|]. rewrite H. ring.
Qed.

End float64.

(** ** The note types in double precision *)

Section summary64.
Import Summary.
Import Summary64.

Lemma noteTypeStats64_names evs :
  filename <$> noteTypeStats evs = firstSeen (noteFileName <$> evs).
Proof.
  unfold noteTypeStats, firstSeen, noteTypeGroups.
  pose proof (groups_names [] evs) as H. rewrite fmap_nil in H.
  rewrite <- H, <- list_fmap_compose.
  apply list_fmap_ext. by intros i [f evals] _.
Qed.

Lemma noteTypeStats64_elem evs s :
  s ∈ noteTypeStats evs →
  evaluations s = filter (fun e => noteFileName e = filename s) evs
  ∧ avgDetailScore s = round1 (meanDetail (evaluations s))
  ∧ avgTruthfulnessScore s = round1 (meanTruthfulness (evaluations s))
  ∧ avgCompositeScore s = round1 (meanComposite (evaluations s)).
Proof.
  unfold noteTypeStats. intros Hs.
  apply list_elem_of_fmap in Hs as ([f evals] & -> & Hin). simpl. split; [|done].
  rewrite <- (lookupGroup_elem f evals _ (groups_names_NoDup [] evs (NoDup_nil_2)) Hin).
  by rewrite groups_members.
Qed.

Lemma stats64_composite evs s :
  s ∈ noteTypeStats evs →
  avgCompositeScore s = round1 (meanComposite (evaluations s)).
Proof. intros Hs. destruct (noteTypeStats64_elem evs s Hs) as (_ & _ & _ & H). exact H. Qed.

Lemma stats64_detail evs s :
  s ∈ noteTypeStats evs →
  avgDetailScore s = round1 (meanDetail (evaluations s)).
Proof. intros Hs. destruct (noteTypeStats64_elem evs s Hs) as (_ & H & _). exact H. Qed.

Lemma stats64_truthfulness evs s :
  s ∈ noteTypeStats evs →
  avgTruthfulnessScore s = round1 (meanTruthfulness (evaluations s)).
Proof. intros Hs. destruct (noteTypeStats64_elem evs s Hs) as (_ & _ & H & _). exact H. Qed.

Lemma noteTypeStats64_nonempty evs : evs ≠ [] → noteTypeStats evs ≠ [].
Proof.
  intros Hne E. unfold noteTypeStats in E. apply fmap_nil_inv in E.
  by apply noteTypeGroups_nonempty in E.
Qed.

Lemma noteTypeStats64_filename_NoDup evs : NoDup (filename <$> noteTypeStats evs).
Proof.
  rewrite noteTypeStats64_names, <- noteTypeStats_names.
  apply noteTypeStats_filename_NoDup.
Qed.

Lemma stats64_filename_inj evs a b :
  a ∈ noteTypeStats evs → b ∈ noteTypeStats evs → filename a = filename b → a = b.
Proof. apply fmap_inj_on, noteTypeStats64_filename_NoDup. Qed.

Lemma byAvgComposite64_rk a b :
  JS.positive (byAvgComposite a b) = true ↔ (avgCompositeScore a < avgCompositeScore b)%Q.
Proof. apply sub_descending. Qed.

Lemma byAvgDetail64_rk a b :
  JS.positive (byAvgDetail a b) = true ↔ (avgDetailScore a < avgDetailScore b)%Q.
Proof. apply sub_descending. Qed.

Lemma byAvgTruthfulness64_rk a b :
  JS.positive (byAvgTruthfulness a b) = true
  ↔ (avgTruthfulnessScore a < avgTruthfulnessScore b)%Q.
Proof. apply sub_descending. Qed.

Variable evs : list Evaluation.
Hypothesis evs_nonempty : evs ≠ [].

Lemma ranked64_perm : rankedNoteTypes evs ≡ₚ noteTypeStats evs.
Proof. apply sort_Permutation. Qed.

Lemma ranked64_nonempty : rankedNoteTypes evs ≠ [].
Proof. unfold rankedNoteTypes. apply sort_nonempty. by apply noteTypeStats64_nonempty. Qed.

Lemma after64_perm :
  JS.sort byAvgTruthfulness (JS.sort byAvgDetail (rankedNoteTypes evs))
  ≡ₚ noteTypeStats evs.
Proof. unfold rankedNoteTypes. by rewrite !sort_Permutation. Qed.

Lemma ranked64_best best :
  rankedNoteTypes evs !! 0%nat = Some best →
  best ∈ noteTypeStats evs
  ∧ ∀ s, s ∈ noteTypeStats evs → (avgCompositeScore s <= avgCompositeScore best)%Q.
Proof.
  intros Hbest.
  destruct (sort_head byAvgComposite avgCompositeScore byAvgComposite64_rk
              (noteTypeStats evs) (noteTypeStats64_nonempty evs evs_nonempty))
    as (x & Hx & Hin & Hmax).
  unfold rankedNoteTypes in Hbest. rewrite Hx in Hbest. by injection Hbest as <-.
Qed.

Lemma ranked64_worst worst :
  rankedNoteTypes evs !! (length (rankedNoteTypes evs) - 1)%nat = Some worst →
  worst ∈ noteTypeStats evs
  ∧ ∀ s, s ∈ noteTypeStats evs → (avgCompositeScore worst <= avgCompositeScore s)%Q.
Proof.
  intros Hworst. split.
  - rewrite <- ranked64_perm. by eapply list_elem_of_lookup_2.
  - unfold rankedNoteTypes in Hworst. rewrite sort_length in Hworst.
    by apply (sort_last byAvgComposite avgCompositeScore byAvgComposite64_rk
                (noteTypeStats evs)).
Qed.

End summary64.


(** The rounding of the operations is visible from ten transcripts on:
    the detail scores of "A.txt" add up to 19 and its truthfulness scores
    to 28, so that its mean composite score is 2.35 exactly, but
    2.3499999999999996 as the component computes it, which is rounded to
    2.3 and not to 2.4; "B.txt", with 20 and 27, gets 2.4 and is ranked
    first. *)
Lemma rounded_mean_of_ten_transcripts :
  ∃ a b,
    Summary64.noteTypeStats sampleTenTranscripts = [a; b]
    ∧ Summary64.rankedNoteTypes sampleTenTranscripts = [b; a]
    ∧ Summary.filename a = "A.txt" ∧ Summary.filename b = "B.txt"
    ∧ Summary.avgCompositeScore a = Float64.fl (23 # 10)
    ∧ Summary.avgCompositeScore b = Float64.fl (24 # 10)
    ∧ (Summary.meanComposite (Summary.evaluations a) == 235 # 100)%Q
    ∧ (Summary.meanComposite (Summary.evaluations b) == 235 # 100)%Q.
Proof.
  eexists _, _. split; [vm_compute; reflexivity|].
  split; [vm_compute; reflexivity|]. repeat split; vm_compute; reflexivity.
Qed.

(** ** The commentary in double precision, block by block *)

Section commentary_anatomy64.
Import Summary.
Import Summary64.
Variable Math_pow : Q → Q → Q.
Variable r : list NoteTypeStats.
Hypothesis r_nonempty : r ≠ [].

Let r1 := JS.sort byAvgDetail r.
Let r2 := JS.sort byAvgTruthfulness r1.
Let asc :=
  JS.sort (fun a b => Float64.sub (variance a) (variance b))
    (consistency Math_pow <$> r2).
Let desc := JS.sort (fun a b => Float64.sub (variance b) (variance a)) asc.
Let fasc :=
  JS.sort (fun a b => Float64.sub (avgFalsehoods a) (avgFalsehoods b))
    (falsehoodRate <$> r2).
Let fdesc := JS.sort (fun a b => Float64.sub (avgFalsehoods b) (avgFalsehoods a)) fasc.

(** On a non-empty array every read of [generateCommentary] finds its
    element, and the commentary is made of five blocks. *)
Lemma commentary_anatomy64 :
  ∃ best worst md mt mc lc safest riskiest,
    r !! 0%nat = Some best ∧ r !! (length r - 1)%nat = Some worst
    ∧ r1 !! 0%nat = Some md ∧ r2 !! 0%nat = Some mt
    ∧ asc !! 0%nat = Some mc ∧ desc !! 0%nat = Some lc
    ∧ fasc !! 0%nat = Some safest ∧ fdesc !! 0%nat = Some riskiest
    ∧ generateCommentary Math_pow r
      = Some
          {| comments :=
               (let scoreDiff :=
                  Float64.sub (avgCompositeScore best) (avgCompositeScore worst) in
                if JS.gt scoreDiff 2
                then [SignificantGap (filename best) (filename worst) scoreDiff]
                else if JS.gt scoreDiff 1
                then [ModeratelyBetter (filename best) scoreDiff]
                else [QuiteConsistent scoreDiff])
               ++ (if bool_decide (filename md = filename mt)
                      && bool_decide (filename md = filename best)
                   then [ClearWinner (filename best)]
                   else if negb (bool_decide (filename md = filename mt))
                   then [DifferentStrengths (filename md) (filename mt)]
                   else [])
               ++ (if JS.lt (variance mc) (1 # 2)
                   then [ExceptionalConsistency (c_filename mc)]
                   else if JS.gt (variance lc) 2
                   then [SignificantVariation (c_filename lc)]
                   else [])
               ++ (if JS.eq (avgFalsehoods safest) 0
                   then [PerfectAccuracy (f_filename safest)]
                   else if JS.ge (avgFalsehoods riskiest) 2
                   then [RequiresAttention (f_filename riskiest) (avgFalsehoods riskiest)]
                   else [])
               ++ (if decide (length (filter (fun nt => JS.ge (avgCompositeScore nt) 8 = true) r2)
                              = length r2)
                   then [AllHighQuality]
                   else if decide (0 < length (filter (fun nt => JS.lt (avgCompositeScore nt) 6 = true) r2))%nat
                   then [BelowThreshold
                           (filename <$> filter (fun nt => JS.lt (avgCompositeScore nt) 6 = true) r2)]
                   else []);
             mostConsistent := Some mc;
             leastConsistent := Some lc;
             arrayAfter := r2 |}.
Proof.
  unfold generateCommentary.
  rewrite decide_False by (by destruct r).
  destruct (lookup_lt_is_Some_2 r 0) as [best Hbest]; [destruct r; [done|simpl; lia]|].
  destruct (lookup_lt_is_Some_2 r (length r - 1)) as [worst Hworst];
    [destruct r; [done|simpl; lia]|].
  rewrite Hbest, Hworst. cbn [mbind option_bind].
  assert (r1 ≠ []) as Hr1 by by apply sort_nonempty.
  assert (r2 ≠ []) as Hr2 by by apply sort_nonempty.
  destruct (sort_head_Some byAvgDetail r r_nonempty) as [md Hmd].
  destruct (sort_head_Some byAvgTruthfulness r1 Hr1) as [mt Hmt].
  fold r1 in Hmd |- *. rewrite Hmd. cbn [mbind option_bind].
  fold r2 in Hmt |- *. rewrite Hmt. cbn [mbind option_bind].
  assert (consistency Math_pow <$> r2 ≠ []) as Hcs.
  { intros E. by apply fmap_nil_inv in E. }
  destruct (sort_head_Some (fun a b => Float64.sub (variance a) (variance b)) _ Hcs)
    as [mc Hmc].
  fold asc in Hmc |- *. rewrite Hmc. cbn [mbind option_bind].
  assert (asc ≠ []) as Hasc by by apply sort_nonempty.
  destruct (sort_head_Some (fun a b => Float64.sub (variance b) (variance a)) asc Hasc)
    as [lc Hlc].
  fold desc in Hlc |- *. rewrite Hlc. cbn [mbind option_bind].
  assert (falsehoodRate <$> r2 ≠ []) as Hfr.
  { intros E. by apply fmap_nil_inv in E. }
  destruct (sort_head_Some
              (fun a b => Float64.sub (avgFalsehoods a) (avgFalsehoods b)) _ Hfr)
    as [safest Hsafest].
  fold fasc in Hsafest |- *. rewrite Hsafest. cbn [mbind option_bind].
  assert (fasc ≠ []) as Hfasc by by apply sort_nonempty.
  destruct (sort_head_Some
              (fun a b => Float64.sub (avgFalsehoods b) (avgFalsehoods a)) fasc Hfasc)
    as [riskiest Hriskiest].
  fold fdesc in Hriskiest |- *. rewrite Hriskiest. cbn [mbind option_bind].
  exists best, worst, md, mt, mc, lc, safest, riskiest.
  by repeat (split; [done|]).
Qed.

End commentary_anatomy64.

(** X13. The first sentence of the commentary compares the note type with
    the largest rounded mean composite score and the one with the
    smallest.  Their difference is computed in double precision; it is
    never negative; above 2 the sentence reports a significant gap and
    names both, above 1 and up to 2 it reports a moderate lead and names
    the best, and up to 1 it reports consistent performance.  The
    difference of two means that are one point apart can exceed 1: for 8.3
    and 7.3 it is 1.0000000000000009, and the sentence reports a moderate
    lead. *)
Theorem commentary_performance_gap
    (Math_pow : Q → Q → Q) (evs : list Summary.Evaluation) :
  evs ≠ [] →
  ∃ c best worst,
    Summary64.generateCommentary Math_pow (Summary64.rankedNoteTypes evs) = Some c
    ∧ best ∈ Summary64.noteTypeStats evs
    ∧ worst ∈ Summary64.noteTypeStats evs
    ∧ (∀ s, s ∈ Summary64.noteTypeStats evs →
         Summary.avgCompositeScore s
         = Summary64.round1 (Summary64.meanComposite (Summary.evaluations s)))
    ∧ (∀ s, s ∈ Summary64.noteTypeStats evs →
         (Summary.avgCompositeScore worst <= Summary.avgCompositeScore s)%Q
         ∧ (Summary.avgCompositeScore s <= Summary.avgCompositeScore best)%Q)
    ∧ let scoreDiff :=
        Float64.sub (Summary.avgCompositeScore best) (Summary.avgCompositeScore worst) in
      (0 <= scoreDiff)%Q
      ∧ ((2 < scoreDiff)%Q →
         head (Summary.comments c)
         = Some (Summary.SignificantGap (Summary.filename best) (Summary.filename worst)
                   scoreDiff))
      ∧ ((1 < scoreDiff)%Q → (scoreDiff <= 2)%Q →
         head (Summary.comments c)
         = Some (Summary.ModeratelyBetter (Summary.filename best) scoreDiff))
      ∧ ((scoreDiff <= 1)%Q →
         head (Summary.comments c) = Some (Summary.QuiteConsistent scoreDiff)).
Proof.
  intros Hne.
  destruct (commentary_anatomy64 Math_pow (Summary64.rankedNoteTypes evs)
              (ranked64_nonempty evs Hne))
    as (best & worst & md & mt & mc & lc & safest & riskiest
        & Hbest & Hworst & _ & _ & _ & _ & _ & _ & ->).
  destruct (ranked64_best evs Hne best Hbest) as [Hb Hmax].
  destruct (ranked64_worst evs worst Hworst) as [Hw Hmin].
  eexists _, best, worst. split; [reflexivity|]. split; [done|]. split; [done|].
  split; [apply stats64_composite|].
  split; [intros s Hs; split; [by apply Hmin|by apply Hmax]|].
  cbn [Summary.comments].
  set (scoreDiff := Float64.sub (Summary.avgCompositeScore best)
                      (Summary.avgCompositeScore worst)).
  cbv zeta. split; [|split; [|split]].
  - apply sub_nonneg. by apply Hmax.
  - intros H2. apply gt_spec in H2. by rewrite H2.
  - intros H1 H2. apply gt_spec in H1. rewrite H1.
    destruct (JS.gt scoreDiff 2) eqn:E; [|done].
    apply gt_spec in E. exfalso. by eapply Qlt_not_le.
  - intros H1.
    destruct (JS.gt scoreDiff 2) eqn:E2.
    { apply gt_spec in E2. exfalso. eapply Qlt_not_le; [exact E2|].
      eapply Qle_trans; [exact H1|done]. }
    destruct (JS.gt scoreDiff 1) eqn:E1; [|done].
    apply gt_spec in E1. exfalso. by eapply Qlt_not_le.
Qed.

Lemma commentary_performance_gap_witness :
  ∃ c scoreDiff,
    Summary64.generateCommentary samplePow
      (Summary64.rankedNoteTypes sampleOnePointApart) = Some c
    ∧ head (Summary.comments c) = Some (Summary.ModeratelyBetter "notes-gpt4o" scoreDiff)
    ∧ (1 < scoreDiff)%Q.
Proof.
  destruct (commentary_performance_gap samplePow sampleOnePointApart)
    as (c & best & worst & Hc & _); [done|].
  exists c. eexists. split; [exact Hc|].
  vm_compute in Hc. injection Hc as <-. split; [reflexivity|]. vm_compute. reflexivity.
Defined.

(** X14. The quality sentence: the commentary says that all note types are
    of high quality exactly when every rounded mean composite score, as
    the component has computed and stored it in double precision, is at
    least 8; otherwise it names the note types whose stored score is below
    6, in the order in which they are shown, when there is one, and says
    nothing on quality when there is none. *)
Theorem commentary_quality (Math_pow : Q → Q → Q) (evs : list Summary.Evaluation) :
  evs ≠ [] →
  ∃ c,
    Summary64.generateCommentary Math_pow (Summary64.rankedNoteTypes evs) = Some c
    ∧ Summary.arrayAfter c ≡ₚ Summary64.noteTypeStats evs
    ∧ (∀ s, s ∈ Summary64.noteTypeStats evs →
         Summary.avgCompositeScore s
         = Summary64.round1 (Summary64.meanComposite (Summary.evaluations s)))
    ∧ (Summary.AllHighQuality ∈ Summary.comments c
       ↔ ∀ s, s ∈ Summary64.noteTypeStats evs → (8 <= Summary.avgCompositeScore s)%Q)
    ∧ (∀ names, Summary.BelowThreshold names ∈ Summary.comments c
       ↔ names ≠ []
         ∧ names = Summary.filename
                   <$> filter (fun s => JS.lt (Summary.avgCompositeScore s) 6 = true)
                         (Summary.arrayAfter c)).
Proof.
  intros Hne.
  destruct (commentary_anatomy64 Math_pow (Summary64.rankedNoteTypes evs)
              (ranked64_nonempty evs Hne))
    as (best & worst & md & mt & mc & lc & safest & riskiest
        & _ & _ & _ & _ & _ & _ & _ & _ & ->).
  eexists. split; [reflexivity|]. cbn [Summary.comments Summary.arrayAfter].
  set (r2 := JS.sort Summary64.byAvgTruthfulness
               (JS.sort Summary64.byAvgDetail (Summary64.rankedNoteTypes evs))).
  assert (r2 ≡ₚ Summary64.noteTypeStats evs) as Hperm by apply (after64_perm evs).
  split; [exact Hperm|]. split; [apply stats64_composite|].
  set (low := filter (fun s => JS.lt (Summary.avgCompositeScore s) 6 = true) r2).
  assert (∀ `{∀ nt : Summary.NoteTypeStats,
                Decision (JS.ge (Summary.avgCompositeScore nt) 8 = true)},
            length (filter (fun nt => JS.ge (Summary.avgCompositeScore nt) 8 = true) r2)
            = length r2
            ↔ ∀ s, s ∈ Summary64.noteTypeStats evs → (8 <= Summary.avgCompositeScore s)%Q)
    as Hall.
  { intros Hdec. rewrite filter_length_all. split; intros H s Hs.
    - apply ge_spec, H. by rewrite Hperm.
    - apply ge_spec, H. by rewrite <- Hperm. }
  assert (low ≠ [] → ∃ s, s ∈ Summary64.noteTypeStats evs
                         ∧ ¬ (8 <= Summary.avgCompositeScore s)%Q) as Hlow.
  { intros Hl. destruct low as [|s low'] eqn:E; [done|].
    assert (s ∈ filter (fun s => JS.lt (Summary.avgCompositeScore s) 6 = true) r2) as Hs.
    { fold low. rewrite E. by left. }
    apply list_elem_of_filter in Hs as [Hlt Hs]. exists s. split; [by rewrite <- Hperm|].
    apply lt_spec in Hlt. intros Hge. eapply Qlt_not_le; [exact Hlt|].
    eapply Qle_trans; [|exact Hge]. done. }
  split.
  - rewrite !elem_of_app. split.
    + intros [H|[H|[H|[H|H]]]]; [not_in_block H..|].
      destruct (decide (length _ = length r2)) as [E|E]; [exact (proj1 (Hall _) E)|].
      not_in_block H.
    + intros H. do 4 right. rewrite decide_True by exact (proj2 (Hall _) H). by left.
  - intros names. rewrite !elem_of_app. split.
    + intros [H|[H|[H|[H|H]]]]; [not_in_block H..|].
      destruct (decide (length _ = length r2)) as [E|E]; [not_in_block H|].
      fold low in H |- *.
      destruct (decide (0 < length low)%nat) as [Hpos|Hpos]; [|not_in_block H].
      apply elem_of_cons in H as [H|H]; [|by apply elem_of_nil in H].
      injection H as ->. split; [|done].
      intros E'. apply fmap_nil_inv in E'. rewrite E' in Hpos. simpl in Hpos. lia.
    + intros [Hnames ->]. do 4 right. fold low in Hnames |- *.
      assert (low ≠ []) as Hl by (intros E; by rewrite E in Hnames).
      destruct (Hlow Hl) as (s & Hs & Hnot).
      rewrite decide_False.
      * rewrite decide_True; [by left|]. destruct low; [done|simpl; lia].
      * intros E. by apply Hnot, (proj1 (Hall _) E).
Qed.

Lemma commentary_quality_witness :
  ∃ c, Summary64.generateCommentary samplePow
         (Summary64.rankedNoteTypes sampleNearThreshold) = Some c
       ∧ Summary.BelowThreshold ["C.txt"] ∈ Summary.comments c.
Proof.
  destruct (commentary_quality samplePow sampleNearThreshold)
    as (c & Hc & _ & _ & _ & Hlow);
    [done|].
  exists c. split; [exact Hc|]. apply Hlow. split; [done|].
  vm_compute in Hc. injection Hc as <-. vm_compute. reflexivity.
Defined.

(** X15. The consistency sentence: the commentary looks at the note type
    whose composite scores have the smallest variance and at the one with
    the largest, the variances being computed in double precision with the
    [Math.pow] of the host.  It calls the first exceptionally consistent
    exactly when that variance is below 0.5; otherwise it reports
    significant variation for the second exactly when its variance is
    above 2. *)
Theorem commentary_consistency (Math_pow : Q → Q → Q) (evs : list Summary.Evaluation) :
  evs ≠ [] →
  ∃ c mc lc,
    Summary64.generateCommentary Math_pow (Summary64.rankedNoteTypes evs) = Some c
    ∧ Summary.mostConsistent c = Some mc
    ∧ Summary.leastConsistent c = Some lc
    ∧ mc ∈ Summary64.consistency Math_pow <$> Summary64.noteTypeStats evs
    ∧ lc ∈ Summary64.consistency Math_pow <$> Summary64.noteTypeStats evs
    ∧ (∀ s, s ∈ Summary64.noteTypeStats evs →
         (Summary.variance mc <= Summary.variance (Summary64.consistency Math_pow s))%Q
         ∧ (Summary.variance (Summary64.consistency Math_pow s) <= Summary.variance lc)%Q)
    ∧ (∀ n, Summary.ExceptionalConsistency n ∈ Summary.comments c
            ↔ n = Summary.c_filename mc ∧ (Summary.variance mc < 1 # 2)%Q)
    ∧ (∀ n, Summary.SignificantVariation n ∈ Summary.comments c
            ↔ n = Summary.c_filename lc
              ∧ ((1 # 2) <= Summary.variance mc)%Q
              ∧ (2 < Summary.variance lc)%Q).
Proof.
  intros Hne.
  destruct (commentary_anatomy64 Math_pow (Summary64.rankedNoteTypes evs)
              (ranked64_nonempty evs Hne))
    as (best & worst & md & mt & mc & lc & safest & riskiest
        & _ & _ & _ & _ & Hmc & Hlc & _ & _ & ->).
  set (r2 := JS.sort Summary64.byAvgTruthfulness
               (JS.sort Summary64.byAvgDetail (Summary64.rankedNoteTypes evs))) in *.
  assert (r2 ≡ₚ Summary64.noteTypeStats evs) as Hperm by apply (after64_perm evs).
  assert (Summary64.consistency Math_pow <$> r2 ≠ []) as Hcs.
  { intros E. apply fmap_nil_inv in E. rewrite E in Hperm.
    apply Permutation_nil_l in Hperm. by apply (noteTypeStats64_nonempty evs Hne). }
  set (asc := JS.sort (fun a b => Float64.sub (Summary.variance a) (Summary.variance b))
                (Summary64.consistency Math_pow <$> r2)) in *.
  destruct (sort_head (fun a b => Float64.sub (Summary.variance a) (Summary.variance b))
              (fun c => - Summary.variance c)%Q
              (fun a b => sub_ascending (Summary.variance a) (Summary.variance b))
              (Summary64.consistency Math_pow <$> r2) Hcs) as (mc' & Hmc' & Hmcin & Hmin).
  fold asc in Hmc'. rewrite Hmc in Hmc'. injection Hmc' as <-.
  assert (asc ≠ []) as Hasc by (intros E; by rewrite E in Hmc).
  destruct (sort_head (fun a b => Float64.sub (Summary.variance b) (Summary.variance a))
              Summary.variance
              (fun a b => sub_descending (Summary.variance a) (Summary.variance b))
              asc Hasc) as (lc' & Hlc' & Hlcin & Hmax).
  rewrite Hlc in Hlc'. injection Hlc' as <-.
  unfold asc in Hlcin. apply elem_of_sort in Hlcin.
  assert (∀ s, s ∈ Summary64.noteTypeStats evs →
            (Summary.variance mc <= Summary.variance (Summary64.consistency Math_pow s))%Q
            ∧ (Summary.variance (Summary64.consistency Math_pow s)
               <= Summary.variance lc)%Q) as Hext.
  { intros s Hs.
    assert (Summary64.consistency Math_pow s ∈ Summary64.consistency Math_pow <$> r2)
      as Hs'.
    { apply list_elem_of_fmap_2. by rewrite Hperm. }
    split.
    - specialize (Hmin _ Hs'). apply Qopp_le_compat in Hmin.
      by rewrite !Qopp_involutive in Hmin.
    - apply Hmax. unfold asc. by apply elem_of_sort. }
  eexists _, mc, lc. split; [reflexivity|].
  cbn [Summary.comments Summary.mostConsistent Summary.leastConsistent].
  split; [done|]. split; [done|].
  split; [by rewrite <- Hperm|]. split; [by rewrite <- Hperm|].
  split; [exact Hext|]. split.
  - intros n. rewrite !elem_of_app. split.
    + intros [H|[H|[H|[H|H]]]]; [not_in_block H|not_in_block H| |not_in_block H..].
      destruct (JS.lt (Summary.variance mc) (1 # 2)) eqn:E.
      * apply elem_of_cons in H as [H|H]; [|by apply elem_of_nil in H].
        injection H as ->. split; [done|]. by apply lt_spec.
      * not_in_block H.
    + intros [-> Hlt]. apply lt_spec in Hlt. rewrite Hlt.
      right. right. left. by left.
  - intros n. rewrite !elem_of_app. split.
    + intros [H|[H|[H|[H|H]]]]; [not_in_block H|not_in_block H| |not_in_block H..].
      destruct (JS.lt (Summary.variance mc) (1 # 2)) eqn:E; [not_in_block H|].
      destruct (JS.gt (Summary.variance lc) 2) eqn:E2; [|not_in_block H].
      apply elem_of_cons in H as [H|H]; [|by apply elem_of_nil in H].
      injection H as ->. split; [done|]. split; [|by apply gt_spec].
      apply Qnot_lt_le. intros Hlt. apply lt_spec in Hlt. congruence.
    + intros (-> & Hge & Hgt).
      assert (JS.lt (Summary.variance mc) (1 # 2) = false) as ->.
      { destruct (JS.lt _ _) eqn:E; [|done]. apply lt_spec in E.
        exfalso. by eapply Qlt_not_le. }
      apply gt_spec in Hgt. rewrite Hgt. right. right. left. by left.
Qed.

Lemma commentary_consistency_witness :
  ∃ c mc,
    Summary64.generateCommentary samplePow
      (Summary64.rankedNoteTypes sampleEqualVariances) = Some c
    ∧ Summary.mostConsistent c = Some mc
    ∧ Summary.c_filename mc = "B.txt"
    ∧ Summary.ExceptionalConsistency "B.txt" ∈ Summary.comments c.
Proof.
  destruct (commentary_consistency samplePow sampleEqualVariances)
    as (c & mc & lc & Hc & Hmc & _ & _ & _ & _ & Hex & _); [done|].
  exists c, mc. split; [exact Hc|]. split; [exact Hmc|].
  vm_compute in Hc. injection Hc as <-. vm_compute in Hmc. injection Hmc as <-.
  split; [reflexivity|]. apply Hex. split; [reflexivity|]. vm_compute. reflexivity.
Defined.

(** X18. The sentence on strengths: the commentary takes a note type of
    largest rounded mean detail score and one of largest rounded mean
    truthfulness score, the means being those the component has stored.
    It declares a clear winner exactly when both are the note type ranked
    first by composite, and reports different strengths, naming the two,
    exactly when they are different note types. *)
Theorem commentary_strengths (Math_pow : Q → Q → Q) (evs : list Summary.Evaluation) :
  evs ≠ [] →
  ∃ c best mostDetailed mostTruthful,
    Summary64.generateCommentary Math_pow (Summary64.rankedNoteTypes evs) = Some c
    ∧ Summary64.rankedNoteTypes evs !! 0%nat = Some best
    ∧ mostDetailed ∈ Summary64.noteTypeStats evs
    ∧ mostTruthful ∈ Summary64.noteTypeStats evs
    ∧ (∀ s, s ∈ Summary64.noteTypeStats evs →
         Summary.avgDetailScore s
         = Summary64.round1 (Summary64.meanDetail (Summary.evaluations s))
         ∧ Summary.avgTruthfulnessScore s
           = Summary64.round1 (Summary64.meanTruthfulness (Summary.evaluations s)))
    ∧ (∀ s, s ∈ Summary64.noteTypeStats evs →
         (Summary.avgDetailScore s <= Summary.avgDetailScore mostDetailed)%Q)
    ∧ (∀ s, s ∈ Summary64.noteTypeStats evs →
         (Summary.avgTruthfulnessScore s <= Summary.avgTruthfulnessScore mostTruthful)%Q)
    ∧ (∀ n, Summary.ClearWinner n ∈ Summary.comments c
            ↔ n = Summary.filename best ∧ mostDetailed = best ∧ mostTruthful = best)
    ∧ (∀ a b, Summary.DifferentStrengths a b ∈ Summary.comments c
              ↔ a = Summary.filename mostDetailed ∧ b = Summary.filename mostTruthful
                ∧ mostDetailed ≠ mostTruthful).
Proof.
  intros Hne.
  destruct (commentary_anatomy64 Math_pow (Summary64.rankedNoteTypes evs)
              (ranked64_nonempty evs Hne))
    as (best & worst & md & mt & mc & lc & safest & riskiest
        & Hbest & _ & Hmd & Hmt & _ & _ & _ & _ & ->).
  pose proof (ranked64_perm evs) as Hperm.
  destruct (sort_head Summary64.byAvgDetail Summary.avgDetailScore byAvgDetail64_rk
              (Summary64.rankedNoteTypes evs) (ranked64_nonempty evs Hne))
    as (md' & Hmd' & Hmdin & Hmdmax).
  rewrite Hmd in Hmd'. injection Hmd' as <-.
  set (r1 := JS.sort Summary64.byAvgDetail (Summary64.rankedNoteTypes evs)) in *.
  assert (r1 ≠ []) as Hr1 by (intros E; by rewrite E in Hmd).
  destruct (sort_head Summary64.byAvgTruthfulness Summary.avgTruthfulnessScore
              byAvgTruthfulness64_rk r1 Hr1) as (mt' & Hmt' & Hmtin & Hmtmax).
  rewrite Hmt in Hmt'. injection Hmt' as <-.
  unfold r1 in Hmtin. apply elem_of_sort in Hmtin.
  rewrite Hperm in Hmdin, Hmtin.
  assert (best ∈ Summary64.noteTypeStats evs) as Hbestin.
  { rewrite <- Hperm. by eapply list_elem_of_lookup_2. }
  assert (Summary.filename md = Summary.filename mt ↔ md = mt) as Hmdmt.
  { split; [by apply (stats64_filename_inj evs)|by intros ->]. }
  assert (Summary.filename md = Summary.filename best ↔ md = best) as Hmdbest.
  { split; [by apply (stats64_filename_inj evs)|by intros ->]. }
  eexists _, best, md, mt. split; [reflexivity|]. cbn [Summary.comments].
  split; [done|]. split; [done|]. split; [done|].
  split; [intros s Hs; split; [by apply (stats64_detail evs)
                              |by apply (stats64_truthfulness evs)]|].
  split; [intros s Hs; apply Hmdmax; by rewrite Hperm|].
  split; [intros s Hs; apply Hmtmax; unfold r1; apply elem_of_sort; by rewrite Hperm|].
  split.
  - intros n. rewrite !elem_of_app. split.
    + intros [H|[H|[H|[H|H]]]]; [not_in_block H| |not_in_block H..].
      destruct (bool_decide (Summary.filename md = Summary.filename mt)) eqn:E1;
        destruct (bool_decide (Summary.filename md = Summary.filename best)) eqn:E2;
        cbn [andb negb] in H; try (by apply elem_of_nil in H);
        try (apply elem_of_cons in H as [H|H]; [discriminate H|by apply elem_of_nil in H]).
      apply elem_of_cons in H as [H|H]; [|by apply elem_of_nil in H].
      injection H as ->. apply bool_decide_eq_true in E1, E2.
      apply Hmdmt in E1. apply Hmdbest in E2. split; [done|]. split; congruence.
    + intros (-> & -> & ->). rewrite !bool_decide_eq_true_2 by done. cbn [andb].
      right. left. by left.
  - intros a b. rewrite !elem_of_app. split.
    + intros [H|[H|[H|[H|H]]]]; [not_in_block H| |not_in_block H..].
      destruct (bool_decide (Summary.filename md = Summary.filename mt)) eqn:E1;
        destruct (bool_decide (Summary.filename md = Summary.filename best)) eqn:E2;
        cbn [andb negb] in H; try (by apply elem_of_nil in H);
        try (apply elem_of_cons in H as [H|H]; [discriminate H|by apply elem_of_nil in H]);
        (apply elem_of_cons in H as [H|H]; [|by apply elem_of_nil in H]);
        injection H as -> ->; apply bool_decide_eq_false in E1;
        (split; [done|]; split; [done|]); intros Heq; by apply E1, Hmdmt.
    + intros (-> & -> & Hdiff).
      assert (bool_decide (Summary.filename md = Summary.filename mt) = false) as ->.
      { apply bool_decide_eq_false. intros E. by apply Hdiff, Hmdmt. }
      cbn [andb negb]. right. left. by left.
Qed.

Lemma commentary_strengths_witness :
  ∃ c best,
    Summary64.generateCommentary samplePow
      (Summary64.rankedNoteTypes sampleTenTranscripts) = Some c
    ∧ Summary64.rankedNoteTypes sampleTenTranscripts !! 0%nat = Some best
    ∧ Summary.filename best = "B.txt"
    ∧ Summary.DifferentStrengths "B.txt" "A.txt" ∈ Summary.comments c.
Proof.
  destruct (commentary_strengths samplePow sampleTenTranscripts)
    as (c & best & md & mt & Hc & Hbest & _); [done|].
  exists c, best. split; [exact Hc|]. split; [exact Hbest|].
  vm_compute in Hc. injection Hc as <-. vm_compute in Hbest. injection Hbest as <-.
  split; [reflexivity|]. vm_compute. right. left.
Defined.
